(** * RascalC: the Monte Carlo integral driver [compute_integral]

    A shallow embedding of [modules/compute_integral.h]: the particle draws
    ([particle_list], [draw_particle], [draw_particle_without_class]), the
    selection functions, the jackknife product-weight tables and the nested
    sampling loop with its per-loop reduction.

    Conventions.
    - [int] values are integers of [Z]; the three unguarded products
      [pln*N2], [pln*N2*N3], [pln*N2*N3*N4] are checked against the 32-bit
      range, a signed overflow (undefined in C++) aborting the loop with
      [None]; so does a remainder by zero. The compiled code does not stop
      at such a product: it keeps the low 32 bits, two's complement, and
      goes on. The loop is modelled a second time with these wrapping
      products ([cell_iteration_wrapping], [outer_iteration_wrapping],
      [run_schedule_wrapping]); where no product overflows the two agree.
    - [uint64] counters are integers of [Z] reduced modulo [2^64] at every
      update.
    - [Float] (a C++ [double]) is modelled by the rationals [Q] where a
      value is only stored, compared or summed (positions, weights, the
      uniform deviate, the Frobenius differences): the arithmetic is exact,
      rounding is not modelled. The probabilities [p2], [p3], [p4], [p21],
      [p22] handed to the kernels are IEEE binary64 numbers ([double], the
      primitive floats), computed with the operations of the source in the
      order of the source: rounding, infinities and NaN are those of the
      compiled code.
    - The collaborators whose code lives in other headers (the methods of
      [Grid], [RandomDraws], [Integrals], the GSL generator) are the fields
      of type classes; the driver is generic in them.
    - Printing, timing and file output are left out of the loop; the
      arithmetic of the times it prints is modelled apart
      ([remaining_time], [hms]). *)

From Stdlib Require Import ZArith QArith Qround List Lia Bool.
From Stdlib Require Import Floats.
Import ListNotations.
Open Scope Z_scope.

(** ** Numbers *)

Definition Float : Type := Q.

Definition uint64 (z : Z) : Z := z mod 2 ^ 64.

Definition INT_MAX : Z := 2147483647.
Definition INT_MIN : Z := -2147483648.

Definition int_fits (z : Z) : bool := (INT_MIN <=? z) && (z <=? INT_MAX).

(** [a*b] on two [int]s; [None] on signed overflow. *)
Definition int_mul (a b : Z) : option Z :=
  if int_fits (a * b) then Some (a * b) else None.

(** What the compiled code keeps of an [int] result [z] that overflows: its
    low 32 bits, read in two's complement. *)
Definition int_wrap (z : Z) : Z := (z - INT_MIN) mod 2 ^ 32 + INT_MIN.

(** [a%b] on two [int]s (truncated remainder); [None] when [b] is zero. *)
Definition int_rem (a b : Z) : option Z :=
  if b =? 0 then None else Some (Z.rem a b).

(** A [double] whose value a property depends on bit by bit. *)
Definition double : Type := float.

(** [(double)n] for an [int] [n]: exact. *)
Definition double_of_int (n : Z) : double :=
  if n <? 0 then (- of_uint63 (Uint63.of_Z (- n)))%float
  else of_uint63 (Uint63.of_Z n).

(** [x < y] on two doubles. *)
Definition Float_ltb (x y : Float) : bool :=
  match (x ?= y)%Q with Lt => true | _ => false end.

(** ** Vectors, particles, cells and grids *)

(** Modelled from the spec: the class [integer3] (a cell coordinate or a
    cell displacement) is declared outside this header. *)
Record integer3 : Type := mk_integer3 { ix : Z; iy : Z; iz : Z }.

(** Modelled from the spec: the class [Float3] (a position or a spatial
    displacement) is declared outside this header. *)
Record Float3 : Type := mk_Float3 { fx : Float; fy : Float; fz : Float }.

Definition integer3_add (a b : integer3) : integer3 :=
  mk_integer3 (ix a + ix b) (iy a + iy b) (iz a + iz b).

Definition Float3_add (a b : Float3) : Float3 :=
  mk_Float3 (fx a + fx b)%Q (fy a + fy b)%Q (fz a + fz b)%Q.

Definition Float3_add_integer3 (a : Float3) (b : integer3) : Float3 :=
  mk_Float3 (fx a + inject_Z (ix b))%Q (fy a + inject_Z (iy b))%Q
            (fz a + inject_Z (iz b))%Q.

(** Modelled from the spec: [Particle] is "position, weight, optional
    tracer-class tag"; the struct is declared outside this header. *)
Record Particle : Type := mk_Particle
  { pos : Float3; weight : Float; rand_class : Z }.

Definition Particle_zero : Particle :=
  mk_Particle (mk_Float3 0%Q 0%Q 0%Q) 0%Q 0.

Module Cell.
(** Modelled from the spec: [Cell] is "(start, count) offset into a
    contiguous particle array; plus counts per tracer partition". *)
Record t : Type := mk { start : Z; np : Z; np1 : Z; np2 : Z }.
Definition zero : t := mk 0 0 0 0.
End Cell.

Module Grid.
(** Modelled from the spec: the data members of [Grid] the driver reads. *)
Record t : Type := mk
  { c : list Cell.t;        (* cell array *)
    p : list Particle;      (* particle array, sorted by cell *)
    filled : list Z;        (* 1D ids of the filled cells *)
    nf : Z;                 (* number of filled cells *)
    np : Z; np1 : Z; np2 : Z;
    maxnp : Z;
    norm : Float }.
End Grid.

(** [grid->c[id]] and [grid->p[id]]; a read outside the array (undefined in
    the source) yields a zero cell or particle. *)
Definition cell_at (grid : Grid.t) (id : Z) : Cell.t :=
  if id <? 0 then Cell.zero else nth (Z.to_nat id) (Grid.c grid) Cell.zero.

Definition particle_at (grid : Grid.t) (id : Z) : Particle :=
  if id <? 0 then Particle_zero
  else nth (Z.to_nat id) (Grid.p grid) Particle_zero.

Definition filled_at (grid : Grid.t) (n : Z) : Z :=
  if n <? 0 then 0 else nth (Z.to_nat n) (Grid.filled grid) 0.

(** The methods of [Grid] the driver calls; their code is in another
    header. [test_cell] returns the 1D index of a cell or a negative value
    when the cell is not in the grid. *)
Class GridOps : Type :=
  { test_cell : Grid.t -> integer3 -> Z;
    cell_sep : Grid.t -> integer3 -> Float3;
    cell_id_from_1d : Grid.t -> Z -> integer3;
    (* the conversion applied when a [Float3] separation is passed for the
       [integer3 shift] of [draw_particle_without_class] *)
    integer3_of_Float3 : Float3 -> integer3 }.

(** The GSL generator: [gsl_rng_uniform] returns a double and advances the
    generator. *)
Class GslRng : Type :=
  { gsl_rng : Type;
    gsl_rng_set : Z -> gsl_rng;
    gsl_rng_uniform : gsl_rng -> Float * gsl_rng }.

(** The build-time switches of the header. *)
Record Build : Type := mk_Build
  { LEGENDRE : bool; POWER : bool; JACKKNIFE : bool; PERIODIC : bool }.

(** ** Drawing particles *)

(** The indices [start, start+1, ..., start+n-1] a counting loop visits. *)
Definition index_range (start n : Z) : list Z :=
  map (fun k => start + Z.of_nat k) (seq 0 (Z.to_nat n)).

(** Overwrite the first elements of a buffer. *)
Definition overwrite {A : Type} (new old : list A) : list A :=
  new ++ skipn (length new) old.

(** [particle_list]: copies the particles of cell [id_1D] and their ids to
    the front of the two buffers, and returns their number. *)
Definition particle_list (id_1D : Z) (part_list : list Particle)
    (id_list : list Z) (grid : Grid.t) : Z * list Particle * list Z :=
  let cell := cell_at grid id_1D in
  let ids := index_range (Cell.start cell) (Cell.np cell) in
  (Z.of_nat (length ids),
   overwrite (map (particle_at grid) ids) part_list,
   overwrite ids id_list).

(** The reference arguments of [draw_particle]. *)
Record DrawOut : Type := mk_DrawOut
  { o_particle : Particle; o_pid : Z;
    o_n_particles : Z; o_n_particles1 : Z; o_n_particles2 : Z }.

(** The reference arguments of [draw_particle_without_class]. *)
Record DrawOut3 : Type := mk_DrawOut3
  { o3_particle : Particle; o3_pid : Z; o3_n_particles : Z }.

Section Draw.
Context {GO : GridOps} {RNG : GslRng}.
Variable build : Build.

Definition shift_particle (q : Particle) (shift : Float3) : Particle :=
  mk_Particle (Float3_add (pos q) shift) (weight q) (rand_class q).

Definition shift_particle_integer3 (q : Particle) (shift : integer3) : Particle :=
  mk_Particle (Float3_add_integer3 (pos q) shift) (weight q) (rand_class q).

(** [floor(gsl_rng_uniform(locrng)*cell.np) + cell.start], the product
    taken exactly; the compiled code rounds it to a [double] before the
    floor, which gives the next id where the exact product lies less than
    half an ulp below an integer. *)
Definition random_id (u : Float) (cell : Cell.t) : Z :=
  Qfloor (u * inject_Z (Cell.np cell)) + Cell.start cell.

Definition draw_particle (id_3D : integer3) (out : DrawOut) (shift : Float3)
    (grid : Grid.t) (locrng : gsl_rng) : Z * DrawOut * gsl_rng :=
  let id_1D := test_cell grid id_3D in
  if id_1D <? 0 then (1, out, locrng) else
  let cell := cell_at grid id_1D in
  if Cell.np cell =? 0 then (1, out, locrng) else
  let (u, locrng') := gsl_rng_uniform locrng in
  let pid := random_id u cell in
  let particle := particle_at grid pid in
  let particle :=
    if PERIODIC build then shift_particle particle shift else particle in
  (0, mk_DrawOut particle pid (Cell.np cell) (Cell.np1 cell) (Cell.np2 cell),
   locrng').

Definition draw_particle_without_class (id_3D : integer3) (out : DrawOut3)
    (shift : integer3) (grid : Grid.t) (locrng : gsl_rng)
    : Z * DrawOut3 * gsl_rng :=
  let id_1D := test_cell grid id_3D in
  if id_1D <? 0 then (1, out, locrng) else
  let cell := cell_at grid id_1D in
  if Cell.np cell =? 0 then (1, out, locrng) else
  let (u, locrng') := gsl_rng_uniform locrng in
  let pid := random_id u cell in
  let particle := particle_at grid pid in
  let particle :=
    if PERIODIC build then shift_particle_integer3 particle shift
    else particle in
  (0, mk_DrawOut3 particle pid (Cell.np cell), locrng').

End Draw.

(** ** Parameters, selection functions *)

Record Parameters : Type := mk_Parameters
  { nbin : Z; mbin : Z; N2 : Z; N3 : Z; N4 : Z;
    max_loops : Z; nthread : Z; multi_tracers : bool; power_norm : Float }.

(** The index the four [which_*] functions select for a pair of tracers:
    [(1,1)] is 0, [(2,2)] is 1, anything else is 2. *)
Definition which_index (Ia Ib : Z) : nat :=
  if (Ia =? 1) && (Ib =? 1) then 0%nat
  else if (Ia =? 2) && (Ib =? 2) then 1%nat
  else 2%nat.

Definition which_rd {A : Type} (all_rd : list A) (Ia Ib : Z) : option A :=
  nth_error all_rd (which_index Ia Ib).

Definition which_JK {A : Type} (all_JK : list A) (Ia Ib : Z) : option A :=
  nth_error all_JK (which_index Ia Ib).

Definition which_grid (all_grid : list Grid.t) (Ia : Z) : option Grid.t :=
  if Ia =? 1 then nth_error all_grid 0 else nth_error all_grid 1.

Definition which_cf {A : Type} (all_cf : list A) (Ia Ib : Z) : option A :=
  nth_error all_cf (which_index Ia Ib).

Definition which_survey {A : Type} (all_survey : list A) (Ia Ib : Z)
    : option A :=
  nth_error all_survey (which_index Ia Ib).

(** ** Jackknife product weights *)

(** Modelled from the spec: the members of [JK_weights] the driver reads;
    [weights] is indexed by [region*nbins + bin]. *)
Record JK_weights : Type := mk_JK_weights
  { weights : list Float; product_weights : list Float; n_JK_filled : Z }.

(** [a[i]] on an array of doubles. *)
Definition read (a : list Float) (i : Z) : Float :=
  if i <? 0 then 0%Q else nth (Z.to_nat i) a 0%Q.

Fixpoint update_nth {A : Type} (n : nat) (f : A -> A) (l : list A) : list A :=
  match l, n with
  | [], _ => []
  | a :: l', O => f a :: l'
  | a :: l', S n' => a :: update_nth n' f l'
  end.

(** [a[i] += v]. *)
Definition add_at (a : list Float) (i : Z) (v : Float) : list Float :=
  if i <? 0 then a else update_nth (Z.to_nat i) (fun old => (old + v)%Q) a.

(** The innermost loop, over [bin_b]. *)
Definition fill_bin_b (nbins partial_bin partial_bin2 : Z) (this_weight : Float)
    (wb : list Float) (table : list Float) : list Float :=
  fold_left
    (fun table bin_b =>
       add_at table (partial_bin2 + bin_b)
              (this_weight * read wb (partial_bin + bin_b))%Q)
    (index_range 0 nbins) table.

(** The loop over [bin_a]; [partial_bin2] starts at 0 and advances by
    [nbins]. *)
Definition fill_bin_a (nbins partial_bin : Z) (wa wb : list Float)
    (table : list Float) : list Float :=
  fst (fold_left
         (fun (st : list Float * Z) bin_a =>
            let (table, partial_bin2) := st in
            let this_weight := read wa (partial_bin + bin_a) in
            (fill_bin_b nbins partial_bin partial_bin2 this_weight wb table,
             partial_bin2 + nbins))
         (index_range 0 nbins) (table, 0)).

(** The loop over the filled regions [x]; [partial_bin] starts at 0 and
    advances by [nbins]. [fresh] is the block [posix_memalign] returned:
    the source adds into it without clearing it first. *)
Definition fill_product_weights (nbins : Z) (JKa JKb : JK_weights)
    (fresh : list Float) : list Float :=
  fst (fold_left
         (fun (st : list Float * Z) (_ : Z) =>
            let (table, partial_bin) := st in
            (fill_bin_a nbins partial_bin (weights JKa) (weights JKb) table,
             partial_bin + nbins))
         (index_range 0 (n_JK_filled JKa)) (fresh, 0)).

(** [product_weights12_34]: reuse the stored table of [JK12] when the pair
    (1,2) is the pair (3,4) up to a swap, else fill a fresh block of
    [nbins*nbins] doubles. *)
Definition product_weights12_34 (nbins I1 I2 I3 I4 : Z) (JK12 JK34 : JK_weights)
    (fresh : list Float) : list Float :=
  if ((I1 =? I3) && (I2 =? I4)) || ((I1 =? I4) && (I2 =? I3))
  then product_weights JK12
  else fill_product_weights nbins JK12 JK34 fresh.

(** [product_weights12_23]. *)
Definition product_weights12_23 (nbins I1 I3 : Z) (JK12 JK23 : JK_weights)
    (fresh : list Float) : list Float :=
  if I1 =? I3 then product_weights JK12
  else fill_product_weights nbins JK12 JK23 fresh.

(** What the claim of the specification asks of an entry: the sum over the
    filled regions of [w12[reg,b_a] * w34[reg,b_b]], added up from [from]
    in region order. *)
Definition region_sum (nbins : Z) (JKa JKb : JK_weights) (b_a b_b : Z)
    (from : Float) : Float :=
  fold_left
    (fun acc reg =>
       (acc + read (weights JKa) (reg * nbins + b_a)
              * read (weights JKb) (reg * nbins + b_b))%Q)
    (index_range 0 (n_JK_filled JKa)) from.

(** ** The accumulator class [Integrals] *)

Module Integrals.
(** Modelled from the spec: the accumulator is "flat arrays ... for each of
    C2, C3, C4; a parallel set for each jackknife region when enabled;
    integer counts cnt2, cnt3, cnt4 of accepted contributions"; the class is
    defined in [integrals.h], outside this header. *)
Record t : Type := mk
  { c2 : list Float; c3 : list Float; c4 : list Float;
    c2j : list Float; c3j : list Float; c4j : list Float;
    cnt2 : Z; cnt3 : Z; cnt4 : Z }.

Fixpoint add_arrays (a b : list Float) : list Float :=
  match a, b with
  | x :: a', y :: b' => (x + y)%Q :: add_arrays a' b'
  | _, _ => a
  end.

(** Modelled from the spec: [sum_ints(other)] "adds other's arrays
    element-wise to this". *)
Definition sum_ints (this other : t) : t :=
  mk (add_arrays (c2 this) (c2 other)) (add_arrays (c3 this) (c3 other))
     (add_arrays (c4 this) (c4 other)) (add_arrays (c2j this) (c2j other))
     (add_arrays (c3j this) (c3j other)) (add_arrays (c4j this) (c4j other))
     (cnt2 this) (cnt3 this) (cnt4 this).

Definition zero_array (a : list Float) : list Float := map (fun _ => 0%Q) a.

(** Modelled from the spec: [reset()] "zeros all arrays and counts". *)
Definition reset (this : t) : t :=
  mk (zero_array (c2 this)) (zero_array (c3 this)) (zero_array (c4 this))
     (zero_array (c2j this)) (zero_array (c3j this)) (zero_array (c4j this))
     0 0 0.
End Integrals.

(** The six values [frobenius_difference_sum] reports (the last three only
    in the jackknife build). *)
Record Frobenius : Type := mk_Frobenius
  { frob_C2 : Float; frob_C3 : Float; frob_C4 : Float;
    frob_C2j : Float; frob_C3j : Float; frob_C4j : Float }.

(** The kernels of [Integrals] the driver calls; their code is in
    [integrals.h]. [Scratch] stands for the buffers [bin_ij], [w_ij],
    [xi_ik], [w_ijk] (and [poly_ij], [factor_ij]) the kernels fill and read.
    [rel_frobenius new old] is the relative Frobenius norm of the change of
    one array. *)
Class IntegralsOps : Type :=
  { Scratch : Type;
    second : Integrals.t -> Scratch -> list Particle -> list Z -> Z ->
             Particle -> Z -> double -> option (double * double) ->
             Integrals.t * Scratch;
    third : Integrals.t -> Scratch -> list Particle -> list Z -> Z ->
            Particle -> Particle -> Z -> Z -> double -> Integrals.t * Scratch;
    fourth : Integrals.t -> Scratch -> list Particle -> list Z -> Z ->
             Particle -> Particle -> Particle -> Z -> Z -> Z -> double ->
             Integrals.t * Scratch;
    normalize : Integrals.t -> Float -> Float -> Float -> Float ->
                Float -> Float -> Float -> option Float -> Integrals.t;
    sum_total_counts : Integrals.t -> Z * Z * Z -> Z * Z * Z;
    rel_frobenius : list Float -> list Float -> Float }.

(** Modelled from the spec: [frobenius_difference_sum(local, n_loop, ...)]
    "folds local into this, then reports the relative Frobenius norm
    ||A_n - A_{n-1}|| / ||A_n|| for each of C2, C3, C4 (and their jackknife
    variants)"; the function is defined in [integrals.h]. *)
Definition frobenius_difference_sum {K : IntegralsOps}
    (this ints : Integrals.t) (n_loop : Z) : Integrals.t * Frobenius :=
  let this' := Integrals.sum_ints this ints in
  (this',
   mk_Frobenius
     (rel_frobenius (Integrals.c2 this') (Integrals.c2 this))
     (rel_frobenius (Integrals.c3 this') (Integrals.c3 this))
     (rel_frobenius (Integrals.c4 this') (Integrals.c4 this))
     (rel_frobenius (Integrals.c2j this') (Integrals.c2j this))
     (rel_frobenius (Integrals.c3j this') (Integrals.c3j this))
     (rel_frobenius (Integrals.c4j this') (Integrals.c4j this))).

(** The draws of [RandomDraws]: a cell displacement, the ratio of the
    proposal to the true distribution (written through the pointer
    argument), and the advanced generator. *)
Class RandomDrawsOps {RNG : GslRng} : Type :=
  { RandomDraws : Type;
    random_cubedraw : RandomDraws -> gsl_rng -> integer3 * double * gsl_rng;
    random_xidraw : RandomDraws -> gsl_rng -> integer3 * double * gsl_rng }.

(** ** The state of the driver *)

(** What the driver does, in program order (newest first in a trace): the
    three proposals, the three particle draws with the value returned and
    the reference arguments as the call left them, the three kernel calls
    with the ids and probabilities passed, and the two folds of the
    reduction. *)
Inductive Event : Type :=
| EvCubeDraw (ratio : double)
| EvXiDraw13 (ratio : double)
| EvXiDraw24 (ratio : double)
| EvDrawJ (id_3D : integer3) (x : Z) (out : DrawOut)
| EvDrawK (id_3D : integer3) (x : Z) (out : DrawOut3)
| EvDrawL (id_3D : integer3) (x : Z) (out : DrawOut3)
| EvSecond (prim_ids : list Z) (pln pid_j : Z) (p2 : double)
           (p21_p22 : option (double * double))
| EvThird (pid_j pid_k : Z) (p3 : double)
| EvFourth (pid_j pid_k pid_l : Z) (p4 : double)
| EvFrobenius (n_loops : Z) (frob : Frobenius)
| EvSumInts (n_loops : Z).

(** The attempted and used cell counters ([uint64]). *)
Record CellCounters : Type := mk_CellCounters
  { cell_attempt2 : Z; cell_attempt3 : Z; cell_attempt4 : Z;
    used_cell2 : Z; used_cell3 : Z; used_cell4 : Z }.

(** The sample counters ([uint64]): per loop and in total. *)
Record SampleCounters : Type := mk_SampleCounters
  { loc_used_pairs : Z; loc_used_triples : Z; loc_used_quads : Z;
    tot_pairs : Z; tot_triples : Z; tot_quads : Z }.

(** The probabilities [p2], [p3], [p4], [p21], [p22]. *)
Record Probabilities : Type := mk_Probabilities
  { p2 : double; p3 : double; p4 : double; p21 : double; p22 : double }.

Section State.
Context {RNG : GslRng} {K : IntegralsOps}.

(** The variables of one thread: the reduction variables (private copies
    starting at zero), the thread-local variables declared before the first
    loop, and the trace of what the thread did. *)
Record Thread : Type := mk_Thread
  { convergence_counter : Z;
    printtime : Z;
    cells : CellCounters;
    samples : SampleCounters;
    locint : Integrals.t;
    scratch : Scratch;
    locrng : gsl_rng;
    prim_list : list Particle;
    prim_ids : list Z;
    pln : Z;
    draw_j : DrawOut;     (* particle_j, pid_j, sln, sln1, sln2 *)
    draw_k : DrawOut3;    (* particle_k, pid_k, tln *)
    draw_l : DrawOut3;    (* particle_l, pid_l, fln *)
    probs : Probabilities;
    trace : list Event }.

(** What the threads share: the global accumulator and the counts
    [cnt2], [cnt3], [cnt4] of the class. *)
Record Shared : Type := mk_Shared
  { sumint : Integrals.t; cnt2 : Z; cnt3 : Z; cnt4 : Z }.

Definition pid_j (st : Thread) : Z := o_pid (draw_j st).
Definition pid_k (st : Thread) : Z := o3_pid (draw_k st).
Definition pid_l (st : Thread) : Z := o3_pid (draw_l st).
Definition particle_j (st : Thread) : Particle := o_particle (draw_j st).
Definition particle_k (st : Thread) : Particle := o3_particle (draw_k st).
Definition particle_l (st : Thread) : Particle := o3_particle (draw_l st).
Definition sln (st : Thread) : Z := o_n_particles (draw_j st).
Definition sln1 (st : Thread) : Z := o_n_particles1 (draw_j st).
Definition sln2 (st : Thread) : Z := o_n_particles2 (draw_j st).
Definition tln (st : Thread) : Z := o3_n_particles (draw_k st).
Definition fln (st : Thread) : Z := o3_n_particles (draw_l st).

(** Assignments to the variables. *)
Definition set_convergence_counter (v : Z) (st : Thread) : Thread :=
  mk_Thread v (printtime st) (cells st) (samples st) (locint st) (scratch st)
    (locrng st) (prim_list st) (prim_ids st) (pln st) (draw_j st) (draw_k st)
    (draw_l st) (probs st) (trace st).

Definition set_printtime (v : Z) (st : Thread) : Thread :=
  mk_Thread (convergence_counter st) v (cells st) (samples st) (locint st)
    (scratch st) (locrng st) (prim_list st) (prim_ids st) (pln st) (draw_j st)
    (draw_k st) (draw_l st) (probs st) (trace st).

Definition set_cells (v : CellCounters) (st : Thread) : Thread :=
  mk_Thread (convergence_counter st) (printtime st) v (samples st) (locint st)
    (scratch st) (locrng st) (prim_list st) (prim_ids st) (pln st) (draw_j st)
    (draw_k st) (draw_l st) (probs st) (trace st).

Definition set_samples (v : SampleCounters) (st : Thread) : Thread :=
  mk_Thread (convergence_counter st) (printtime st) (cells st) v (locint st)
    (scratch st) (locrng st) (prim_list st) (prim_ids st) (pln st) (draw_j st)
    (draw_k st) (draw_l st) (probs st) (trace st).

Definition set_locint (v : Integrals.t) (st : Thread) : Thread :=
  mk_Thread (convergence_counter st) (printtime st) (cells st) (samples st) v
    (scratch st) (locrng st) (prim_list st) (prim_ids st) (pln st) (draw_j st)
    (draw_k st) (draw_l st) (probs st) (trace st).

Definition set_kernel (v : Integrals.t * Scratch) (st : Thread) : Thread :=
  mk_Thread (convergence_counter st) (printtime st) (cells st) (samples st)
    (fst v) (snd v) (locrng st) (prim_list st) (prim_ids st) (pln st)
    (draw_j st) (draw_k st) (draw_l st) (probs st) (trace st).

Definition set_locrng (v : gsl_rng) (st : Thread) : Thread :=
  mk_Thread (convergence_counter st) (printtime st) (cells st) (samples st)
    (locint st) (scratch st) v (prim_list st) (prim_ids st) (pln st)
    (draw_j st) (draw_k st) (draw_l st) (probs st) (trace st).

Definition set_prim (v : Z * list Particle * list Z) (st : Thread) : Thread :=
  mk_Thread (convergence_counter st) (printtime st) (cells st) (samples st)
    (locint st) (scratch st) (locrng st) (snd (fst v)) (snd v) (fst (fst v))
    (draw_j st) (draw_k st) (draw_l st) (probs st) (trace st).

Definition set_draw_j (v : DrawOut) (st : Thread) : Thread :=
  mk_Thread (convergence_counter st) (printtime st) (cells st) (samples st)
    (locint st) (scratch st) (locrng st) (prim_list st) (prim_ids st) (pln st)
    v (draw_k st) (draw_l st) (probs st) (trace st).

Definition set_draw_k (v : DrawOut3) (st : Thread) : Thread :=
  mk_Thread (convergence_counter st) (printtime st) (cells st) (samples st)
    (locint st) (scratch st) (locrng st) (prim_list st) (prim_ids st) (pln st)
    (draw_j st) v (draw_l st) (probs st) (trace st).

Definition set_draw_l (v : DrawOut3) (st : Thread) : Thread :=
  mk_Thread (convergence_counter st) (printtime st) (cells st) (samples st)
    (locint st) (scratch st) (locrng st) (prim_list st) (prim_ids st) (pln st)
    (draw_j st) (draw_k st) v (probs st) (trace st).

Definition set_probs (v : Probabilities) (st : Thread) : Thread :=
  mk_Thread (convergence_counter st) (printtime st) (cells st) (samples st)
    (locint st) (scratch st) (locrng st) (prim_list st) (prim_ids st) (pln st)
    (draw_j st) (draw_k st) (draw_l st) v (trace st).

Definition log (e : Event) (st : Thread) : Thread :=
  mk_Thread (convergence_counter st) (printtime st) (cells st) (samples st)
    (locint st) (scratch st) (locrng st) (prim_list st) (prim_ids st) (pln st)
    (draw_j st) (draw_k st) (draw_l st) (probs st) (e :: trace st).

Definition set_p2 (v : double) (st : Thread) : Thread :=
  let q := probs st in
  set_probs (mk_Probabilities v (p3 q) (p4 q) (p21 q) (p22 q)) st.

Definition set_p3 (v : double) (st : Thread) : Thread :=
  let q := probs st in
  set_probs (mk_Probabilities (p2 q) v (p4 q) (p21 q) (p22 q)) st.

Definition set_p4 (v : double) (st : Thread) : Thread :=
  let q := probs st in
  set_probs (mk_Probabilities (p2 q) (p3 q) v (p21 q) (p22 q)) st.

Definition set_p21_p22 (v21 v22 : double) (st : Thread) : Thread :=
  let q := probs st in
  set_probs (mk_Probabilities (p2 q) (p3 q) (p4 q) v21 v22) st.

(** [cell_attempt2+=1] and the like: additions on [uint64]. *)
Definition incr_cell_attempt2 (st : Thread) : Thread :=
  let k := cells st in
  set_cells (mk_CellCounters (uint64 (cell_attempt2 k + 1)) (cell_attempt3 k)
               (cell_attempt4 k) (used_cell2 k) (used_cell3 k) (used_cell4 k))
            st.

Definition incr_cell_attempt3 (st : Thread) : Thread :=
  let k := cells st in
  set_cells (mk_CellCounters (cell_attempt2 k) (uint64 (cell_attempt3 k + 1))
               (cell_attempt4 k) (used_cell2 k) (used_cell3 k) (used_cell4 k))
            st.

Definition incr_cell_attempt4 (st : Thread) : Thread :=
  let k := cells st in
  set_cells (mk_CellCounters (cell_attempt2 k) (cell_attempt3 k)
               (uint64 (cell_attempt4 k + 1)) (used_cell2 k) (used_cell3 k)
               (used_cell4 k))
            st.

Definition incr_used_cell2 (st : Thread) : Thread :=
  let k := cells st in
  set_cells (mk_CellCounters (cell_attempt2 k) (cell_attempt3 k)
               (cell_attempt4 k) (uint64 (used_cell2 k + 1)) (used_cell3 k)
               (used_cell4 k))
            st.

Definition incr_used_cell3 (st : Thread) : Thread :=
  let k := cells st in
  set_cells (mk_CellCounters (cell_attempt2 k) (cell_attempt3 k)
               (cell_attempt4 k) (used_cell2 k) (uint64 (used_cell3 k + 1))
               (used_cell4 k))
            st.

Definition incr_used_cell4 (st : Thread) : Thread :=
  let k := cells st in
  set_cells (mk_CellCounters (cell_attempt2 k) (cell_attempt3 k)
               (cell_attempt4 k) (used_cell2 k) (used_cell3 k)
               (uint64 (used_cell4 k + 1)))
            st.

End State.

(** ** The constructor [compute_integral::compute_integral] *)

(** What the constructor selects before the loop: the parameters, the four
    grids and the two draw classes. *)
Record Ctx {RNG : GslRng} {RD : RandomDrawsOps} : Type := mk_Ctx
  { par : Parameters;
    grid1 : Grid.t; grid2 : Grid.t; grid3 : Grid.t; grid4 : Grid.t;
    rd13 : RandomDraws; rd24 : RandomDraws }.

Arguments mk_Ctx {RNG RD} par grid1 grid2 grid3 grid4 rd13 rd24.

(** A counting loop [for (int n=0; n<N; n++) body]. *)
Fixpoint for_loop {S : Type} (n : nat) (body : S -> S) (s : S) : S :=
  match n with
  | O => s
  | Datatypes.S n' => for_loop n' body (body s)
  end.

(** A loop over indices whose body may abort. *)
Fixpoint for_each {S : Type} (body : Z -> S -> option S) (ns : list Z) (s : S)
    : option S :=
  match ns with
  | [] => Some s
  | n :: ns' =>
      match body n s with
      | None => None
      | Some s' => for_each body ns' s'
      end
  end.

Section Driver.
Context {GO : GridOps} {RNG : GslRng} {RD : RandomDrawsOps} {K : IntegralsOps}.
Variable build : Build.
Variable ctx : Ctx.

(** The body of the loop over [n4]: draw the fourth cell from the [j] cell,
    then a particle [l] of it. *)
Definition l_iteration (sec_id : integer3) (cell_sep2 : Float3) (st : Thread)
    : Thread :=
  let st := incr_cell_attempt4 st in
  let '(delta4, ratio, rng) := random_xidraw (rd24 ctx) (locrng st) in
  let st := log (EvXiDraw24 ratio) (set_p4 ratio (set_locrng rng st)) in
  let id_3D := integer3_add sec_id delta4 in
  let shift :=
    integer3_of_Float3 (Float3_add cell_sep2 (cell_sep (grid4 ctx) delta4)) in
  let '(x, out, rng) :=
    draw_particle_without_class build id_3D (draw_l st) shift (grid4 ctx)
                                (locrng st) in
  let st := log (EvDrawL id_3D x out) (set_draw_l out (set_locrng rng st)) in
  if x =? 1 then st else
  if (pid_l st =? pid_j st) || (pid_l st =? pid_k st) then st else
  let st := incr_used_cell4 st in
  let st :=
    set_p4 (p4 (probs st) * (p3 (probs st) / double_of_int (fln st)))%float
           st in
  let st :=
    set_kernel
      (fourth (locint st) (scratch st) (prim_list st) (prim_ids st) (pln st)
              (particle_j st) (particle_k st) (particle_l st)
              (pid_j st) (pid_k st) (pid_l st) (p4 (probs st))) st in
  log (EvFourth (pid_j st) (pid_k st) (pid_l st) (p4 (probs st))) st.

(** The body of the loop over [n3]: draw the third cell from the [i] cell,
    then a particle [k] of it. *)
Definition k_iteration (prim_id sec_id : integer3) (cell_sep2 : Float3)
    (st : Thread) : Thread :=
  let st := incr_cell_attempt3 st in
  let '(delta3, ratio, rng) := random_xidraw (rd13 ctx) (locrng st) in
  let st := log (EvXiDraw13 ratio) (set_p3 ratio (set_locrng rng st)) in
  let thi_id := integer3_add prim_id delta3 in
  let cell_sep3 := cell_sep (grid3 ctx) delta3 in
  let '(x, out, rng) :=
    draw_particle_without_class build thi_id (draw_k st)
                                (integer3_of_Float3 cell_sep3) (grid3 ctx)
                                (locrng st) in
  let st := log (EvDrawK thi_id x out) (set_draw_k out (set_locrng rng st)) in
  if x =? 1 then st else
  if pid_j st =? pid_k st then st else
  let st := incr_used_cell3 st in
  let st :=
    set_p3 (p3 (probs st) * (p2 (probs st) / double_of_int (tln st)))%float
           st in
  let st :=
    set_kernel
      (third (locint st) (scratch st) (prim_list st) (prim_ids st) (pln st)
             (particle_j st) (particle_k st) (pid_j st) (pid_k st)
             (p3 (probs st))) st in
  let st := log (EvThird (pid_j st) (pid_k st) (p3 (probs st))) st in
  for_loop (Z.to_nat (N4 (par ctx))) (l_iteration sec_id cell_sep2) st.

(** The probabilities of the two random-particle partitions, computed in
    the builds without [LEGENDRE] and [POWER]. *)
Definition partition_probabilities (st : Thread) : Thread :=
  if negb (LEGENDRE build) && negb (POWER build) then
    set_p21_p22
      (p2 (probs st)
       / (double_of_int (Grid.np1 (grid1 ctx)) * double_of_int (sln1 st)))%float
      (p2 (probs st)
       / (double_of_int (Grid.np2 (grid1 ctx)) * double_of_int (sln2 st)))%float
      st
  else st.

Definition second_extra (st : Thread) : option (double * double) :=
  if negb (LEGENDRE build) && negb (POWER build)
  then Some (p21 (probs st), p22 (probs st)) else None.

(** The body of the loop over [n2]: draw the second cell from the [i] cell,
    then a particle [j] of it. *)
Definition j_iteration (prim_id : integer3) (st : Thread) : Thread :=
  let st := incr_cell_attempt2 st in
  let '(delta2, ratio, rng) := random_cubedraw (rd13 ctx) (locrng st) in
  let st := log (EvCubeDraw ratio) (set_p2 ratio (set_locrng rng st)) in
  let sec_id := integer3_add prim_id delta2 in
  let cell_sep2 := cell_sep (grid2 ctx) delta2 in
  let '(x, out, rng) :=
    draw_particle build sec_id (draw_j st) cell_sep2 (grid2 ctx) (locrng st) in
  let st := log (EvDrawJ sec_id x out) (set_draw_j out (set_locrng rng st)) in
  if x =? 1 then st else
  let st := incr_used_cell2 st in
  let st := partition_probabilities st in
  let st :=
    set_p2 (p2 (probs st)
            * (1 / (double_of_int (Grid.np (grid1 ctx))
                    * double_of_int (sln st))))%float st in
  let st :=
    set_kernel
      (second (locint st) (scratch st) (prim_list st) (prim_ids st) (pln st)
              (particle_j st) (pid_j st) (p2 (probs st)) (second_extra st)) st in
  let st :=
    log (EvSecond (prim_ids st) (pln st) (pid_j st) (p2 (probs st))
                  (second_extra st)) st in
  for_loop (Z.to_nat (N3 (par ctx))) (k_iteration prim_id sec_id cell_sep2) st.

(** [loc_used_pairs=0; loc_used_triples=0; loc_used_quads=0]. *)
Definition reset_loc_used (st : Thread) : Thread :=
  let s := samples st in
  set_samples (mk_SampleCounters 0 0 0 (tot_pairs s) (tot_triples s)
                                 (tot_quads s)) st.

(** [loc_used_pairs+=t2; loc_used_triples+=t3; loc_used_quads+=t4], the
    [int] values converted to [uint64]. *)
Definition add_loc_used (t2 t3 t4 : Z) (st : Thread) : Thread :=
  let s := samples st in
  set_samples (mk_SampleCounters (uint64 (loc_used_pairs s + t2))
                 (uint64 (loc_used_triples s + t3))
                 (uint64 (loc_used_quads s + t4))
                 (tot_pairs s) (tot_triples s) (tot_quads s)) st.

(** [tot_pairs+=loc_used_pairs] and the like. *)
Definition add_tot (st : Thread) : Thread :=
  let s := samples st in
  set_samples (mk_SampleCounters (loc_used_pairs s) (loc_used_triples s)
                 (loc_used_quads s)
                 (uint64 (tot_pairs s + loc_used_pairs s))
                 (uint64 (tot_triples s + loc_used_triples s))
                 (uint64 (tot_quads s + loc_used_quads s))) st.

(** The body of the loop over the filled cells [n1]. *)
Definition cell_iteration (n1 : Z) (st : Thread) : option Thread :=
  let prim_id_1D := filled_at (grid1 ctx) n1 in
  let prim_id := cell_id_from_1d (grid1 ctx) prim_id_1D in
  let st :=
    set_prim (particle_list prim_id_1D (prim_list st) (prim_ids st) (grid1 ctx))
             st in
  if pln st =? 0 then Some st else
  match int_mul (pln st) (N2 (par ctx)) with
  | None => None
  | Some t2 =>
      match int_mul t2 (N3 (par ctx)) with
      | None => None
      | Some t3 =>
          match int_mul t3 (N4 (par ctx)) with
          | None => None
          | Some t4 =>
              let st := add_loc_used t2 t3 t4 st in
              Some (for_loop (Z.to_nat (N2 (par ctx))) (j_iteration prim_id) st)
          end
      end
  end.

(** The test of the Frobenius differences: only the C4 values count, both
    of them in the jackknife build. *)
Definition converged (frob : Frobenius) : bool :=
  if JACKKNIFE build
  then Float_ltb (frob_C4 frob) (1 # 100) && Float_ltb (frob_C4j frob) (1 # 100)
  else Float_ltb (frob_C4 frob) (1 # 100).

(** The block every [nthread]-th loop runs inside the critical section. *)
Definition frobenius_block (n_loops : Z) (sh : Shared) (st : Thread)
    : Shared * Thread :=
  let (sumint', frob) :=
    frobenius_difference_sum (sumint sh) (locint st) n_loops in
  let sh := mk_Shared sumint' (cnt2 sh) (cnt3 sh) (cnt4 sh) in
  let st :=
    if converged frob
    then set_convergence_counter (convergence_counter st + 1) st
    else st in
  (sh, log (EvFrobenius n_loops frob) st).

(** The critical section that ends an outer loop. *)
Definition critical_section (n_loops : Z) (sh : Shared) (st : Thread)
    : option (Shared * Thread) :=
  match int_rem (n_loops + 1) (nthread (par ctx)) with
  | None => None
  | Some r =>
      let (sh, st) :=
        if r =? 0 then frobenius_block n_loops sh st else (sh, st) in
      (* Sum up integrals *)
      let sh :=
        mk_Shared (Integrals.sum_ints (sumint sh) (locint st))
                  (cnt2 sh) (cnt3 sh) (cnt4 sh) in
      let st := log (EvSumInts n_loops) st in
      let s := samples st in
      let st :=
        set_locint
          (normalize (locint st) (Grid.norm (grid1 ctx)) (Grid.norm (grid2 ctx))
             (Grid.norm (grid3 ctx)) (Grid.norm (grid4 ctx))
             (inject_Z (loc_used_pairs s)) (inject_Z (loc_used_triples s))
             (inject_Z (loc_used_quads s))
             (if POWER build then Some (power_norm (par ctx)) else None)) st in
      let '(n2, n3, n4) :=
        sum_total_counts (locint st) (cnt2 sh, cnt3 sh, cnt4 sh) in
      let sh := mk_Shared (sumint sh) n2 n3 n4 in
      let st := set_locint (Integrals.reset (locint st)) st in
      Some (sh, st)
  end.

(** The body of the first loop, over [n_loops]. *)
Definition outer_iteration (n_loops : Z) (sh : Shared) (st : Thread)
    : option (Shared * Thread) :=
  let st := reset_loc_used st in
  if convergence_counter st =? 10
  then Some (sh, set_printtime (printtime st + 1) st)
  else
    match for_each cell_iteration (index_range 0 (Grid.nf (grid1 ctx))) st with
    | None => None
    | Some st => critical_section n_loops sh (add_tot st)
    end.

(** The loops one thread runs, in order, the shared state handed on. *)
Fixpoint thread_loops (ns : list Z) (sh : Shared) (st : Thread)
    : option (Shared * Thread) :=
  match ns with
  | [] => Some (sh, st)
  | n :: ns' =>
      match outer_iteration n sh st with
      | None => None
      | Some (sh', st') => thread_loops ns' sh' st'
      end
  end.

(** Replace the state of thread [t]. *)
Fixpoint set_thread (t : nat) (st : Thread) (ths : list Thread) : list Thread :=
  match ths, t with
  | [], _ => []
  | _ :: ths', O => st :: ths'
  | a :: ths', Datatypes.S t' => a :: set_thread t' st ths'
  end.

(** A run of the parallel loop: the outer iterations in the order their
    critical sections are entered, each with the thread the dynamic
    schedule gave it to. *)
Fixpoint run_schedule (sched : list (nat * Z)) (sh : Shared)
    (ths : list Thread) : option (Shared * list Thread) :=
  match sched with
  | [] => Some (sh, ths)
  | (t, n) :: sched' =>
      match nth_error ths t with
      | None => None
      | Some st =>
          match outer_iteration n sh st with
          | None => None
          | Some (sh', st') => run_schedule sched' sh' (set_thread t st' ths)
          end
      end
  end.

(** *** The loop as compiled

    The body of the loop over the filled cells with the three products
    wrapping: [loc_used_pairs+=pln*par->N2] adds the [int] the 32-bit
    multiplication leaves, converted to [uint64]. *)
Definition cell_iteration_wrapping (n1 : Z) (st : Thread) : Thread :=
  let prim_id_1D := filled_at (grid1 ctx) n1 in
  let prim_id := cell_id_from_1d (grid1 ctx) prim_id_1D in
  let st :=
    set_prim (particle_list prim_id_1D (prim_list st) (prim_ids st) (grid1 ctx))
             st in
  if pln st =? 0 then st else
  let t2 := int_wrap (pln st * N2 (par ctx)) in
  let t3 := int_wrap (t2 * N3 (par ctx)) in
  let t4 := int_wrap (t3 * N4 (par ctx)) in
  let st := add_loc_used t2 t3 t4 st in
  for_loop (Z.to_nat (N2 (par ctx))) (j_iteration prim_id) st.

(** The body of the first loop with the wrapping products; a remainder by
    zero still stops it. *)
Definition outer_iteration_wrapping (n_loops : Z) (sh : Shared) (st : Thread)
    : option (Shared * Thread) :=
  let st := reset_loc_used st in
  if convergence_counter st =? 10
  then Some (sh, set_printtime (printtime st + 1) st)
  else
    let st :=
      fold_left (fun s n1 => cell_iteration_wrapping n1 s)
                (index_range 0 (Grid.nf (grid1 ctx))) st in
    critical_section n_loops sh (add_tot st).

(** A run of the parallel loop with the wrapping products. *)
Fixpoint run_schedule_wrapping (sched : list (nat * Z)) (sh : Shared)
    (ths : list Thread) : option (Shared * list Thread) :=
  match sched with
  | [] => Some (sh, ths)
  | (t, n) :: sched' =>
      match nth_error ths t with
      | None => None
      | Some st =>
          match outer_iteration_wrapping n sh st with
          | None => None
          | Some (sh', st') =>
              run_schedule_wrapping sched' sh' (set_thread t st' ths)
          end
      end
  end.

(** [steps*(thread+1)], the seed of the generator of thread [thread]
    ([steps] an [unsigned long], the product taken on [unsigned long]). *)
Definition thread_seed (steps thread : Z) : Z := uint64 (steps * (thread + 1)).

(** The state of thread [thread] when it enters the first loop: the
    reduction variables and the trace start empty, the generator is seeded
    with [steps*(thread+1)] (on [unsigned long]), the accumulator is a new
    [Integrals]; whatever else [junk] holds is what the uninitialised
    variables and buffers hold. *)
Definition init_thread (steps thread : Z) (locint0 : Integrals.t)
    (junk : Thread) : Thread :=
  mk_Thread 0 0 (mk_CellCounters 0 0 0 0 0 0) (mk_SampleCounters 0 0 0 0 0 0)
    locint0 (scratch junk) (gsl_rng_set (thread_seed steps thread))
    (prim_list junk) (prim_ids junk) (pln junk) (draw_j junk) (draw_k junk)
    (draw_l junk) (probs junk) [].

(** The [reduction(+: ...)] clause: the private copies of a counter are
    added up when the parallel region ends. *)
Definition omp_reduction (f : Thread -> Z) (ths : list Thread) : Z :=
  fold_left (fun acc st => uint64 (acc + f st)) ths 0.

End Driver.

(** ** The times the driver prints *)

(** [a/b] on two [int]s (truncated); [None] when [b] is zero or the
    quotient does not fit. *)
Definition int_div (a b : Z) : option Z :=
  if b =? 0 then None
  else if (a =? INT_MIN) && (b =? -1) then None
  else Some (Z.quot a b).

(** The estimate of the time left, computed when
    [(n_loops+1) % nthread == 0]:
    [current_runtime/((n_loops+1)/nthread)
     *(max_loops/nthread-(n_loops+1)/nthread)]. *)
Definition remaining_time (current_runtime n_loops max_loops nthread : Z)
    : option Z :=
  match int_div (n_loops + 1) nthread with
  | None => None
  | Some done =>
      match int_div current_runtime done with
      | None => None
      | Some per_run =>
          match int_div max_loops nthread with
          | None => None
          | Some runs => int_mul per_run (runs - done)
          end
      end
  end.

(** The hours, minutes and seconds printed for a time [t] in seconds:
    [t/3600], [t/60%60], [t%60]. *)
Definition hms (t : Z) : Z * Z * Z :=
  (Z.quot t 3600, Z.rem (Z.quot t 60) 60, Z.rem t 60).

(** ** A small world to run the driver in

    One grid of a single cell holding three particles, a generator that
    cycles through 0, 1/3, 2/3, draws that stay in the cell, and kernels
    that count their calls. *)

Module Toy.

Definition in_grid (g : Grid.t) (id : integer3) : bool :=
  (iy id =? 0) && (iz id =? 0) && (0 <=? ix id)
  && (ix id <? Z.of_nat (length (Grid.c g))).

#[export] Instance grid_ops : GridOps :=
  {| test_cell := fun g id => if in_grid g id then ix id else -1;
     cell_sep := fun _ d =>
       mk_Float3 (inject_Z (ix d)) (inject_Z (iy d)) (inject_Z (iz d));
     cell_id_from_1d := fun _ n => mk_integer3 n 0 0;
     integer3_of_Float3 := fun v =>
       mk_integer3 (Qfloor (fx v)) (Qfloor (fy v)) (Qfloor (fz v)) |}.

Definition uniform (r : nat) : Float * nat :=
  (Z.of_nat (r mod 3) # 3, Datatypes.S r).

#[export] Instance rng : GslRng :=
  {| gsl_rng := nat;
     gsl_rng_set := Z.to_nat;
     gsl_rng_uniform := uniform |}.

#[export] Instance draws : RandomDrawsOps :=
  {| RandomDraws := unit;
     random_cubedraw := fun _ r => (mk_integer3 0 0 0, 0.5%float, r);
     random_xidraw := fun _ r => (mk_integer3 0 0 0, 0.25%float, r) |}.

Definition count2 (a : Integrals.t) : Integrals.t :=
  Integrals.mk (Integrals.c2 a) (Integrals.c3 a) (Integrals.c4 a)
    (Integrals.c2j a) (Integrals.c3j a) (Integrals.c4j a)
    (Integrals.cnt2 a + 1) (Integrals.cnt3 a) (Integrals.cnt4 a).

Definition count3 (a : Integrals.t) : Integrals.t :=
  Integrals.mk (Integrals.c2 a) (Integrals.c3 a) (Integrals.c4 a)
    (Integrals.c2j a) (Integrals.c3j a) (Integrals.c4j a)
    (Integrals.cnt2 a) (Integrals.cnt3 a + 1) (Integrals.cnt4 a).

Definition count4 (a : Integrals.t) : Integrals.t :=
  Integrals.mk (Integrals.c2 a) (Integrals.c3 a) (Integrals.c4 a)
    (Integrals.c2j a) (Integrals.c3j a) (Integrals.c4j a)
    (Integrals.cnt2 a) (Integrals.cnt3 a) (Integrals.cnt4 a + 1).

#[export] Instance kernels : IntegralsOps :=
  {| Scratch := unit;
     second := fun a s _ _ _ _ _ _ _ => (count2 a, s);
     third := fun a s _ _ _ _ _ _ _ _ => (count3 a, s);
     fourth := fun a s _ _ _ _ _ _ _ _ _ _ => (count4 a, s);
     normalize := fun a _ _ _ _ _ _ _ _ => a;
     sum_total_counts := fun a n =>
       let '(n2, n3, n4) := n in
       (n2 + Integrals.cnt2 a, n3 + Integrals.cnt3 a, n4 + Integrals.cnt4 a);
     rel_frobenius := fun _ _ => 0%Q |}.


Definition particle (x : Z) : Particle :=
  mk_Particle (mk_Float3 (inject_Z x) 0%Q 0%Q) 1%Q 1.

Definition grid : Grid.t :=
  Grid.mk [Cell.mk 0 3 2 1] [particle 0; particle 1; particle 2] [0]
          1 3 2 1 3 (3 # 1).

Definition parameters : Parameters := mk_Parameters 1 1 1 1 1 1 1 false 1%Q.

Definition ctx : Ctx := mk_Ctx parameters grid grid grid grid tt tt.

(** The same with [nthread = 2]. *)
Definition ctx_two_threads : Ctx :=
  mk_Ctx (mk_Parameters 1 1 1 1 1 2 2 false 1%Q) grid grid grid grid tt tt.


Definition build : Build := mk_Build false false false false.

Definition integrals : Integrals.t :=
  Integrals.mk [0%Q] [0%Q] [0%Q] [] [] [] 0 0 0.

Definition junk : Thread :=
  mk_Thread 0 0 (mk_CellCounters 0 0 0 0 0 0) (mk_SampleCounters 0 0 0 0 0 0)
    integrals tt 0%nat [] [] 0
    (mk_DrawOut Particle_zero 0 0 0 0) (mk_DrawOut3 Particle_zero 0 0)
    (mk_DrawOut3 Particle_zero 0 0) (mk_Probabilities 0 0 0 0 0)%float [].

Definition thread : Thread := init_thread 3 0 integrals junk.

Definition shared : Shared := mk_Shared integrals 0 0 0.

(** The first outer loop of thread 0, and the state it leaves. *)
Definition first_loop : option (Shared * Thread) :=
  outer_iteration build ctx 0 shared thread.

Definition after_first_loop : Shared * Thread :=
  match first_loop with Some r => r | None => (shared, thread) end.

(** Two outer loops on one thread. *)
Definition schedule : list (nat * Z) := [(0%nat, 0); (0%nat, 1)].

Definition run : option (Shared * list Thread) :=
  run_schedule build ctx schedule shared [thread].

Definition after_run : Shared * list Thread :=
  match run with Some r => r | None => (shared, [thread]) end.

(** A thread whose counter stands at 10, and its run. *)
Definition converged_thread : Thread := set_convergence_counter 10 thread.

Definition idle_run : option (Shared * list Thread) :=
  run_schedule build ctx schedule shared [converged_thread].

Definition after_idle_run : Shared * list Thread :=
  match idle_run with Some r => r | None => (shared, [converged_thread]) end.

End Toy.


(** * The vocabulary of the properties *)

Section Vocabulary.
Context {GO : GridOps} {RNG : GslRng} {RD : RandomDrawsOps} {K : IntegralsOps}.
Variable build : Build.
Variable ctx : Ctx.

(** ** Draws *)

(** The two outcomes of [draw_particle]. *)
Inductive draw_particle_spec (id_3D : integer3) (out : DrawOut)
    (shift : Float3) (grid : Grid.t) (locrng : gsl_rng)
    : Z * DrawOut * gsl_rng -> Prop :=
| draw_particle_error :
    test_cell grid id_3D < 0
    \/ Cell.np (cell_at grid (test_cell grid id_3D)) = 0 ->
    draw_particle_spec id_3D out shift grid locrng (1, out, locrng)
| draw_particle_drawn :
    forall u locrng' pid,
    0 <= test_cell grid id_3D ->
    Cell.np (cell_at grid (test_cell grid id_3D)) <> 0 ->
    gsl_rng_uniform locrng = (u, locrng') ->
    pid = random_id u (cell_at grid (test_cell grid id_3D)) ->
    draw_particle_spec id_3D out shift grid locrng
      (0,
       mk_DrawOut
         (if PERIODIC build then shift_particle (particle_at grid pid) shift
          else particle_at grid pid)
         pid
         (Cell.np (cell_at grid (test_cell grid id_3D)))
         (Cell.np1 (cell_at grid (test_cell grid id_3D)))
         (Cell.np2 (cell_at grid (test_cell grid id_3D))),
       locrng').

(** The two outcomes of [draw_particle_without_class]. *)
Inductive draw_without_class_spec (id_3D : integer3) (out : DrawOut3)
    (shift : integer3) (grid : Grid.t) (locrng : gsl_rng)
    : Z * DrawOut3 * gsl_rng -> Prop :=
| draw_without_class_error :
    test_cell grid id_3D < 0
    \/ Cell.np (cell_at grid (test_cell grid id_3D)) = 0 ->
    draw_without_class_spec id_3D out shift grid locrng (1, out, locrng)
| draw_without_class_drawn :
    forall u locrng' pid,
    0 <= test_cell grid id_3D ->
    Cell.np (cell_at grid (test_cell grid id_3D)) <> 0 ->
    gsl_rng_uniform locrng = (u, locrng') ->
    pid = random_id u (cell_at grid (test_cell grid id_3D)) ->
    draw_without_class_spec id_3D out shift grid locrng
      (0,
       mk_DrawOut3
         (if PERIODIC build
          then shift_particle_integer3 (particle_at grid pid) shift
          else particle_at grid pid)
         pid
         (Cell.np (cell_at grid (test_cell grid id_3D))),
       locrng').

(** ** Iterations of the sampling loops *)

(** What the loop over [n2] leaves alone. *)
Definition frame_j (st : Thread) :=
  (convergence_counter st, printtime st, samples st,
   prim_list st, prim_ids st, pln st).

(** What the loop over [n3] leaves alone. *)
Definition frame_k (st : Thread) :=
  (frame_j st, draw_j st, p2 (probs st), p21 (probs st), p22 (probs st),
   cell_attempt2 (cells st), used_cell2 (cells st)).

(** What the loop over [n4] leaves alone. *)
Definition frame_l (st : Thread) :=
  (frame_k st, draw_k st, p3 (probs st),
   cell_attempt3 (cells st), used_cell3 (cells st)).

(** The occupancy of the cell at coordinate [id_3D] of [grid]. *)
Definition occupancy (grid : Grid.t) (id_3D : integer3) : Cell.t :=
  cell_at grid (test_cell grid id_3D).

(** An iteration over [n4] either skips the draw (error or collision) or
    calls [fourth]. *)
Inductive l_step (sec_id : integer3) (st : Thread) : Thread -> Prop :=
| l_step_skip : forall st' delta ratio x out,
    frame_l st' = frame_l st ->
    x = 1 \/ o3_pid out = pid_j st \/ o3_pid out = pid_k st ->
    trace st'
    = EvDrawL (integer3_add sec_id delta) x out :: EvXiDraw24 ratio :: trace st ->
    cell_attempt4 (cells st') = uint64 (cell_attempt4 (cells st) + 1) ->
    used_cell4 (cells st') = used_cell4 (cells st) ->
    l_step sec_id st st'
| l_step_call : forall st' delta ratio out,
    frame_l st' = frame_l st ->
    o3_pid out <> pid_j st ->
    o3_pid out <> pid_k st ->
    o3_n_particles out
    = Cell.np (occupancy (grid4 ctx) (integer3_add sec_id delta)) ->
    trace st'
    = EvFourth (pid_j st) (pid_k st) (o3_pid out)
               (ratio * (p3 (probs st) / double_of_int (o3_n_particles out)))%float
      :: EvDrawL (integer3_add sec_id delta) 0 out
      :: EvXiDraw24 ratio :: trace st ->
    cell_attempt4 (cells st') = uint64 (cell_attempt4 (cells st) + 1) ->
    used_cell4 (cells st') = uint64 (used_cell4 (cells st) + 1) ->
    l_step sec_id st st'.

(** An iteration over [n3] either skips the draw or calls [third] and runs
    the loop over [n4] from the state [st3] the call left. *)
Inductive k_step (prim_id sec_id : integer3) (cell_sep2 : Float3) (st : Thread)
    : Thread -> Prop :=
| k_step_skip : forall st' delta ratio x out,
    frame_k st' = frame_k st ->
    x = 1 \/ pid_j st = o3_pid out ->
    trace st'
    = EvDrawK (integer3_add prim_id delta) x out :: EvXiDraw13 ratio :: trace st ->
    cell_attempt3 (cells st') = uint64 (cell_attempt3 (cells st) + 1) ->
    used_cell3 (cells st') = used_cell3 (cells st) ->
    cell_attempt4 (cells st') = cell_attempt4 (cells st) ->
    used_cell4 (cells st') = used_cell4 (cells st) ->
    k_step prim_id sec_id cell_sep2 st st'
| k_step_call : forall st3 delta ratio out,
    frame_k st3 = frame_k st ->
    draw_k st3 = out ->
    pid_j st <> o3_pid out ->
    o3_n_particles out
    = Cell.np (occupancy (grid3 ctx) (integer3_add prim_id delta)) ->
    p3 (probs st3)
    = (ratio * (p2 (probs st) / double_of_int (o3_n_particles out)))%float ->
    trace st3
    = EvThird (pid_j st) (o3_pid out) (p3 (probs st3))
      :: EvDrawK (integer3_add prim_id delta) 0 out
      :: EvXiDraw13 ratio :: trace st ->
    cell_attempt3 (cells st3) = uint64 (cell_attempt3 (cells st) + 1) ->
    used_cell3 (cells st3) = uint64 (used_cell3 (cells st) + 1) ->
    cell_attempt4 (cells st3) = cell_attempt4 (cells st) ->
    used_cell4 (cells st3) = used_cell4 (cells st) ->
    k_step prim_id sec_id cell_sep2 st
      (for_loop (Z.to_nat (N4 (par ctx))) (l_iteration build ctx sec_id cell_sep2)
                st3).

(** The partition probabilities handed to [second]. *)
Definition partition_of (ratio : double) (out : DrawOut)
    : option (double * double) :=
  if negb (LEGENDRE build) && negb (POWER build)
  then Some ((ratio / (double_of_int (Grid.np1 (grid1 ctx))
                       * double_of_int (o_n_particles1 out)))%float,
             (ratio / (double_of_int (Grid.np2 (grid1 ctx))
                       * double_of_int (o_n_particles2 out)))%float)
  else None.

(** An iteration over [n2] either skips the draw or calls [second] and runs
    the loop over [n3] from the state [st2] the call left. *)
Inductive j_step (prim_id : integer3) (st : Thread) : Thread -> Prop :=
| j_step_skip : forall st' delta ratio out,
    frame_j st' = frame_j st ->
    trace st'
    = EvDrawJ (integer3_add prim_id delta) 1 out :: EvCubeDraw ratio :: trace st ->
    cells st'
    = mk_CellCounters (uint64 (cell_attempt2 (cells st) + 1))
        (cell_attempt3 (cells st)) (cell_attempt4 (cells st))
        (used_cell2 (cells st)) (used_cell3 (cells st)) (used_cell4 (cells st)) ->
    j_step prim_id st st'
| j_step_call : forall st2 delta ratio out,
    frame_j st2 = frame_j st ->
    draw_j st2 = out ->
    o_n_particles out
    = Cell.np (occupancy (grid2 ctx) (integer3_add prim_id delta)) ->
    o_n_particles1 out
    = Cell.np1 (occupancy (grid2 ctx) (integer3_add prim_id delta)) ->
    o_n_particles2 out
    = Cell.np2 (occupancy (grid2 ctx) (integer3_add prim_id delta)) ->
    p2 (probs st2)
    = (ratio * (1 / (double_of_int (Grid.np (grid1 ctx))
                     * double_of_int (o_n_particles out))))%float ->
    trace st2
    = EvSecond (prim_ids st) (pln st) (o_pid out) (p2 (probs st2))
               (partition_of ratio out)
      :: EvDrawJ (integer3_add prim_id delta) 0 out
      :: EvCubeDraw ratio :: trace st ->
    cells st2
    = mk_CellCounters (uint64 (cell_attempt2 (cells st) + 1))
        (cell_attempt3 (cells st)) (cell_attempt4 (cells st))
        (uint64 (used_cell2 (cells st) + 1)) (used_cell3 (cells st))
        (used_cell4 (cells st)) ->
    j_step prim_id st
      (for_loop (Z.to_nat (N3 (par ctx)))
                (k_iteration build ctx prim_id (integer3_add prim_id delta)
                             (cell_sep (grid2 ctx) delta))
                st2).

(** ** Kernel calls *)

(** What a kernel call must satisfy: [third] gets two distinct ids,
    [fourth] three pairwise distinct ids. *)
Definition ids_distinct (e : Event) : Prop :=
  match e with
  | EvThird pid_j pid_k _ => pid_j <> pid_k
  | EvFourth pid_j pid_k pid_l _ =>
      pid_j <> pid_k /\ pid_l <> pid_j /\ pid_l <> pid_k
  | _ => True
  end.











(** ** Counters *)

Definition is_draw_j (e : Event) : bool :=
  match e with EvDrawJ _ _ _ => true | _ => false end.
Definition is_draw_k (e : Event) : bool :=
  match e with EvDrawK _ _ _ => true | _ => false end.
Definition is_draw_l (e : Event) : bool :=
  match e with EvDrawL _ _ _ => true | _ => false end.
Definition is_second (e : Event) : bool :=
  match e with EvSecond _ _ _ _ _ => true | _ => false end.
Definition is_third (e : Event) : bool :=
  match e with EvThird _ _ _ => true | _ => false end.
Definition is_fourth (e : Event) : bool :=
  match e with EvFourth _ _ _ _ => true | _ => false end.

(** How many events of a kind a trace holds. *)
Fixpoint count (f : Event -> bool) (tr : list Event) : Z :=
  match tr with
  | [] => 0
  | e :: tl => (if f e then 1 else 0) + count f tl
  end.

(** Each attempt counter is the number of draws attempted, each used
    counter the number of kernel calls (the accepted draws), both modulo
    [2^64]; no more draws are accepted than attempted. *)
Definition counters_ok (c : CellCounters) (tr : list Event) : Prop :=
  (cell_attempt2 c = uint64 (count is_draw_j tr)
   /\ used_cell2 c = uint64 (count is_second tr)
   /\ 0 <= count is_second tr <= count is_draw_j tr)
  /\ (cell_attempt3 c = uint64 (count is_draw_k tr)
      /\ used_cell3 c = uint64 (count is_third tr)
      /\ 0 <= count is_third tr <= count is_draw_k tr)
  /\ (cell_attempt4 c = uint64 (count is_draw_l tr)
      /\ used_cell4 c = uint64 (count is_fourth tr)
      /\ 0 <= count is_fourth tr <= count is_draw_l tr).

(** The points of a run: the states a thread is in before and after an
    iteration of any of its loops, from a start with the counters at zero
    and nothing done (iterations in any order, which covers every run). *)
Inductive reachable : Thread -> Prop :=
| reachable_start : forall st,
    cells st = mk_CellCounters 0 0 0 0 0 0 -> trace st = [] -> reachable st
| reachable_l : forall sec_id cell_sep2 st,
    reachable st -> reachable (l_iteration build ctx sec_id cell_sep2 st)
| reachable_k : forall prim_id sec_id cell_sep2 st,
    reachable st ->
    reachable (k_iteration build ctx prim_id sec_id cell_sep2 st)
| reachable_j : forall prim_id st,
    reachable st -> reachable (j_iteration build ctx prim_id st)
| reachable_cell : forall n1 st st',
    reachable st -> cell_iteration build ctx n1 st = Some st' -> reachable st'
| reachable_outer : forall n sh st sh' st',
    reachable st -> outer_iteration build ctx n sh st = Some (sh', st') ->
    reachable st'.

(** The sum of a quantity over the threads (as a number, not wrapped). *)
Definition total (g : Thread -> Z) (ths : list Thread) : Z :=
  fold_right (fun st acc => g st + acc) 0 ths.

(** The relation between three counters of pairs, triples and quads. *)
Definition in_ratio (N3 N4 pairs triples quads : Z) : Prop :=
  triples = uint64 (pairs * N3) /\ quads = uint64 (pairs * N3 * N4).

Definition loc_in_ratio (st : Thread) : Prop :=
  in_ratio (N3 (par ctx)) (N4 (par ctx)) (loc_used_pairs (samples st))
           (loc_used_triples (samples st)) (loc_used_quads (samples st)).

Definition tot_in_ratio (st : Thread) : Prop :=
  in_ratio (N3 (par ctx)) (N4 (par ctx)) (tot_pairs (samples st))
           (tot_triples (samples st)) (tot_quads (samples st)).


(** ** The reduction *)

Definition is_reduction (e : Event) : bool :=
  match e with EvFrobenius _ _ | EvSumInts _ => true | _ => false end.

(** [new] is [old] with events of sampling put in front. *)
Definition sampling_only (old new : list Event) : Prop :=
  exists evs, new = evs ++ old /\ Forall (fun e => is_reduction e = false) evs.

(** The two ways an outer loop ends: skipped because the counter stands at
    10, or sampled and reduced; in the latter the Frobenius differences are
    computed exactly when [(n_loops+1) % nthread == 0], and the counter
    goes up by one exactly when they are and [converged] holds of them. *)
Inductive outer_step (n_loops : Z) (sh : Shared) (st : Thread)
    : Shared -> Thread -> Prop :=
| outer_skipped :
    convergence_counter st = 10 ->
    outer_step n_loops sh st sh
               (set_printtime (printtime st + 1) (reset_loc_used st))
| outer_reduced : forall sh' st' st1 r,
    convergence_counter st <> 10 ->
    sampling_only (trace st) (trace st1) ->
    Z.rem (n_loops + 1) (nthread (par ctx)) = r ->
    nthread (par ctx) <> 0 ->
    (if r =? 0
     then let frob :=
            snd (frobenius_difference_sum (sumint sh) (locint st1) n_loops) in
          trace st' = EvSumInts n_loops :: EvFrobenius n_loops frob :: trace st1
          /\ convergence_counter st'
             = (if converged build frob then convergence_counter st + 1
                else convergence_counter st)
     else trace st' = EvSumInts n_loops :: trace st1
          /\ convergence_counter st' = convergence_counter st) ->
    outer_step n_loops sh st sh' st'.

(** Every C4 difference is below 0.01: [frob_C4] alone, and [frob_C4j] too
    in the jackknife build. *)
Definition C4_below (build : Build) (frob : Frobenius) : Prop :=
  (frob_C4 frob < 1 # 100)%Q
  /\ (JACKKNIFE build = true -> (frob_C4j frob < 1 # 100)%Q).

(** What a thread has done and holds: its trace, cell counters,
    accumulator, generator, totals and convergence counter. *)
Definition work {RNG : GslRng} {K : IntegralsOps} (st : Thread) :=
  (trace st, cells st, locint st, locrng st,
   (tot_pairs (samples st), tot_triples (samples st), tot_quads (samples st)),
   convergence_counter st).

(** The entry of row [b_a], column [b_b]. *)
Definition entry (nbins b_a b_b : Z) : Z := b_a * nbins + b_b.

End Vocabulary.

(** * More vocabulary: the runs of the loops *)

Section Runs.
Context {GO : GridOps} {RNG : GslRng} {RD : RandomDrawsOps} {K : IntegralsOps}.
Variable ctx : Ctx.

(** How often the body of [for (int n=0; n<N; n++)] runs. *)
Definition turns (N : Z) : Z := Z.max 0 N.

(** Every accepted [j] cell had its [N3] attempts at a [k] cell, every
    accepted [k] cell its [N4] attempts at an [l] cell. *)
Definition attempts_nested (tr : list Event) : Prop :=
  count is_draw_k tr = count is_second tr * turns (N3 (par ctx))
  /\ count is_draw_l tr = count is_third tr * turns (N4 (par ctx)).

(** [ids] and [pln] are what [particle_list] leaves for a filled cell of
    the first grid that holds particles. *)
Definition primary_cell_of (ids : list Z) (pln : Z) : Prop :=
  exists n1,
    0 <= n1 < Grid.nf (grid1 ctx)
    /\ 0 < pln
    /\ pln = Cell.np (cell_at (grid1 ctx) (filled_at (grid1 ctx) n1))
    /\ firstn (Z.to_nat pln) ids
       = index_range
           (Cell.start (cell_at (grid1 ctx) (filled_at (grid1 ctx) n1))) pln.

Definition second_on_cell (e : Event) : Prop :=
  match e with
  | EvSecond ids pln _ _ _ => primary_cell_of ids pln
  | _ => True
  end.

(** The [pid_j] of the latest call of [second], the [pid_j] and [pid_k] of
    the latest call of [third]. *)
Fixpoint last_j (tr : list Event) : option Z :=
  match tr with
  | [] => None
  | EvSecond _ _ pid _ _ :: _ => Some pid
  | _ :: tl => last_j tl
  end.

Fixpoint last_jk (tr : list Event) : option (Z * Z) :=
  match tr with
  | [] => None
  | EvThird pid pid' _ :: _ => Some (pid, pid')
  | _ :: tl => last_jk tl
  end.

(** [third] works on the [j] of the latest [second], [fourth] on the [j]
    and [k] of the latest [third]. *)
Definition tuple_ok (e : Event) (tl : list Event) : Prop :=
  match e with
  | EvThird pid pid' _ => last_j tl = Some pid
  | EvFourth pid pid' _ _ => last_jk tl = Some (pid, pid')
  | _ => True
  end.

Fixpoint tuples_ok (tr : list Event) : Prop :=
  match tr with
  | [] => True
  | e :: tl => tuple_ok e tl /\ tuples_ok tl
  end.

(** What the loops over [n4] and [n3] keep while they run. *)
Definition inv_tuple_l (st : Thread) : Prop :=
  tuples_ok (trace st)
  /\ last_j (trace st) = Some (pid_j st)
  /\ last_jk (trace st) = Some (pid_j st, pid_k st).

Definition inv_tuple_k (st : Thread) : Prop :=
  tuples_ok (trace st) /\ last_j (trace st) = Some (pid_j st).

(** The particles [particle_list] hands out over the filled cells
    [ns] of a grid. *)
Definition particles_of (grid : Grid.t) (ns : list Z) : Z :=
  fold_right
    (fun n1 acc => Z.max 0 (Cell.np (cell_at grid (filled_at grid n1))) + acc)
    0 ns.

(** How many of the filled cells [ns] of a grid hold particles. *)
Definition cells_with_particles (grid : Grid.t) (ns : list Z) : Z :=
  fold_right
    (fun n1 acc =>
       (if 0 <? Cell.np (cell_at grid (filled_at grid n1)) then 1 else 0) + acc)
    0 ns.

(** The three products of a cell of [pln] particles as the compiled code
    computes them. *)
Definition wrapped_pairs (pln : Z) : Z := int_wrap (pln * N2 (par ctx)).

Definition wrapped_triples (pln : Z) : Z :=
  int_wrap (wrapped_pairs pln * N3 (par ctx)).

Definition wrapped_quads (pln : Z) : Z :=
  int_wrap (wrapped_triples pln * N4 (par ctx)).

(** The sum of [f pln] over the filled cells [ns] of a grid, [pln] the
    number of particles [particle_list] hands out for the cell. *)
Definition sum_over_cells (f : Z -> Z) (grid : Grid.t) (ns : list Z) : Z :=
  fold_right
    (fun n1 acc => f (Z.max 0 (Cell.np (cell_at grid (filled_at grid n1)))) + acc)
    0 ns.

(** No cell visited makes one of the [int] products overflow. *)
Definition products_fit (grid : Grid.t) (ns : list Z) : Prop :=
  Forall
    (fun n1 =>
       let pln := Z.max 0 (Cell.np (cell_at grid (filled_at grid n1))) in
       int_fits (pln * N2 (par ctx)) = true
       /\ int_fits (pln * N2 (par ctx) * N3 (par ctx)) = true
       /\ int_fits (pln * N2 (par ctx) * N3 (par ctx) * N4 (par ctx)) = true)
    ns.

End Runs.

(** A small world with an empty filled cell before the one of [Toy]. *)
Module Sparse.

Definition grid : Grid.t :=
  Grid.mk [Cell.mk 0 0 0 0; Cell.mk 0 3 2 1]
          [Toy.particle 0; Toy.particle 1; Toy.particle 2] [0; 1]
          2 3 2 1 3 (3 # 1).

Definition ctx : @Ctx Toy.rng Toy.draws :=
  @mk_Ctx Toy.rng Toy.draws Toy.parameters grid grid grid grid tt tt.

End Sparse.

(** The small world with [N4 = 2^30]: the product [pln*N2*N3*N4] of its
    cell of three particles does not fit an [int]. *)
Module Wide.

Definition parameters : Parameters :=
  mk_Parameters 1 1 1 1 (2 ^ 30) 1 1 false 1%Q.

Definition ctx : @Ctx Toy.rng Toy.draws :=
  @mk_Ctx Toy.rng Toy.draws parameters Toy.grid Toy.grid Toy.grid Toy.grid
          tt tt.

End Wide.

(** The small world with a cube draw of ratio 7/8. *)
Module Rounding.

Definition draws : @RandomDrawsOps Toy.rng :=
  {| RandomDraws := unit;
     random_cubedraw := fun _ r => (mk_integer3 0 0 0, 0.875%float, r);
     random_xidraw := fun _ r => (mk_integer3 0 0 0, 0.25%float, r) |}.

Definition ctx : @Ctx Toy.rng draws :=
  @mk_Ctx Toy.rng draws Toy.parameters Toy.grid Toy.grid Toy.grid Toy.grid
          tt tt.

(** The first outer loop of thread 0, and the state it leaves. *)
Definition first_loop : option (Shared * Thread) :=
  @outer_iteration Toy.grid_ops Toy.rng draws Toy.kernels Toy.build ctx 0
                   Toy.shared Toy.thread.

Definition after_first_loop : Shared * Thread :=
  match first_loop with Some r => r | None => (Toy.shared, Toy.thread) end.

End Rounding.

(** * Lemmas *)

(** ** Drawing a particle *)

Section DrawProperties.
Context {GO : GridOps} {RNG : GslRng}.
Variable build : Build.


Lemma draw_particle_cases id_3D out shift grid locrng :
  draw_particle_spec build id_3D out shift grid locrng
    (draw_particle build id_3D out shift grid locrng).
Proof.
  unfold draw_particle.
  destruct (test_cell grid id_3D <? 0) eqn:Hid.
  - apply draw_particle_error. left. lia.
  - destruct (Cell.np (cell_at grid (test_cell grid id_3D)) =? 0) eqn:Hnp.
    + apply draw_particle_error. right. lia.
    + destruct (gsl_rng_uniform locrng) as [u r] eqn:Hu.
      eapply draw_particle_drawn; [lia|lia|exact Hu|reflexivity].
Qed.

Lemma draw_without_class_cases id_3D out shift grid locrng :
  draw_without_class_spec build id_3D out shift grid locrng
    (draw_particle_without_class build id_3D out shift grid locrng).
Proof.
  unfold draw_particle_without_class.
  destruct (test_cell grid id_3D <? 0) eqn:Hid.
  - apply draw_without_class_error. left. lia.
  - destruct (Cell.np (cell_at grid (test_cell grid id_3D)) =? 0) eqn:Hnp.
    + apply draw_without_class_error. right. lia.
    + destruct (gsl_rng_uniform locrng) as [u r] eqn:Hu.
      eapply draw_without_class_drawn; [lia|lia|exact Hu|reflexivity].
Qed.


End DrawProperties.

(** ** The primary list *)

Lemma index_range_length s n : Z.of_nat (length (index_range s n)) = Z.max 0 n.
Proof. unfold index_range. rewrite length_map, length_seq. lia. Qed.

Lemma particle_list_pln id_1D part_list id_list grid :
  fst (fst (particle_list id_1D part_list id_list grid))
  = Z.max 0 (Cell.np (cell_at grid id_1D)).
Proof. unfold particle_list. cbn [fst]. apply index_range_length. Qed.

(** ** Loops *)

Lemma for_loop_invariant {S : Type} (P : S -> Prop) (body : S -> S) :
  (forall s, P s -> P (body s)) ->
  forall n s, P s -> P (for_loop n body s).
Proof.
  intros Hbody n. induction n as [|n IH]; intros s Hs; cbn [for_loop].
  - exact Hs.
  - apply IH, Hbody, Hs.
Qed.

Lemma for_each_invariant {S : Type} (P : S -> Prop)
    (body : Z -> S -> option S) :
  (forall n s s', P s -> body n s = Some s' -> P s') ->
  forall ns s s', P s -> for_each body ns s = Some s' -> P s'.
Proof.
  intros Hbody ns. induction ns as [|n ns IH]; intros s s' Hs Hrun;
    cbn [for_each] in Hrun.
  - injection Hrun as <-. exact Hs.
  - destruct (body n s) as [s1|] eqn:Hstep; [|discriminate].
    eapply IH; [|exact Hrun]. eapply Hbody; eassumption.
Qed.

(** Reduce the projections of a state built by the assignments. *)
Ltac state_norm :=
  lazy beta iota zeta delta
    [convergence_counter printtime cells samples locint scratch locrng
     prim_list prim_ids pln draw_j draw_k draw_l probs trace
     set_convergence_counter set_printtime set_cells set_samples set_locint
     set_kernel set_locrng set_prim set_draw_j set_draw_k set_draw_l
     set_probs log set_p2 set_p3 set_p4 set_p21_p22
     incr_cell_attempt2 incr_cell_attempt3 incr_cell_attempt4
     incr_used_cell2 incr_used_cell3 incr_used_cell4
     pid_j pid_k pid_l particle_j particle_k particle_l sln sln1 sln2 tln fln
     p2 p3 p4 p21 p22
     cell_attempt2 cell_attempt3 cell_attempt4 used_cell2 used_cell3 used_cell4
     o_particle o_pid o_n_particles o_n_particles1 o_n_particles2
     o3_particle o3_pid o3_n_particles fst snd].

(** ** One iteration of each sampling loop *)

Section Steps.
Context {GO : GridOps} {RNG : GslRng} {RD : RandomDrawsOps} {K : IntegralsOps}.
Variable build : Build.
Variable ctx : Ctx.

Lemma l_iteration_step sec_id cell_sep2 st :
  l_step ctx sec_id st (l_iteration build ctx sec_id cell_sep2 st).
Proof.
  unfold l_iteration.
  destruct (random_xidraw (rd24 ctx) (locrng (incr_cell_attempt4 st)))
    as [[delta ratio] rng].
  match goal with
  | |- context [draw_particle_without_class ?b ?i ?o ?s ?g ?r] =>
      destruct (draw_without_class_cases b i o s g r)
        as [Herr|u rng' pid H0 Hnp Hu Hpid]
  end.
  - cbn [Z.eqb Pos.eqb]. eapply l_step_skip.
    3: state_norm; reflexivity.
    all: unfold frame_l, frame_k, frame_j; state_norm; try reflexivity.
    left; reflexivity.
  - cbn [Z.eqb].
    match goal with
    | |- context [if (pid_l ?a =? pid_j ?b) || (pid_l ?c =? pid_k ?d)
                  then _ else _] =>
        destruct ((pid_l a =? pid_j b) || (pid_l c =? pid_k d)) eqn:Hcol
    end.
    + eapply l_step_skip.
      3: state_norm; reflexivity.
      all: unfold frame_l, frame_k, frame_j; state_norm; try reflexivity.
      revert Hcol. state_norm. lia.
    + match goal with
      | |- context [EvDrawL _ 0 ?o] => eapply l_step_call with (out := o)
      end.
      5: state_norm; reflexivity.
      all: unfold frame_l, frame_k, frame_j, occupancy; state_norm;
        try reflexivity.
      all: revert Hcol; state_norm; lia.
Qed.

Lemma k_iteration_step prim_id sec_id cell_sep2 st :
  k_step build ctx prim_id sec_id cell_sep2 st
    (k_iteration build ctx prim_id sec_id cell_sep2 st).
Proof.
  unfold k_iteration.
  destruct (random_xidraw (rd13 ctx) (locrng (incr_cell_attempt3 st)))
    as [[delta ratio] rng].
  match goal with
  | |- context [draw_particle_without_class ?b ?i ?o ?s ?g ?r] =>
      destruct (draw_without_class_cases b i o s g r)
        as [Herr|u rng' pid H0 Hnp Hu Hpid]
  end.
  - cbn [Z.eqb Pos.eqb]. eapply k_step_skip.
    3: state_norm; reflexivity.
    all: unfold frame_k, frame_j; state_norm; try reflexivity.
    left; reflexivity.
  - cbn [Z.eqb].
    match goal with
    | |- context [if pid_j ?a =? pid_k ?b then _ else _] =>
        destruct (pid_j a =? pid_k b) eqn:Hcol
    end.
    + eapply k_step_skip.
      3: state_norm; reflexivity.
      all: unfold frame_k, frame_j; state_norm; try reflexivity.
      right. revert Hcol. state_norm. lia.
    + eapply k_step_call.
      2: state_norm; reflexivity.
      5: state_norm; reflexivity.
      all: unfold frame_k, frame_j, occupancy; state_norm; try reflexivity.
      revert Hcol. state_norm. lia.
Qed.

Lemma j_iteration_step prim_id st :
  j_step build ctx prim_id st (j_iteration build ctx prim_id st).
Proof.
  unfold j_iteration.
  destruct (random_cubedraw (rd13 ctx) (locrng (incr_cell_attempt2 st)))
    as [[delta ratio] rng].
  match goal with
  | |- context [draw_particle ?b ?i ?o ?s ?g ?r] =>
      destruct (draw_particle_cases b i o s g r)
        as [Herr|u rng' pid H0 Hnp Hu Hpid]
  end.
  - cbn [Z.eqb Pos.eqb]. eapply j_step_skip.
    2: state_norm; reflexivity.
    all: unfold frame_j; state_norm; reflexivity.
  - cbn [Z.eqb]. unfold partition_probabilities, second_extra, partition_of.
    destruct (negb (LEGENDRE build) && negb (POWER build)) eqn:Hb.
    + eapply j_step_call.
      2: state_norm; reflexivity.
      6: unfold partition_of; rewrite Hb; state_norm; reflexivity.
      all: unfold frame_j, occupancy; state_norm; reflexivity.
    + eapply j_step_call.
      2: state_norm; reflexivity.
      6: unfold partition_of; rewrite Hb; state_norm; reflexivity.
      all: unfold frame_j, occupancy; state_norm; reflexivity.
Qed.

End Steps.

(** ** What the loops leave alone *)

Section Frames.
Context {GO : GridOps} {RNG : GslRng} {RD : RandomDrawsOps} {K : IntegralsOps}.
Variable build : Build.
Variable ctx : Ctx.

Lemma l_iteration_frame sec_id cell_sep2 st :
  frame_l (l_iteration build ctx sec_id cell_sep2 st) = frame_l st.
Proof.
  destruct (l_iteration_step build ctx sec_id cell_sep2 st); assumption.
Qed.

Lemma l_loop_frame sec_id cell_sep2 n st :
  frame_l (for_loop n (l_iteration build ctx sec_id cell_sep2) st) = frame_l st.
Proof.
  apply (for_loop_invariant (fun s => frame_l s = frame_l st)); [|reflexivity].
  intros s Hs. rewrite l_iteration_frame. exact Hs.
Qed.

Lemma frame_l_k st st' : frame_l st' = frame_l st -> frame_k st' = frame_k st.
Proof.
  unfold frame_l. intros H.
  exact (f_equal (fun t => fst (fst (fst (fst t)))) H).
Qed.

Lemma frame_k_j st st' : frame_k st' = frame_k st -> frame_j st' = frame_j st.
Proof.
  unfold frame_k. intros H.
  exact (f_equal (fun t => fst (fst (fst (fst (fst (fst t)))))) H).
Qed.

Lemma k_iteration_frame prim_id sec_id cell_sep2 st :
  frame_k (k_iteration build ctx prim_id sec_id cell_sep2 st) = frame_k st.
Proof.
  destruct (k_iteration_step build ctx prim_id sec_id cell_sep2 st)
    as [st' ? ? ? ? Hf|st3 ? ? ? Hf]; [assumption|].
  rewrite <- Hf. apply frame_l_k, l_loop_frame.
Qed.

Lemma k_loop_frame prim_id sec_id cell_sep2 n st :
  frame_k (for_loop n (k_iteration build ctx prim_id sec_id cell_sep2) st)
  = frame_k st.
Proof.
  apply (for_loop_invariant (fun s => frame_k s = frame_k st)); [|reflexivity].
  intros s Hs. rewrite k_iteration_frame. exact Hs.
Qed.

Lemma j_iteration_frame prim_id st :
  frame_j (j_iteration build ctx prim_id st) = frame_j st.
Proof.
  destruct (j_iteration_step build ctx prim_id st)
    as [st' ? ? ? Hf|st2 ? ? ? Hf]; [assumption|].
  rewrite <- Hf. apply frame_k_j, k_loop_frame.
Qed.

Lemma j_loop_frame prim_id n st :
  frame_j (for_loop n (j_iteration build ctx prim_id) st) = frame_j st.
Proof.
  apply (for_loop_invariant (fun s => frame_j s = frame_j st)); [|reflexivity].
  intros s Hs. rewrite j_iteration_frame. exact Hs.
Qed.

(** The fields a frame fixes. *)
Lemma frame_l_fields st st' :
  frame_l st' = frame_l st ->
  draw_j st' = draw_j st /\ draw_k st' = draw_k st
  /\ p2 (probs st') = p2 (probs st) /\ p3 (probs st') = p3 (probs st)
  /\ cell_attempt2 (cells st') = cell_attempt2 (cells st)
  /\ used_cell2 (cells st') = used_cell2 (cells st)
  /\ cell_attempt3 (cells st') = cell_attempt3 (cells st)
  /\ used_cell3 (cells st') = used_cell3 (cells st).
Proof.
  unfold frame_l, frame_k. intros H. injection H. intros. repeat split; assumption.
Qed.

Lemma frame_k_fields st st' :
  frame_k st' = frame_k st ->
  draw_j st' = draw_j st /\ p2 (probs st') = p2 (probs st)
  /\ cell_attempt2 (cells st') = cell_attempt2 (cells st)
  /\ used_cell2 (cells st') = used_cell2 (cells st).
Proof.
  unfold frame_k. intros H. injection H. intros. repeat split; assumption.
Qed.

Lemma frame_j_fields st st' :
  frame_j st' = frame_j st ->
  convergence_counter st' = convergence_counter st
  /\ printtime st' = printtime st /\ samples st' = samples st
  /\ prim_ids st' = prim_ids st /\ pln st' = pln st.
Proof.
  unfold frame_j. intros H. injection H. intros. repeat split; assumption.
Qed.

End Frames.

(** ** What the driver hands to the draws *)

Section DrawSites.
Context {GO : GridOps} {RNG : GslRng} {RD : RandomDrawsOps} {K : IntegralsOps}.
Variable build : Build.
Variable ctx : Ctx.




End DrawSites.

(** ** The outer loop and the schedule *)

Section Outer.
Context {GO : GridOps} {RNG : GslRng} {RD : RandomDrawsOps} {K : IntegralsOps}.
Variable build : Build.
Variable ctx : Ctx.

(** The critical section logs the folds it makes and touches neither the
    cell counters nor the sample counters. *)
Lemma critical_section_effect n_loops sh st sh' st' :
  critical_section build ctx n_loops sh st = Some (sh', st') ->
  cells st' = cells st /\ samples st' = samples st
  /\ printtime st' = printtime st /\ locrng st' = locrng st
  /\ exists r, int_rem (n_loops + 1) (nthread (par ctx)) = Some r
     /\ if r =? 0
        then let frob :=
               snd (frobenius_difference_sum (sumint sh) (locint st) n_loops) in
             trace st' = EvSumInts n_loops :: EvFrobenius n_loops frob :: trace st
             /\ convergence_counter st'
                = (if converged build frob then convergence_counter st + 1
                   else convergence_counter st)
        else trace st' = EvSumInts n_loops :: trace st
             /\ convergence_counter st' = convergence_counter st.
Proof.
  unfold critical_section.
  destruct (int_rem (n_loops + 1) (nthread (par ctx))) as [r|]; [|discriminate].
  destruct (r =? 0) eqn:Hr.
  - unfold frobenius_block.
    destruct (frobenius_difference_sum (sumint sh) (locint st) n_loops)
      as [sumint' frob] eqn:Hf.
    match goal with
    | |- context [sum_total_counts ?a ?b] =>
        destruct (sum_total_counts a b) as [[n2 n3] n4]
    end.
    intros H. injection H as <- <-.
    cbn [snd]. destruct (converged build frob);
      repeat split; try reflexivity; exists r; rewrite Hr;
      split; try reflexivity; split; reflexivity.
  - match goal with
    | |- context [sum_total_counts ?a ?b] =>
        destruct (sum_total_counts a b) as [[n2 n3] n4]
    end.
    intros H. injection H as <- <-.
    repeat split; try reflexivity; exists r; rewrite Hr;
      split; try reflexivity; split; reflexivity.
Qed.

(** A property of the cell counters and the trace that the sampling of one
    [j] cell keeps and the reduction events do not disturb holds along the
    whole run of a thread. *)
Section View.
Variable P : CellCounters -> list Event -> Prop.
Hypothesis P_j_iteration :
  forall prim_id st,
  P (cells st) (trace st) ->
  P (cells (j_iteration build ctx prim_id st))
    (trace (j_iteration build ctx prim_id st)).
Hypothesis P_frobenius :
  forall c tr n f, P c tr -> P c (EvFrobenius n f :: tr).
Hypothesis P_sum_ints : forall c tr n, P c tr -> P c (EvSumInts n :: tr).

Lemma cell_iteration_view n1 st st' :
  P (cells st) (trace st) ->
  cell_iteration build ctx n1 st = Some st' ->
  P (cells st') (trace st').
Proof.
  unfold cell_iteration. intros HP.
  match goal with
  | |- context [set_prim ?v st] => set (st1 := set_prim v st)
  end.
  assert (HP1 : P (cells st1) (trace st1)) by exact HP.
  clearbody st1.
  destruct (pln st1 =? 0); [intros H; injection H as <-; exact HP1|].
  destruct (int_mul (pln st1) (N2 (par ctx))) as [t2|]; [|discriminate].
  destruct (int_mul t2 (N3 (par ctx))) as [t3|]; [|discriminate].
  destruct (int_mul t3 (N4 (par ctx))) as [t4|]; [|discriminate].
  intros H; injection H as <-.
  apply (for_loop_invariant (fun s => P (cells s) (trace s))).
  - intros s. apply P_j_iteration.
  - exact HP1.
Qed.

Lemma outer_iteration_view n_loops sh st sh' st' :
  P (cells st) (trace st) ->
  outer_iteration build ctx n_loops sh st = Some (sh', st') ->
  P (cells st') (trace st').
Proof.
  unfold outer_iteration. intros HP.
  destruct (convergence_counter (reset_loc_used st) =? 10).
  - intros H; injection H as <- <-. exact HP.
  - destruct (for_each _ _ _) as [st1|] eqn:Hcells; [|discriminate].
    intros Hcrit.
    assert (HP1 : P (cells st1) (trace st1)).
    { eapply (for_each_invariant (fun s => P (cells s) (trace s)));
        [|exact (HP : P (cells (reset_loc_used st)) (trace (reset_loc_used st)))
         |exact Hcells].
      intros n s s' Hs Hstep. eapply cell_iteration_view; eassumption. }
    apply critical_section_effect in Hcrit.
    destruct Hcrit as (Hc & _ & _ & _ & r & _ & Htr).
    rewrite Hc. cbn [cells add_tot set_samples].
    destruct (r =? 0); destruct Htr as [-> _]; cbn [trace add_tot set_samples];
      auto.
Qed.

Lemma thread_loops_view ns sh st sh' st' :
  P (cells st) (trace st) ->
  thread_loops build ctx ns sh st = Some (sh', st') ->
  P (cells st') (trace st').
Proof.
  revert sh st. induction ns as [|n ns IH]; intros sh st HP Hrun;
    cbn [thread_loops] in Hrun.
  - injection Hrun as <- <-. exact HP.
  - destruct (outer_iteration build ctx n sh st) as [[sh1 st1]|] eqn:Hstep;
      [|discriminate].
    eapply IH; [|exact Hrun]. eapply outer_iteration_view; eassumption.
Qed.

End View.

(** An invariant of single iterations is an invariant of every thread
    along any schedule. *)
Lemma set_thread_Forall (Q : Thread -> Prop) t st ths :
  Q st -> Forall Q ths -> Forall Q (set_thread t st ths).
Proof.
  intros Hst Hths. revert t. induction Hths as [|a ths Ha Hths IH]; intros t.
  - destruct t; constructor.
  - destruct t; cbn [set_thread]; constructor; auto.
Qed.

Lemma run_schedule_invariant (Q : Thread -> Prop) :
  (forall n sh st sh' st',
     Q st -> outer_iteration build ctx n sh st = Some (sh', st') -> Q st') ->
  forall sched sh ths sh' ths',
  Forall Q ths ->
  run_schedule build ctx sched sh ths = Some (sh', ths') ->
  Forall Q ths'.
Proof.
  intros Hstep sched. induction sched as [|[t n] sched IH];
    intros sh ths sh' ths' Hths Hrun; cbn [run_schedule] in Hrun.
  - injection Hrun as <- <-. exact Hths.
  - destruct (nth_error ths t) as [st|] eqn:Ht; [|discriminate].
    destruct (outer_iteration build ctx n sh st) as [[sh1 st1]|] eqn:Ho;
      [|discriminate].
    eapply IH; [|exact Hrun].
    apply set_thread_Forall; [|exact Hths].
    eapply Hstep; [|exact Ho].
    rewrite Forall_forall in Hths. apply Hths.
    eapply nth_error_In; exact Ht.
Qed.

End Outer.

(** ** The particles handed to the kernels are distinct *)

Section Distinct.
Context {GO : GridOps} {RNG : GslRng} {RD : RandomDrawsOps} {K : IntegralsOps}.
Variable build : Build.
Variable ctx : Ctx.

Lemma pid_j_frame st st' : draw_j st' = draw_j st -> pid_j st' = pid_j st.
Proof. unfold pid_j. intros ->. reflexivity. Qed.

Lemma pid_k_frame st st' : draw_k st' = draw_k st -> pid_k st' = pid_k st.
Proof. unfold pid_k. intros ->. reflexivity. Qed.

Lemma l_iteration_distinct sec_id cell_sep2 st :
  Forall ids_distinct (trace st) /\ pid_j st <> pid_k st ->
  Forall ids_distinct (trace (l_iteration build ctx sec_id cell_sep2 st))
  /\ pid_j (l_iteration build ctx sec_id cell_sep2 st)
     <> pid_k (l_iteration build ctx sec_id cell_sep2 st).
Proof.
  intros [Htr Hjk].
  destruct (l_iteration_step build ctx sec_id cell_sep2 st)
    as [st' delta ratio x out Hf _ Ht _ _
       |st' delta ratio out Hf Hlj Hlk _ Ht _ _];
    apply frame_l_fields in Hf; destruct Hf as (Hj & Hk & _);
    rewrite (pid_j_frame _ _ Hj), (pid_k_frame _ _ Hk), Ht;
    (split; [|exact Hjk]); repeat constructor; assumption.
Qed.

Lemma k_iteration_distinct prim_id sec_id cell_sep2 st :
  Forall ids_distinct (trace st) ->
  Forall ids_distinct (trace (k_iteration build ctx prim_id sec_id cell_sep2 st)).
Proof.
  intros Htr.
  destruct (k_iteration_step build ctx prim_id sec_id cell_sep2 st)
    as [st' delta ratio x out _ _ Ht _ _ _ _
       |st3 delta ratio out Hf Hk Hjk _ _ Ht _ _ _ _].
  - rewrite Ht. repeat constructor; assumption.
  - apply frame_k_fields in Hf. destruct Hf as (Hj & _).
    apply (for_loop_invariant
             (fun s => Forall ids_distinct (trace s) /\ pid_j s <> pid_k s)
             (l_iteration build ctx sec_id cell_sep2)).
    + intros s. apply l_iteration_distinct.
    + rewrite Ht, (pid_j_frame _ _ Hj). unfold pid_k. rewrite Hk.
      split; [|exact Hjk]. repeat constructor; assumption.
Qed.

Lemma j_iteration_distinct prim_id st :
  Forall ids_distinct (trace st) ->
  Forall ids_distinct (trace (j_iteration build ctx prim_id st)).
Proof.
  intros Htr.
  destruct (j_iteration_step build ctx prim_id st)
    as [st' delta ratio out _ Ht _|st2 delta ratio out _ _ _ _ _ _ Ht _].
  - rewrite Ht. repeat constructor; assumption.
  - apply (for_loop_invariant (fun s => Forall ids_distinct (trace s))).
    + intros s. apply k_iteration_distinct.
    + rewrite Ht. repeat constructor; assumption.
Qed.

Lemma outer_iteration_distinct n sh st sh' st' :
  Forall ids_distinct (trace st) ->
  outer_iteration build ctx n sh st = Some (sh', st') ->
  Forall ids_distinct (trace st').
Proof.
  apply (outer_iteration_view build ctx (fun _ tr => Forall ids_distinct tr)).
  - intros prim_id s. apply j_iteration_distinct.
  - intros; repeat constructor; assumption.
  - intros; repeat constructor; assumption.
Qed.

Lemma run_schedule_distinct sched sh ths sh' ths' :
  Forall (fun st => trace st = []) ths ->
  run_schedule build ctx sched sh ths = Some (sh', ths') ->
  Forall (fun st => Forall ids_distinct (trace st)) ths'.
Proof.
  intros Hinit.
  apply (run_schedule_invariant build ctx
           (fun st => Forall ids_distinct (trace st))).
  - intros n s st s' st'. apply outer_iteration_distinct.
  - eapply Forall_impl; [|exact Hinit]. cbn. intros st ->. constructor.
Qed.

End Distinct.

(** ** The probabilities handed to the kernels *)

Section Probabilities.
Context {GO : GridOps} {RNG : GslRng} {RD : RandomDrawsOps} {K : IntegralsOps}.
Variable build : Build.
Variable ctx : Ctx.






End Probabilities.

(** ** The attempted and used cell counters *)

Lemma uint64_add_l a b : uint64 (uint64 a + b) = uint64 (a + b).
Proof. unfold uint64. apply Z.add_mod_idemp_l. discriminate. Qed.

Lemma uint64_small a : 0 <= a < 2 ^ 64 -> uint64 a = a.
Proof. unfold uint64. apply Z.mod_small. Qed.

Lemma uint64_range a : 0 <= uint64 a < 2 ^ 64.
Proof. unfold uint64. apply Z.mod_pos_bound. reflexivity. Qed.

Section Counters.
Context {GO : GridOps} {RNG : GslRng} {RD : RandomDrawsOps} {K : IntegralsOps}.
Variable build : Build.
Variable ctx : Ctx.

Ltac count_step :=
  cbn [count is_draw_j is_draw_k is_draw_l is_second is_third is_fourth];
  rewrite ?uint64_add_l;
  repeat split; try lia; try (f_equal; lia).

Lemma l_iteration_counters sec_id cell_sep2 st :
  counters_ok (cells st) (trace st) ->
  counters_ok (cells (l_iteration build ctx sec_id cell_sep2 st))
              (trace (l_iteration build ctx sec_id cell_sep2 st)).
Proof.
  unfold counters_ok.
  intros ((A2 & U2 & L2) & (A3 & U3 & L3) & (A4 & U4 & L4)).
  destruct (l_iteration_step build ctx sec_id cell_sep2 st)
    as [st' delta ratio x out Hf _ Ht Ha Hu
       |st' delta ratio out Hf _ _ _ Ht Ha Hu];
    apply frame_l_fields in Hf;
    destruct Hf as (_ & _ & _ & _ & Fa2 & Fu2 & Fa3 & Fu3);
    rewrite Ht, Fa2, Fu2, Fa3, Fu3, Ha, Hu, A2, U2, A3, U3, A4, U4;
    count_step.
Qed.

Lemma k_iteration_counters prim_id sec_id cell_sep2 st :
  counters_ok (cells st) (trace st) ->
  counters_ok (cells (k_iteration build ctx prim_id sec_id cell_sep2 st))
              (trace (k_iteration build ctx prim_id sec_id cell_sep2 st)).
Proof.
  intros Hok.
  destruct (k_iteration_step build ctx prim_id sec_id cell_sep2 st)
    as [st' delta ratio x out Hf _ Ht Ha3 Hu3 Ha4 Hu4
       |st3 delta ratio out Hf _ _ _ _ Ht Ha3 Hu3 Ha4 Hu4];
    apply frame_k_fields in Hf; destruct Hf as (_ & _ & Fa2 & Fu2).
  - revert Hok. unfold counters_ok.
    intros ((A2 & U2 & L2) & (A3 & U3 & L3) & (A4 & U4 & L4)).
    rewrite Ht, Fa2, Fu2, Ha3, Hu3, Ha4, Hu4, A2, U2, A3, U3, A4, U4.
    count_step.
  - apply (for_loop_invariant (fun s => counters_ok (cells s) (trace s))).
    + intros s. apply l_iteration_counters.
    + revert Hok. unfold counters_ok.
      intros ((A2 & U2 & L2) & (A3 & U3 & L3) & (A4 & U4 & L4)).
      rewrite Ht, Fa2, Fu2, Ha3, Hu3, Ha4, Hu4, A2, U2, A3, U3, A4, U4.
      count_step.
Qed.

Lemma j_iteration_counters prim_id st :
  counters_ok (cells st) (trace st) ->
  counters_ok (cells (j_iteration build ctx prim_id st))
              (trace (j_iteration build ctx prim_id st)).
Proof.
  intros Hok.
  destruct (j_iteration_step build ctx prim_id st)
    as [st' delta ratio out _ Ht Hc|st2 delta ratio out _ _ _ _ _ _ Ht Hc].
  - revert Hok. unfold counters_ok.
    intros ((A2 & U2 & L2) & (A3 & U3 & L3) & (A4 & U4 & L4)).
    rewrite Ht, Hc.
    cbn [cell_attempt2 cell_attempt3 cell_attempt4 used_cell2 used_cell3
         used_cell4].
    rewrite A2, U2, A3, U3, A4, U4. count_step.
  - apply (for_loop_invariant (fun s => counters_ok (cells s) (trace s))).
    + intros s. apply k_iteration_counters.
    + revert Hok. unfold counters_ok.
      intros ((A2 & U2 & L2) & (A3 & U3 & L3) & (A4 & U4 & L4)).
      rewrite Ht, Hc.
      cbn [cell_attempt2 cell_attempt3 cell_attempt4 used_cell2 used_cell3
           used_cell4].
      rewrite A2, U2, A3, U3, A4, U4. count_step.
Qed.

Lemma outer_iteration_counters n sh st sh' st' :
  counters_ok (cells st) (trace st) ->
  outer_iteration build ctx n sh st = Some (sh', st') ->
  counters_ok (cells st') (trace st').
Proof.
  apply (outer_iteration_view build ctx counters_ok).
  - intros prim_id s. apply j_iteration_counters.
  - intros c tr n0 f. unfold counters_ok. cbn [count is_draw_j is_draw_k
      is_draw_l is_second is_third is_fourth]. auto.
  - intros c tr n0. unfold counters_ok. cbn [count is_draw_j is_draw_k
      is_draw_l is_second is_third is_fourth]. auto.
Qed.

Lemma init_thread_counters steps thread locint0 junk :
  counters_ok (cells (init_thread steps thread locint0 junk))
              (trace (init_thread steps thread locint0 junk)).
Proof. unfold counters_ok. cbn. repeat split; lia. Qed.

Lemma reachable_counters st :
  reachable build ctx st -> counters_ok (cells st) (trace st).
Proof.
  induction 1 as [st Hc Ht| | | |n1 st st' _ IH Hstep|n sh st sh' st' _ IH Hstep].
  - rewrite Hc, Ht. unfold counters_ok. cbn. repeat split; lia.
  - apply l_iteration_counters. assumption.
  - apply k_iteration_counters. assumption.
  - apply j_iteration_counters. assumption.
  - eapply (cell_iteration_view build ctx counters_ok); [|exact IH|exact Hstep].
    intros prim_id s. apply j_iteration_counters.
  - eapply outer_iteration_counters; eassumption.
Qed.

(** The threads of a schedule are at such points. *)
Lemma run_schedule_reachable sched sh ths sh' ths' :
  Forall (fun st => cells st = mk_CellCounters 0 0 0 0 0 0 /\ trace st = [])
         ths ->
  run_schedule build ctx sched sh ths = Some (sh', ths') ->
  Forall (reachable build ctx) ths'.
Proof.
  intros Hinit. apply (run_schedule_invariant build ctx (reachable build ctx)).
  - intros n s st s' st' Hst Ho. eapply reachable_outer; eassumption.
  - eapply Forall_impl; [|exact Hinit]. cbn. intros st [Hc Ht].
    apply reachable_start; assumption.
Qed.

End Counters.

(** ** The sample counters *)

Lemma uint64_mul_l a b : uint64 (uint64 a * b) = uint64 (a * b).
Proof. unfold uint64. apply Z.mul_mod_idemp_l. discriminate. Qed.

Lemma uint64_add_r a b : uint64 (a + uint64 b) = uint64 (a + b).
Proof. unfold uint64. apply Z.add_mod_idemp_r. discriminate. Qed.

(** The reduction of counters kept modulo [2^64] is the sum of what they
    count, modulo [2^64]. *)
Lemma omp_reduction_total {RNG : GslRng} {K : IntegralsOps}
    (f g : Thread -> Z) (ths : list Thread) :
  Forall (fun st => f st = uint64 (g st)) ths ->
  omp_reduction f ths = uint64 (total g ths).
Proof.
  unfold omp_reduction. intros Hall.
  assert (H : forall a,
            fold_left (fun acc st => uint64 (acc + f st)) ths (uint64 a)
            = uint64 (a + total g ths)).
  { induction Hall as [|st ths Hst _ IH]; intros a; cbn [fold_left total fold_right].
    - f_equal. lia.
    - fold (total g ths). rewrite Hst, uint64_add_l, uint64_add_r, IH.
      f_equal. lia. }
  exact (H 0).
Qed.

Lemma total_le {RNG : GslRng} {K : IntegralsOps}
    (g h : Thread -> Z) (ths : list Thread) :
  Forall (fun st => 0 <= g st <= h st) ths ->
  0 <= total g ths <= total h ths.
Proof.
  induction 1 as [|st ths Hst _ IH]; cbn [total fold_right]; [lia|].
  fold (total g ths) (total h ths). lia.
Qed.

Lemma int_mul_Some a b t : int_mul a b = Some t -> t = a * b.
Proof. unfold int_mul. destruct (int_fits (a * b)); congruence. Qed.

Lemma in_ratio_add N3 N4 p t q p' t' q' :
  in_ratio N3 N4 p t q -> in_ratio N3 N4 p' t' q' ->
  in_ratio N3 N4 (uint64 (p + p')) (uint64 (t + t')) (uint64 (q + q')).
Proof.
  unfold in_ratio. intros [-> ->] [-> ->].
  rewrite !uint64_mul_l, !uint64_add_l, !uint64_add_r.
  replace (uint64 (p + p') * N3 * N4) with (uint64 (p + p') * (N3 * N4)) by ring.
  rewrite uint64_mul_l. split; f_equal; ring.
Qed.

Lemma in_ratio_add_exact N3 N4 p t q a :
  in_ratio N3 N4 p t q ->
  in_ratio N3 N4 (uint64 (p + a)) (uint64 (t + a * N3))
           (uint64 (q + a * N3 * N4)).
Proof.
  unfold in_ratio. intros [-> ->].
  rewrite !uint64_add_l.
  replace (uint64 (p + a) * N3 * N4) with (uint64 (p + a) * (N3 * N4)) by ring.
  rewrite !uint64_mul_l. split; f_equal; ring.
Qed.

Lemma in_ratio_zero N3 N4 : in_ratio N3 N4 0 0 0.
Proof. split; reflexivity. Qed.

Section Samples.
Context {GO : GridOps} {RNG : GslRng} {RD : RandomDrawsOps} {K : IntegralsOps}.
Variable build : Build.
Variable ctx : Ctx.

Lemma j_loop_samples prim_id n st :
  samples (for_loop n (j_iteration build ctx prim_id) st) = samples st.
Proof.
  pose proof (j_loop_frame build ctx prim_id n st) as H.
  apply frame_j_fields in H. tauto.
Qed.

(** What a primary cell adds to the three local counters: nothing when it
    is empty, else [pln*N2], [pln*N2*N3] and [pln*N2*N3*N4], whatever the
    draws do. *)
Lemma cell_iteration_samples n1 st st' :
  cell_iteration build ctx n1 st = Some st' ->
  let s := samples st in
  let added := pln st' * N2 (par ctx) in
  (pln st' = 0 /\ samples st' = s)
  \/ (pln st' <> 0
      /\ samples st'
         = mk_SampleCounters
             (uint64 (loc_used_pairs s + added))
             (uint64 (loc_used_triples s + added * N3 (par ctx)))
             (uint64 (loc_used_quads s + added * N3 (par ctx) * N4 (par ctx)))
             (tot_pairs s) (tot_triples s) (tot_quads s)).
Proof.
  unfold cell_iteration.
  match goal with
  | |- context [set_prim ?v st] => set (st1 := set_prim v st)
  end.
  assert (Hs : samples st1 = samples st) by reflexivity.
  clearbody st1.
  destruct (pln st1 =? 0) eqn:Hpln.
  - intros H; injection H as <-. left. split; [lia|exact Hs].
  - destruct (int_mul (pln st1) (N2 (par ctx))) as [t2|] eqn:H2; [|discriminate].
    destruct (int_mul t2 (N3 (par ctx))) as [t3|] eqn:H3; [|discriminate].
    destruct (int_mul t3 (N4 (par ctx))) as [t4|] eqn:H4; [|discriminate].
    apply int_mul_Some in H2, H3, H4. subst t2 t3 t4.
    intros H; injection H as <-. right.
    pose proof (j_loop_frame build ctx
                  (cell_id_from_1d (grid1 ctx) (filled_at (grid1 ctx) n1))
                  (Z.to_nat (N2 (par ctx)))
                  (add_loc_used (pln st1 * N2 (par ctx))
                     (pln st1 * N2 (par ctx) * N3 (par ctx))
                     (pln st1 * N2 (par ctx) * N3 (par ctx) * N4 (par ctx))
                     st1)) as Hf.
    apply frame_j_fields in Hf. destruct Hf as (_ & _ & Hsam & _ & Hp).
    rewrite Hsam, Hp. cbn [samples pln add_loc_used set_samples].
    rewrite Hs. split; [lia|reflexivity].
Qed.

Lemma cell_iteration_ratio n1 st st' :
  loc_in_ratio ctx st -> cell_iteration build ctx n1 st = Some st' ->
  loc_in_ratio ctx st'.
Proof.
  unfold loc_in_ratio. intros Hr Hc.
  apply cell_iteration_samples in Hc. cbv zeta in Hc.
  destruct Hc as [[_ ->]|[_ ->]]; [exact Hr|].
  cbn [loc_used_pairs loc_used_triples loc_used_quads].
  apply in_ratio_add_exact. exact Hr.
Qed.

Lemma cell_iteration_tot n1 st st' :
  cell_iteration build ctx n1 st = Some st' ->
  tot_pairs (samples st') = tot_pairs (samples st)
  /\ tot_triples (samples st') = tot_triples (samples st)
  /\ tot_quads (samples st') = tot_quads (samples st).
Proof.
  intros Hc. apply cell_iteration_samples in Hc. cbv zeta in Hc.
  destruct Hc as [[_ ->]|[_ ->]]; repeat split; reflexivity.
Qed.

(** After an outer loop that ran to its end the local counters are in
    ratio, whatever they held before; the totals stay in ratio. *)
Lemma outer_iteration_ratio n sh st sh' st' :
  outer_iteration build ctx n sh st = Some (sh', st') ->
  loc_in_ratio ctx st' /\ (tot_in_ratio ctx st -> tot_in_ratio ctx st').
Proof.
  unfold outer_iteration.
  destruct (convergence_counter (reset_loc_used st) =? 10).
  - intros H; injection H as <- <-. split; [apply in_ratio_zero|auto].
  - destruct (for_each _ _ _) as [st1|] eqn:Hcells; [|discriminate].
    intros Hcrit. apply critical_section_effect in Hcrit.
    destruct Hcrit as (_ & Hs & _).
    assert (H1 : loc_in_ratio ctx st1
                 /\ tot_pairs (samples st1) = tot_pairs (samples st)
                 /\ tot_triples (samples st1) = tot_triples (samples st)
                 /\ tot_quads (samples st1) = tot_quads (samples st)).
    { eapply (for_each_invariant
                (fun s => loc_in_ratio ctx s
                          /\ tot_pairs (samples s) = tot_pairs (samples st)
                          /\ tot_triples (samples s) = tot_triples (samples st)
                          /\ tot_quads (samples s) = tot_quads (samples st)));
        [| |exact Hcells].
      - intros n1 s s' (Hr & Hp & Ht & Hq) Hc.
        split; [eapply cell_iteration_ratio; eassumption|].
        apply cell_iteration_tot in Hc. destruct Hc as (-> & -> & ->).
        auto.
      - split; [apply in_ratio_zero|]. repeat split; reflexivity. }
    destruct H1 as (Hr & Hp & Ht & Hq).
    unfold loc_in_ratio, tot_in_ratio. rewrite Hs.
    cbn [samples add_tot set_samples loc_used_pairs loc_used_triples
         loc_used_quads tot_pairs tot_triples tot_quads].
    split; [exact Hr|]. intros Htot. rewrite Hp, Ht, Hq.
    apply in_ratio_add; assumption.
Qed.

Lemma omp_reduction_ratio (ths : list Thread) :
  Forall (tot_in_ratio ctx) ths ->
  in_ratio (N3 (par ctx)) (N4 (par ctx))
           (omp_reduction (fun st => tot_pairs (samples st)) ths)
           (omp_reduction (fun st => tot_triples (samples st)) ths)
           (omp_reduction (fun st => tot_quads (samples st)) ths).
Proof.
  unfold omp_reduction.
  assert (H : forall p t q,
            in_ratio (N3 (par ctx)) (N4 (par ctx)) p t q ->
            Forall (tot_in_ratio ctx) ths ->
            in_ratio (N3 (par ctx)) (N4 (par ctx))
              (fold_left (fun acc st => uint64 (acc + tot_pairs (samples st)))
                         ths p)
              (fold_left (fun acc st => uint64 (acc + tot_triples (samples st)))
                         ths t)
              (fold_left (fun acc st => uint64 (acc + tot_quads (samples st)))
                         ths q)).
  { induction ths as [|st ths IH]; intros p t q Hr Hall; cbn [fold_left].
    - exact Hr.
    - inversion Hall as [|? ? Hst Hrest]; subst.
      apply IH; [|exact Hrest]. apply in_ratio_add; assumption. }
  apply H. apply in_ratio_zero.
Qed.

End Samples.

(** ** The convergence counter *)

Lemma sampling_only_refl tr : sampling_only tr tr.
Proof. exists []. split; [reflexivity|constructor]. Qed.

Lemma sampling_only_trans a b c :
  sampling_only a b -> sampling_only b c -> sampling_only a c.
Proof.
  intros (e1 & -> & H1) (e2 & -> & H2). exists (e2 ++ e1).
  split; [apply app_assoc|]. apply Forall_app. split; assumption.
Qed.

Lemma sampling_only_cons e a b :
  is_reduction e = false -> sampling_only a b -> sampling_only a (e :: b).
Proof.
  intros He (evs & -> & H). exists (e :: evs).
  split; [reflexivity|]. constructor; assumption.
Qed.

Section Convergence.
Context {GO : GridOps} {RNG : GslRng} {RD : RandomDrawsOps} {K : IntegralsOps}.
Variable build : Build.
Variable ctx : Ctx.

Lemma l_iteration_sampling sec_id cell_sep2 st :
  sampling_only (trace st) (trace (l_iteration build ctx sec_id cell_sep2 st)).
Proof.
  destruct (l_iteration_step build ctx sec_id cell_sep2 st)
    as [st' ? ? ? ? _ _ Ht _ _|st' ? ? ? _ _ _ _ Ht _ _]; rewrite Ht;
    repeat (apply sampling_only_cons; [reflexivity|]);
    apply sampling_only_refl.
Qed.

Lemma sampling_loop (body : Thread -> Thread) :
  (forall s, sampling_only (trace s) (trace (body s))) ->
  forall n st, sampling_only (trace st) (trace (for_loop n body st)).
Proof.
  intros Hbody n st.
  apply (for_loop_invariant (fun s => sampling_only (trace st) (trace s)));
    [|apply sampling_only_refl].
  intros s Hs. eapply sampling_only_trans; [exact Hs|apply Hbody].
Qed.

Lemma k_iteration_sampling prim_id sec_id cell_sep2 st :
  sampling_only (trace st)
                (trace (k_iteration build ctx prim_id sec_id cell_sep2 st)).
Proof.
  destruct (k_iteration_step build ctx prim_id sec_id cell_sep2 st)
    as [st' ? ? ? ? _ _ Ht _ _ _ _|st3 ? ? ? _ _ _ _ _ Ht _ _ _ _].
  - rewrite Ht. repeat (apply sampling_only_cons; [reflexivity|]).
    apply sampling_only_refl.
  - eapply sampling_only_trans;
      [|apply sampling_loop; intros s; apply l_iteration_sampling].
    rewrite Ht. repeat (apply sampling_only_cons; [reflexivity|]).
    apply sampling_only_refl.
Qed.

Lemma j_iteration_sampling prim_id st :
  sampling_only (trace st) (trace (j_iteration build ctx prim_id st)).
Proof.
  destruct (j_iteration_step build ctx prim_id st)
    as [st' ? ? ? _ Ht _|st2 ? ? ? _ _ _ _ _ _ Ht _].
  - rewrite Ht. repeat (apply sampling_only_cons; [reflexivity|]).
    apply sampling_only_refl.
  - eapply sampling_only_trans;
      [|apply sampling_loop; intros s; apply k_iteration_sampling].
    rewrite Ht. repeat (apply sampling_only_cons; [reflexivity|]).
    apply sampling_only_refl.
Qed.

(** The loop over the filled cells samples only, and leaves the
    convergence counter alone. *)
Lemma cell_iteration_sampling n1 st st' :
  cell_iteration build ctx n1 st = Some st' ->
  sampling_only (trace st) (trace st')
  /\ convergence_counter st' = convergence_counter st.
Proof.
  unfold cell_iteration.
  match goal with
  | |- context [set_prim ?v st] => set (st1 := set_prim v st)
  end.
  assert (Ht : trace st1 = trace st) by reflexivity.
  assert (Hc : convergence_counter st1 = convergence_counter st) by reflexivity.
  clearbody st1.
  destruct (pln st1 =? 0).
  - intros H; injection H as <-. rewrite Ht. split;
      [apply sampling_only_refl|exact Hc].
  - destruct (int_mul (pln st1) (N2 (par ctx))) as [t2|]; [|discriminate].
    destruct (int_mul t2 (N3 (par ctx))) as [t3|]; [|discriminate].
    destruct (int_mul t3 (N4 (par ctx))) as [t4|]; [|discriminate].
    intros H; injection H as <-. split.
    + rewrite <- Ht.
      apply (sampling_loop (j_iteration build ctx _)
               (fun s => j_iteration_sampling _ s) _
               (add_loc_used t2 t3 t4 st1)).
    + match goal with
      | |- convergence_counter (for_loop ?n (j_iteration _ _ ?i) ?s) = _ =>
          pose proof (j_loop_frame build ctx i n s) as Hf
      end.
      apply frame_j_fields in Hf. destruct Hf as (-> & _). exact Hc.
Qed.

Lemma cells_loop_sampling ns st st' :
  for_each (cell_iteration build ctx) ns st = Some st' ->
  sampling_only (trace st) (trace st')
  /\ convergence_counter st' = convergence_counter st.
Proof.
  apply (for_each_invariant
           (fun s => sampling_only (trace st) (trace s)
                     /\ convergence_counter s = convergence_counter st)).
  - intros n s s' [Hs Hc] Hstep. apply cell_iteration_sampling in Hstep.
    destruct Hstep as [Hs' Hc']. split; [|congruence].
    eapply sampling_only_trans; eassumption.
  - split; [apply sampling_only_refl|reflexivity].
Qed.

Lemma outer_iteration_step n_loops sh st sh' st' :
  outer_iteration build ctx n_loops sh st = Some (sh', st') ->
  outer_step build ctx n_loops sh st sh' st'.
Proof.
  unfold outer_iteration.
  destruct (convergence_counter (reset_loc_used st) =? 10) eqn:Hcc.
  - intros H; injection H as <- <-. apply outer_skipped.
    cbn in Hcc. lia.
  - destruct (for_each _ _ _) as [st1|] eqn:Hcells; [|discriminate].
    intros Hcrit. apply critical_section_effect in Hcrit.
    destruct Hcrit as (_ & _ & _ & _ & r & Hr & Heff).
    apply cells_loop_sampling in Hcells. destruct Hcells as [Hs Hc].
    cbn [trace convergence_counter reset_loc_used set_samples] in Hs, Hc.
    unfold int_rem in Hr.
    destruct (nthread (par ctx) =? 0) eqn:Hn; [discriminate|].
    injection Hr as Hr.
    eapply (outer_reduced build ctx _ _ _ _ _ st1 r); try assumption.
    + cbn in Hcc. lia.
    + lia.
    + cbn [trace convergence_counter locint add_tot set_samples] in Heff.
      rewrite Hc in Heff. exact Heff.
Qed.

End Convergence.

(** ** Threads along a schedule *)

Section Schedules.
Context {GO : GridOps} {RNG : GslRng} {RD : RandomDrawsOps} {K : IntegralsOps}.
Variable build : Build.
Variable ctx : Ctx.

Lemma nth_error_set_thread t t' (st a : Thread) ths :
  nth_error ths t = Some a ->
  nth_error (set_thread t st ths) t'
  = if Nat.eqb t t' then Some st else nth_error ths t'.
Proof.
  revert t t'. induction ths as [|b ths IH]; intros t t' Ht.
  - destruct t; discriminate.
  - destruct t as [|t]; destruct t' as [|t']; cbn [set_thread nth_error Nat.eqb];
      try reflexivity.
    apply IH. exact Ht.
Qed.

(** A relation between the state of a thread before and after, reflexive,
    transitive and kept by every outer loop, holds between the states of
    each thread at the two ends of any schedule. *)
Lemma run_schedule_relation (R : Thread -> Thread -> Prop) :
  (forall st, R st st) ->
  (forall a b c, R a b -> R b c -> R a c) ->
  (forall n sh st sh' st',
     outer_iteration build ctx n sh st = Some (sh', st') -> R st st') ->
  forall sched sh ths sh' ths',
  run_schedule build ctx sched sh ths = Some (sh', ths') ->
  forall t st, nth_error ths t = Some st ->
  exists st', nth_error ths' t = Some st' /\ R st st'.
Proof.
  intros Hrefl Htrans Hstep sched.
  induction sched as [|[t0 n] sched IH]; intros sh ths sh' ths' Hrun t st Ht;
    cbn [run_schedule] in Hrun.
  - injection Hrun as <- <-. exists st. auto.
  - destruct (nth_error ths t0) as [st0|] eqn:Ht0; [|discriminate].
    destruct (outer_iteration build ctx n sh st0) as [[sh1 st1]|] eqn:Ho;
      [|discriminate].
    pose proof (nth_error_set_thread t0 t st1 st0 ths Ht0) as Hset.
    destruct (Nat.eqb t0 t) eqn:Heq.
    + apply Nat.eqb_eq in Heq. subst t0.
      destruct (IH _ _ _ _ Hrun t st1 Hset) as (st' & Hn & HR).
      exists st'. split; [exact Hn|].
      assert (st0 = st) by congruence. subst st0.
      eapply Htrans; [|exact HR]. eapply Hstep. exact Ho.
    + rewrite Ht in Hset. apply (IH _ _ _ _ Hrun t st Hset).
Qed.

End Schedules.

(** ** The loop with wrapping products *)

Lemma int_wrap_fits z : int_fits z = true -> int_wrap z = z.
Proof.
  unfold int_fits, int_wrap, INT_MIN, INT_MAX. intros H.
  apply andb_true_iff in H. destruct H as [H1 H2].
  apply Z.leb_le in H1, H2.
  change (2 ^ 32) with 4294967296.
  rewrite Z.mod_small; lia.
Qed.

Lemma int_mul_fits a b t :
  int_mul a b = Some t -> int_fits (a * b) = true /\ t = a * b.
Proof.
  unfold int_mul. destruct (int_fits (a * b)); [|discriminate].
  intros H; injection H as <-. split; reflexivity.
Qed.

Section Wrapping.
Context {GO : GridOps} {RNG : GslRng} {RD : RandomDrawsOps} {K : IntegralsOps}.
Variable build : Build.
Variable ctx : Ctx.

(** Where [cell_iteration] returns, the wrapping body does the same. *)
Lemma cell_iteration_wrapping_agrees n1 st st' :
  cell_iteration build ctx n1 st = Some st' ->
  cell_iteration_wrapping build ctx n1 st = st'.
Proof.
  unfold cell_iteration, cell_iteration_wrapping.
  match goal with
  | |- context [set_prim ?v st] => set (st1 := set_prim v st)
  end.
  clearbody st1.
  destruct (pln st1 =? 0); [intros H; injection H as <-; reflexivity|].
  destruct (int_mul (pln st1) (N2 (par ctx))) as [t2|] eqn:H2; [|discriminate].
  destruct (int_mul t2 (N3 (par ctx))) as [t3|] eqn:H3; [|discriminate].
  destruct (int_mul t3 (N4 (par ctx))) as [t4|] eqn:H4; [|discriminate].
  apply int_mul_fits in H2, H3, H4.
  destruct H2 as [F2 E2], H3 as [F3 E3], H4 as [F4 E4].
  intros H; injection H as <-. cbv zeta.
  rewrite (int_wrap_fits _ F2), <- E2, (int_wrap_fits _ F3), <- E3,
          (int_wrap_fits _ F4), <- E4.
  reflexivity.
Qed.

Lemma cells_loop_wrapping_agrees ns : forall st st',
  for_each (cell_iteration build ctx) ns st = Some st' ->
  fold_left (fun s n1 => cell_iteration_wrapping build ctx n1 s) ns st = st'.
Proof.
  induction ns as [|n1 ns IH]; intros st st' Hrun;
    cbn [for_each fold_left] in *.
  - injection Hrun as <-. reflexivity.
  - destruct (cell_iteration build ctx n1 st) as [s1|] eqn:Hstep; [|discriminate].
    rewrite (cell_iteration_wrapping_agrees _ _ _ Hstep). apply IH, Hrun.
Qed.

(** An outer loop in which no product overflows ends the same with the
    wrapping products. *)
Lemma outer_iteration_wrapping_agrees n sh st r :
  outer_iteration build ctx n sh st = Some r ->
  outer_iteration_wrapping build ctx n sh st = Some r.
Proof.
  unfold outer_iteration, outer_iteration_wrapping.
  destruct (convergence_counter (reset_loc_used st) =? 10); [auto|].
  destruct (for_each _ _ _) as [st1|] eqn:Hcells; [|discriminate].
  cbv zeta. rewrite (cells_loop_wrapping_agrees _ _ _ Hcells). auto.
Qed.

Lemma cell_iteration_wrapping_fits n1 st :
  products_fit ctx (grid1 ctx) [n1] ->
  cell_iteration build ctx n1 st
  = Some (cell_iteration_wrapping build ctx n1 st).
Proof.
  intros Hf. inversion Hf as [|? ? (F2 & F3 & F4) _]; subst.
  unfold cell_iteration, cell_iteration_wrapping.
  match goal with
  | |- context [set_prim ?v st] => set (st1 := set_prim v st)
  end.
  assert (Hp : pln st1 = Z.max 0 (Cell.np (cell_at (grid1 ctx)
                                            (filled_at (grid1 ctx) n1)))).
  { unfold st1. cbn [pln set_prim]. apply particle_list_pln. }
  clearbody st1. rewrite <- Hp in F2, F3, F4.
  destruct (pln st1 =? 0); [reflexivity|].
  unfold int_mul. cbv zeta.
  rewrite (int_wrap_fits _ F2), (int_wrap_fits _ F3), (int_wrap_fits _ F4).
  rewrite F2, F3, F4. reflexivity.
Qed.

Lemma cells_loop_wrapping_fits ns : forall st,
  products_fit ctx (grid1 ctx) ns ->
  for_each (cell_iteration build ctx) ns st
  = Some (fold_left (fun s n1 => cell_iteration_wrapping build ctx n1 s) ns st).
Proof.
  induction ns as [|n1 ns IH]; intros st Hf; cbn [for_each fold_left].
  - reflexivity.
  - inversion Hf as [|? ? H1 Hrest]; subst.
    rewrite cell_iteration_wrapping_fits by (constructor; [exact H1|constructor]).
    apply IH, Hrest.
Qed.

(** Where no product overflows the two outer loops are one. *)
Lemma outer_iteration_wrapping_fits n sh st :
  products_fit ctx (grid1 ctx) (index_range 0 (Grid.nf (grid1 ctx))) ->
  outer_iteration_wrapping build ctx n sh st = outer_iteration build ctx n sh st.
Proof.
  intros Hf. unfold outer_iteration, outer_iteration_wrapping.
  destruct (convergence_counter (reset_loc_used st) =? 10); [reflexivity|].
  rewrite (cells_loop_wrapping_fits _ _ Hf). reflexivity.
Qed.

Lemma run_schedule_wrapping_fits sched : forall sh ths,
  products_fit ctx (grid1 ctx) (index_range 0 (Grid.nf (grid1 ctx))) ->
  run_schedule_wrapping build ctx sched sh ths
  = run_schedule build ctx sched sh ths.
Proof.
  induction sched as [|[t n] sched IH]; intros sh ths Hf;
    cbn [run_schedule run_schedule_wrapping]; [reflexivity|].
  destruct (nth_error ths t) as [st|]; [|reflexivity].
  rewrite (outer_iteration_wrapping_fits _ _ _ Hf).
  destruct (outer_iteration build ctx n sh st) as [[sh1 st1]|]; [|reflexivity].
  apply IH, Hf.
Qed.

Lemma wrapped_pairs_0 : wrapped_pairs ctx 0 = 0.
Proof. reflexivity. Qed.

Lemma wrapped_triples_0 : wrapped_triples ctx 0 = 0.
Proof. reflexivity. Qed.

Lemma wrapped_quads_0 : wrapped_quads ctx 0 = 0.
Proof. reflexivity. Qed.

(** What the body of the loop over [n1] adds to the three local counters,
    whatever the products and the draws do; the totals are left alone. *)
Lemma cell_iteration_wrapping_samples n1 st a2 a3 a4 :
  let pln0 :=
    Z.max 0 (Cell.np (cell_at (grid1 ctx) (filled_at (grid1 ctx) n1))) in
  let st' := cell_iteration_wrapping build ctx n1 st in
  loc_used_pairs (samples st) = uint64 a2 ->
  loc_used_triples (samples st) = uint64 a3 ->
  loc_used_quads (samples st) = uint64 a4 ->
  loc_used_pairs (samples st') = uint64 (a2 + wrapped_pairs ctx pln0)
  /\ loc_used_triples (samples st') = uint64 (a3 + wrapped_triples ctx pln0)
  /\ loc_used_quads (samples st') = uint64 (a4 + wrapped_quads ctx pln0)
  /\ tot_pairs (samples st') = tot_pairs (samples st)
  /\ tot_triples (samples st') = tot_triples (samples st)
  /\ tot_quads (samples st') = tot_quads (samples st).
Proof.
  cbv zeta. intros H2 H3 H4. unfold cell_iteration_wrapping.
  match goal with
  | |- context [set_prim ?v st] => set (st1 := set_prim v st)
  end.
  assert (Hp : pln st1 = Z.max 0 (Cell.np (cell_at (grid1 ctx)
                                            (filled_at (grid1 ctx) n1)))).
  { unfold st1. cbn [pln set_prim]. apply particle_list_pln. }
  assert (Hs : samples st1 = samples st) by reflexivity.
  clearbody st1. rewrite <- Hp.
  destruct (Z.eqb_spec (pln st1) 0) as [E|E].
  - rewrite E, wrapped_pairs_0, wrapped_triples_0, wrapped_quads_0, !Z.add_0_r.
    rewrite Hs. repeat split; assumption.
  - cbv zeta. rewrite j_loop_samples.
    cbn [samples add_loc_used set_samples loc_used_pairs loc_used_triples
         loc_used_quads tot_pairs tot_triples tot_quads].
    rewrite Hs, H2, H3, H4, !uint64_add_l. repeat split; reflexivity.
Qed.

Lemma cells_loop_wrapping_samples ns : forall st a2 a3 a4,
  let st' :=
    fold_left (fun s n1 => cell_iteration_wrapping build ctx n1 s) ns st in
  loc_used_pairs (samples st) = uint64 a2 ->
  loc_used_triples (samples st) = uint64 a3 ->
  loc_used_quads (samples st) = uint64 a4 ->
  loc_used_pairs (samples st')
  = uint64 (a2 + sum_over_cells (wrapped_pairs ctx) (grid1 ctx) ns)
  /\ loc_used_triples (samples st')
     = uint64 (a3 + sum_over_cells (wrapped_triples ctx) (grid1 ctx) ns)
  /\ loc_used_quads (samples st')
     = uint64 (a4 + sum_over_cells (wrapped_quads ctx) (grid1 ctx) ns)
  /\ tot_pairs (samples st') = tot_pairs (samples st)
  /\ tot_triples (samples st') = tot_triples (samples st)
  /\ tot_quads (samples st') = tot_quads (samples st).
Proof.
  induction ns as [|n1 ns IH]; intros st a2 a3 a4; cbv zeta;
    intros H2 H3 H4; cbn [fold_left sum_over_cells fold_right].
  - rewrite !Z.add_0_r. repeat split; assumption.
  - destruct (cell_iteration_wrapping_samples n1 st a2 a3 a4 H2 H3 H4)
      as (G2 & G3 & G4 & T2 & T3 & T4).
    destruct (IH _ _ _ _ G2 G3 G4) as (I2 & I3 & I4 & U2 & U3 & U4).
    rewrite I2, I3, I4, U2, U3, U4, T2, T3, T4.
    fold (sum_over_cells (wrapped_pairs ctx) (grid1 ctx) ns).
    fold (sum_over_cells (wrapped_triples ctx) (grid1 ctx) ns).
    fold (sum_over_cells (wrapped_quads ctx) (grid1 ctx) ns).
    rewrite !Z.add_assoc. repeat split; reflexivity.
Qed.

(** The sample counters an outer loop that is not skipped leaves. *)
Lemma outer_iteration_wrapping_samples n sh st sh' st' :
  outer_iteration_wrapping build ctx n sh st = Some (sh', st') ->
  convergence_counter st <> 10 ->
  let cells := index_range 0 (Grid.nf (grid1 ctx)) in
  let pairs := sum_over_cells (wrapped_pairs ctx) (grid1 ctx) cells in
  let triples := sum_over_cells (wrapped_triples ctx) (grid1 ctx) cells in
  let quads := sum_over_cells (wrapped_quads ctx) (grid1 ctx) cells in
  samples st'
  = mk_SampleCounters (uint64 pairs) (uint64 triples) (uint64 quads)
      (uint64 (tot_pairs (samples st) + pairs))
      (uint64 (tot_triples (samples st) + triples))
      (uint64 (tot_quads (samples st) + quads)).
Proof.
  unfold outer_iteration_wrapping. intros Ho Hc.
  destruct (Z.eqb_spec (convergence_counter (reset_loc_used st)) 10) as [E|_];
    [contradiction|].
  cbv zeta in Ho.
  apply critical_section_effect in Ho. destruct Ho as (_ & -> & _).
  destruct (cells_loop_wrapping_samples (index_range 0 (Grid.nf (grid1 ctx)))
              (reset_loc_used st) 0 0 0 eq_refl eq_refl eq_refl)
    as (I2 & I3 & I4 & U2 & U3 & U4).
  cbn [samples reset_loc_used set_samples tot_pairs tot_triples tot_quads]
    in U2, U3, U4.
  cbv zeta.
  cbn [samples add_tot set_samples].
  rewrite I2, I3, I4, U2, U3, U4. cbn [Z.add].
  rewrite !uint64_add_r. reflexivity.
Qed.

Lemma critical_section_returns n sh st :
  nthread (par ctx) <> 0 ->
  exists r, critical_section build ctx n sh st = Some r.
Proof.
  intros Hn. unfold critical_section, int_rem.
  destruct (Z.eqb_spec (nthread (par ctx)) 0); [contradiction|].
  destruct (Z.rem (n + 1) (nthread (par ctx)) =? 0).
  - destruct (frobenius_block build n sh st) as [sh1 st1].
    match goal with
    | |- context [sum_total_counts ?a ?b] =>
        destruct (sum_total_counts a b) as [[n2 n3] n4]
    end.
    eexists; reflexivity.
  - match goal with
    | |- context [sum_total_counts ?a ?b] =>
        destruct (sum_total_counts a b) as [[n2 n3] n4]
    end.
    eexists; reflexivity.
Qed.

(** With the wrapping products an outer loop runs to its end whenever
    [nthread] is not zero. *)
Lemma outer_iteration_wrapping_returns n sh st :
  nthread (par ctx) <> 0 ->
  exists sh' st', outer_iteration_wrapping build ctx n sh st = Some (sh', st').
Proof.
  intros Hn. unfold outer_iteration_wrapping.
  destruct (convergence_counter (reset_loc_used st) =? 10);
    [do 2 eexists; reflexivity|].
  cbv zeta.
  match goal with
  | |- context [critical_section build ctx n sh ?s] =>
      destruct (critical_section_returns n sh s Hn) as [[sh' st'] ->]
  end.
  do 2 eexists; reflexivity.
Qed.

(** Where no product overflows the sums are the exact products. *)
Lemma sum_over_cells_fit ns :
  products_fit ctx (grid1 ctx) ns ->
  let P := particles_of (grid1 ctx) ns in
  sum_over_cells (wrapped_pairs ctx) (grid1 ctx) ns = P * N2 (par ctx)
  /\ sum_over_cells (wrapped_triples ctx) (grid1 ctx) ns
     = P * N2 (par ctx) * N3 (par ctx)
  /\ sum_over_cells (wrapped_quads ctx) (grid1 ctx) ns
     = P * N2 (par ctx) * N3 (par ctx) * N4 (par ctx).
Proof.
  cbv zeta. induction 1 as [|n1 ns (F2 & F3 & F4) Hrest (I2 & I3 & I4)];
    cbn [sum_over_cells particles_of fold_right].
  - repeat split; reflexivity.
  - fold (sum_over_cells (wrapped_pairs ctx) (grid1 ctx) ns).
    fold (sum_over_cells (wrapped_triples ctx) (grid1 ctx) ns).
    fold (sum_over_cells (wrapped_quads ctx) (grid1 ctx) ns).
    fold (particles_of (grid1 ctx) ns).
    rewrite I2, I3, I4.
    unfold wrapped_quads, wrapped_triples, wrapped_pairs.
    rewrite (int_wrap_fits _ F2), (int_wrap_fits _ F3), (int_wrap_fits _ F4).
    repeat split; ring.
Qed.

End Wrapping.

(** * The claims *)

(** ** Runs of the small world *)

#[local] Existing Instance Toy.grid_ops.
#[local] Existing Instance Toy.rng.
#[local] Existing Instance Toy.draws.
#[local] Existing Instance Toy.kernels.

Lemma toy_first_loop :
  outer_iteration Toy.build Toy.ctx 0 Toy.shared Toy.thread
  = Some (fst Toy.after_first_loop, snd Toy.after_first_loop).
Proof. vm_compute. reflexivity. Qed.

Lemma toy_run :
  run_schedule Toy.build Toy.ctx Toy.schedule Toy.shared [Toy.thread]
  = Some (fst Toy.after_run, snd Toy.after_run).
Proof. vm_compute. reflexivity. Qed.

Lemma toy_idle_run :
  run_schedule Toy.build Toy.ctx Toy.schedule Toy.shared [Toy.converged_thread]
  = Some (fst Toy.after_idle_run, snd Toy.after_idle_run).
Proof. vm_compute. reflexivity. Qed.

Lemma toy_threads_start_empty :
  Forall (fun st : Thread => trace st = []) [Toy.thread].
Proof. repeat constructor. Qed.

(** ** C7: drawing a particle *)



(** ** C6: the particles handed to the kernels *)

(** C6. The driver never calls [third] with [pid_k] equal to [pid_j], and
    never calls [fourth] unless [pid_j], [pid_k], [pid_l] are pairwise
    distinct: along any schedule, every call of [third] and [fourth] in the
    trace of every thread has distinct ids. Nothing keeps the drawn
    particles apart from the primary ones: in the run of the small world
    the three kernels are called with [j], [k] and [l] all among the ids of
    the primary cell. *)
Theorem kernels_get_distinct_particles :
  (forall (GO : GridOps) (RNG : GslRng) (RD : RandomDrawsOps)
          (K : IntegralsOps) (build : Build) (ctx : Ctx)
          (sched : list (nat * Z)) (sh sh' : Shared) (ths ths' : list Thread),
     Forall (fun st => trace st = []) ths ->
     run_schedule build ctx sched sh ths = Some (sh', ths') ->
     forall st', In st' ths' ->
     forall e, In e (trace st') -> ids_distinct e)
  /\ (exists ids p e q r,
        let tr := trace (snd Toy.after_first_loop) in
        In (EvSecond ids 3 0 p e) tr /\ In (EvThird 0 1 q) tr
        /\ In (EvFourth 0 1 2 r) tr
        /\ In 0 ids /\ In 1 ids /\ In 2 ids).
Proof.
  split.
  - intros GO RNG RD K build ctx sched sh sh' ths ths' Hinit Hrun st' Hst e He.
    pose proof (run_schedule_distinct build ctx _ _ _ _ _ Hinit Hrun) as H.
    rewrite Forall_forall in H. specialize (H st' Hst).
    rewrite Forall_forall in H. apply H, He.
  - vm_compute. do 5 eexists.
    repeat split;
      repeat (first [left; reflexivity | right]).
Qed.

Lemma kernels_get_distinct_particles_witness :
  Forall ids_distinct (trace (hd Toy.thread (snd Toy.after_run))).
Proof.
  rewrite Forall_forall.
  apply (proj1 kernels_get_distinct_particles _ _ _ _ Toy.build Toy.ctx
           Toy.schedule Toy.shared (fst Toy.after_run) [Toy.thread]
           (snd Toy.after_run) toy_threads_start_empty toy_run).
  vm_compute. left. reflexivity.
Defined.

(** ** C5: the probabilities handed to the kernels *)




(** ** C9: attempted and used cells *)

(** C9. At every point of any run (see [reachable]; the threads of any
    schedule are at such points), each attempt counter is the number of
    draws attempted and each used counter the number of draws accepted (the
    kernel calls), both as [uint64]; an attempt is counted before its draw
    can be accepted and no more draws are accepted than attempted, so that
    [cell_attempt >= used_cell >= 0] for the cells [j], [k] and [l] as long
    as fewer than [2^64] draws were attempted (the counters are 64-bit and
    wrap beyond that). The same holds of the counters summed over the
    threads by the reduction that ends the parallel region. *)
Theorem attempts_bound_used :
  forall (GO : GridOps) (RNG : GslRng) (RD : RandomDrawsOps)
         (K : IntegralsOps) (build : Build) (ctx : Ctx),
  (forall st : Thread,
     reachable build ctx st ->
     let c := cells st in
     let tr := trace st in
     counters_ok c tr
     /\ (count is_draw_j tr < 2 ^ 64 -> 0 <= used_cell2 c <= cell_attempt2 c)
     /\ (count is_draw_k tr < 2 ^ 64 -> 0 <= used_cell3 c <= cell_attempt3 c)
     /\ (count is_draw_l tr < 2 ^ 64 -> 0 <= used_cell4 c <= cell_attempt4 c))
  /\ (forall ths : list Thread,
        Forall (reachable build ctx) ths ->
        let attempted f := total (fun st => count f (trace st)) ths in
        let reduced f := omp_reduction (fun st => f (cells st)) ths in
        (attempted is_draw_j < 2 ^ 64 ->
         0 <= reduced used_cell2 <= reduced cell_attempt2)
        /\ (attempted is_draw_k < 2 ^ 64 ->
            0 <= reduced used_cell3 <= reduced cell_attempt3)
        /\ (attempted is_draw_l < 2 ^ 64 ->
            0 <= reduced used_cell4 <= reduced cell_attempt4)).
Proof.
  intros GO RNG RD K build ctx. split.
  - intros st Hst c tr.
    pose proof (reachable_counters build ctx st Hst) as H. subst c tr.
    split; [exact H|].
    destruct H as ((A2 & U2 & L2) & (A3 & U3 & L3) & (A4 & U4 & L4)).
    split; [|split]; intros Hlt.
    + rewrite A2, U2. rewrite !uint64_small; lia.
    + rewrite A3, U3. rewrite !uint64_small; lia.
    + rewrite A4, U4. rewrite !uint64_small; lia.
  - intros ths Hall attempted reduced. subst attempted reduced. cbv beta.
    assert (Hok : Forall (fun st => counters_ok (cells st) (trace st)) ths).
    { rewrite Forall_forall in *. intros st Hin.
      apply (reachable_counters build ctx), Hall, Hin. }
    assert (Hred : forall f g used gu,
              Forall (fun st => f (cells st) = uint64 (count g (trace st))
                                /\ used (cells st)
                                   = uint64 (count gu (trace st))
                                /\ 0 <= count gu (trace st)
                                   <= count g (trace st)) ths ->
              total (fun st => count g (trace st)) ths < 2 ^ 64 ->
              0 <= omp_reduction (fun st => used (cells st)) ths
                <= omp_reduction (fun st => f (cells st)) ths).
    { intros f g used gu H Hlt.
      rewrite (omp_reduction_total (fun st => f (cells st))
                 (fun st => count g (trace st)) ths),
              (omp_reduction_total (fun st => used (cells st))
                 (fun st => count gu (trace st)) ths).
      - pose proof (total_le (fun st => count gu (trace st))
                      (fun st => count g (trace st)) ths) as Hle.
        rewrite !uint64_small; [apply Hle| |].
        all: try (assert (Hb : 0 <= total (fun st => count gu (trace st)) ths
                               <= total (fun st => count g (trace st)) ths)
                    by (apply Hle; eapply Forall_impl; [|exact H];
                        cbv beta; intros a Ha; apply Ha); lia).
        eapply Forall_impl; [|exact H]. cbv beta. intros a Ha. apply Ha.
      - eapply Forall_impl; [|exact H]. cbv beta. intros a Ha. apply Ha.
      - eapply Forall_impl; [|exact H]. cbv beta. intros a Ha. apply Ha. }
    split; [|split]; intros Hlt.
    + apply (Hred cell_attempt2 is_draw_j used_cell2 is_second); [|exact Hlt].
      eapply Forall_impl; [|exact Hok]. cbv beta. intros a Ha. apply Ha.
    + apply (Hred cell_attempt3 is_draw_k used_cell3 is_third); [|exact Hlt].
      eapply Forall_impl; [|exact Hok]. cbv beta. intros a Ha. apply Ha.
    + apply (Hred cell_attempt4 is_draw_l used_cell4 is_fourth); [|exact Hlt].
      eapply Forall_impl; [|exact Hok]. cbv beta. intros a Ha. apply Ha.
Qed.

Lemma attempts_bound_used_witness :
  let c := cells (hd Toy.thread (snd Toy.after_run)) in
  let reduced f := omp_reduction (fun st => f (cells st)) (snd Toy.after_run) in
  (0 <= used_cell2 c <= cell_attempt2 c
   /\ 0 <= used_cell3 c <= cell_attempt3 c
   /\ 0 <= used_cell4 c <= cell_attempt4 c)
  /\ (0 <= reduced used_cell2 <= reduced cell_attempt2
      /\ 0 <= reduced used_cell3 <= reduced cell_attempt3
      /\ 0 <= reduced used_cell4 <= reduced cell_attempt4).
Proof.
  assert (Hall : Forall (reachable Toy.build Toy.ctx) (snd Toy.after_run)).
  { exact (run_schedule_reachable Toy.build Toy.ctx Toy.schedule
             Toy.shared [Toy.thread] (fst Toy.after_run)
             (snd Toy.after_run) ltac:(repeat constructor) toy_run). }
  assert (Hr : reachable Toy.build Toy.ctx (hd Toy.thread (snd Toy.after_run))).
  { rewrite Forall_forall in Hall. apply Hall. vm_compute. left. reflexivity. }
  destruct (attempts_bound_used _ _ _ _ Toy.build Toy.ctx) as [Hst Hths].
  destruct (Hst _ Hr) as (_ & H2 & H3 & H4).
  destruct (Hths _ Hall) as (R2 & R3 & R4).
  split; repeat split;
    first [apply H2 | apply H3 | apply H4 | apply R2 | apply R3 | apply R4];
    vm_compute; reflexivity.
Defined.

(** ** C10: the sample counters *)

(** C10. Where none of the [int] products [pln*N2], [pln*N2*N3],
    [pln*N2*N3*N4] of the filled cells overflows: after every outer loop
    that runs to its end the local counters satisfy
    [loc_used_triples = loc_used_pairs * N3] and
    [loc_used_quads = loc_used_pairs * N3 * N4] (in the arithmetic of
    [uint64]); each non-empty primary cell adds [pln*N2], [pln*N2*N3] and
    [pln*N2*N3*N4] whatever the draws do; hence along any schedule the
    totals of every thread, and their sums over the threads, satisfy
    [tot_triples = tot_pairs * N3] and [tot_quads = tot_pairs * N3 * N4].
    The loops are those of the compiled code, with wrapping products. *)
Theorem sample_counters_in_ratio :
  forall (GO : GridOps) (RNG : GslRng) (RD : RandomDrawsOps)
         (K : IntegralsOps) (build : Build) (ctx : Ctx),
  let n3 := N3 (par ctx) in
  let n4 := N4 (par ctx) in
  let cells := index_range 0 (Grid.nf (grid1 ctx)) in
  products_fit ctx (grid1 ctx) cells ->
  (forall n sh st sh' st',
     outer_iteration_wrapping build ctx n sh st = Some (sh', st') ->
     loc_used_triples (samples st') = uint64 (loc_used_pairs (samples st') * n3)
     /\ loc_used_quads (samples st')
        = uint64 (loc_used_pairs (samples st') * n3 * n4))
  /\ (forall n1 st,
        In n1 cells ->
        let st' := cell_iteration_wrapping build ctx n1 st in
        pln st' <> 0 ->
        let added := pln st' * N2 (par ctx) in
        loc_used_pairs (samples st')
        = uint64 (loc_used_pairs (samples st) + added)
        /\ loc_used_triples (samples st')
           = uint64 (loc_used_triples (samples st) + added * n3)
        /\ loc_used_quads (samples st')
           = uint64 (loc_used_quads (samples st) + added * n3 * n4))
  /\ (forall sched sh ths sh' ths',
        Forall (fun st => tot_pairs (samples st) = 0
                          /\ tot_triples (samples st) = 0
                          /\ tot_quads (samples st) = 0) ths ->
        run_schedule_wrapping build ctx sched sh ths = Some (sh', ths') ->
        (forall st', In st' ths' ->
           tot_triples (samples st') = uint64 (tot_pairs (samples st') * n3)
           /\ tot_quads (samples st')
              = uint64 (tot_pairs (samples st') * n3 * n4))
        /\ omp_reduction (fun st => tot_triples (samples st)) ths'
           = uint64 (omp_reduction (fun st => tot_pairs (samples st)) ths' * n3)
        /\ omp_reduction (fun st => tot_quads (samples st)) ths'
           = uint64 (omp_reduction (fun st => tot_pairs (samples st)) ths'
                     * n3 * n4)).
Proof.
  intros GO RNG RD K build ctx n3 n4 cells Hfit. split; [|split].
  - intros n sh st sh' st' Ho.
    rewrite (outer_iteration_wrapping_fits build ctx _ _ _ Hfit) in Ho.
    apply (outer_iteration_ratio build ctx) in Ho. exact (proj1 Ho).
  - intros n1 st Hin st' Hpln added.
    assert (Hc : cell_iteration build ctx n1 st = Some st').
    { apply cell_iteration_wrapping_fits.
      unfold products_fit in Hfit. rewrite Forall_forall in Hfit.
      constructor; [exact (Hfit n1 Hin)|constructor]. }
    apply (cell_iteration_samples build ctx) in Hc. cbv zeta in Hc.
    destruct Hc as [[H0 _]|[_ Hs]]; [contradiction|].
    rewrite Hs. repeat split; reflexivity.
  - intros sched sh ths sh' ths' Hinit Hrun.
    rewrite (run_schedule_wrapping_fits build ctx _ _ _ Hfit) in Hrun.
    assert (H : Forall (tot_in_ratio ctx) ths').
    { eapply (run_schedule_invariant build ctx (tot_in_ratio ctx));
        [| |exact Hrun].
      - intros n s st s' st1 Hst Ho.
        apply (outer_iteration_ratio build ctx) in Ho. apply Ho, Hst.
      - eapply Forall_impl; [|exact Hinit]. cbn. intros st (Hp & Ht & Hq).
        unfold tot_in_ratio. rewrite Hp, Ht, Hq. apply in_ratio_zero. }
    split.
    + intros st' Hst. rewrite Forall_forall in H. exact (H st' Hst).
    + exact (omp_reduction_ratio ctx ths' H).
Qed.

Lemma toy_first_loop_wrapping :
  outer_iteration_wrapping Toy.build Toy.ctx 0 Toy.shared Toy.thread
  = Some (fst Toy.after_first_loop, snd Toy.after_first_loop).
Proof. vm_compute. reflexivity. Qed.

Lemma toy_products_fit :
  products_fit Toy.ctx (grid1 Toy.ctx)
               (index_range 0 (Grid.nf (grid1 Toy.ctx))).
Proof. constructor; [vm_compute; repeat split|constructor]. Qed.

Lemma sample_counters_in_ratio_witness :
  let s := samples (snd Toy.after_first_loop) in
  loc_used_triples s = uint64 (loc_used_pairs s * 1)
  /\ loc_used_quads s = uint64 (loc_used_pairs s * 1 * 1).
Proof.
  exact (proj1 (sample_counters_in_ratio _ _ _ _ Toy.build Toy.ctx
                  toy_products_fit)
               0 Toy.shared Toy.thread _ _ toy_first_loop_wrapping).
Defined.

(** The relations fail where a product overflows: with [N4 = 2^30] and the
    one cell of three particles ([N2 = N3 = 1], [nthread = 1]) the first
    loop runs to its end and leaves [loc_used_pairs = 3] and
    [loc_used_quads = 2^64 - 2^30], the wrapped product [-2^30] converted
    to [uint64], where [loc_used_pairs * N3 * N4] is [3 * 2^30]; the totals
    are the same. *)
Lemma quads_out_of_ratio :
  exists sh' st',
    outer_iteration_wrapping Toy.build Wide.ctx 0 Toy.shared Toy.thread
    = Some (sh', st')
    /\ loc_used_pairs (samples st') = 3
    /\ loc_used_quads (samples st') = 2 ^ 64 - 2 ^ 30
    /\ uint64 (loc_used_pairs (samples st')
               * N3 (par Wide.ctx) * N4 (par Wide.ctx))
       = 3 * 2 ^ 30
    /\ loc_used_quads (samples st')
       <> uint64 (loc_used_pairs (samples st')
                  * N3 (par Wide.ctx) * N4 (par Wide.ctx))
    /\ tot_pairs (samples st') = 3
    /\ tot_quads (samples st') = 2 ^ 64 - 2 ^ 30
    /\ tot_quads (samples st')
       <> uint64 (tot_pairs (samples st')
                  * N3 (par Wide.ctx) * N4 (par Wide.ctx)).
Proof.
  destruct (outer_iteration_wrapping_returns Toy.build Wide.ctx 0 Toy.shared
              Toy.thread) as (sh' & st' & Ho).
  { vm_compute. intros E. discriminate E. }
  exists sh', st'. split; [exact Ho|].
  apply outer_iteration_wrapping_samples in Ho;
    [|vm_compute; intros E; discriminate E].
  cbv zeta in Ho. rewrite Ho.
  cbn [loc_used_pairs loc_used_quads tot_pairs tot_quads].
  repeat split; try (vm_compute; reflexivity);
    vm_compute; intros E; discriminate E.
Qed.

(** ** C3: the convergence check *)

Lemma Float_ltb_lt (x y : Float) : Float_ltb x y = true <-> (x < y)%Q.
Proof.
  unfold Float_ltb. rewrite Qlt_alt.
  destruct (x ?= y)%Q; split; congruence.
Qed.

Lemma converged_C4_below build frob :
  converged build frob = true <-> C4_below build frob.
Proof.
  unfold converged, C4_below. destruct (JACKKNIFE build).
  - rewrite andb_true_iff, !Float_ltb_lt. tauto.
  - rewrite Float_ltb_lt. split; [intros H; split; [exact H|discriminate]|tauto].
Qed.

(** C3. In every outer loop that is not skipped for a counter at 10, with
    [st1] the state the loop over the cells leaves: the Frobenius
    differences are computed only when [(n_loops+1)] is a multiple of
    [nthread], and then once, on the local accumulator of [st1]; on such a
    loop the counter goes up by exactly one if every C4 difference that
    [frobenius_difference_sum] returned is below 0.01 ([frob_C4] alone, and
    [frob_C4j] too in the jackknife build) and stays as it is otherwise;
    the C2 and C3 differences play no part. In every other loop, and in a
    skipped one, the counter stays as it is and no difference is
    computed. *)
Theorem convergence_check :
  forall (GO : GridOps) (RNG : GslRng) (RD : RandomDrawsOps)
         (K : IntegralsOps) (build : Build) (ctx : Ctx)
         (n_loops : Z) (sh sh' : Shared) (st st' : Thread),
  outer_iteration build ctx n_loops sh st = Some (sh', st') ->
  (convergence_counter st = 10 /\ trace st' = trace st
   /\ convergence_counter st' = convergence_counter st)
  \/ (convergence_counter st <> 10
      /\ exists st1,
        for_each (cell_iteration build ctx)
                 (index_range 0 (Grid.nf (grid1 ctx))) (reset_loc_used st)
        = Some st1
        /\ sampling_only (trace st) (trace st1)
        /\ let frob :=
             snd (frobenius_difference_sum (sumint sh) (locint st1) n_loops) in
           (Z.rem (n_loops + 1) (nthread (par ctx)) <> 0
            /\ trace st' = EvSumInts n_loops :: trace st1
            /\ convergence_counter st' = convergence_counter st)
           \/ (Z.rem (n_loops + 1) (nthread (par ctx)) = 0
               /\ trace st'
                  = EvSumInts n_loops :: EvFrobenius n_loops frob :: trace st1
               /\ (C4_below build frob ->
                   convergence_counter st' = convergence_counter st + 1)
               /\ (~ C4_below build frob ->
                   convergence_counter st' = convergence_counter st))).
Proof.
  intros GO RNG RD K build ctx n_loops sh sh' st st'.
  unfold outer_iteration.
  destruct (convergence_counter (reset_loc_used st) =? 10) eqn:Hcc.
  - intros H; injection H as <- <-. left.
    cbn in Hcc. repeat split. lia.
  - destruct (for_each _ _ _) as [st1|] eqn:Hcells; [|discriminate].
    intros Hcrit. apply critical_section_effect in Hcrit.
    destruct Hcrit as (_ & _ & _ & _ & r & Hr & Heff).
    destruct (cells_loop_sampling build ctx _ _ _ Hcells) as [Hs Hc].
    cbn [trace convergence_counter reset_loc_used set_samples] in Hs, Hc.
    unfold int_rem in Hr.
    destruct (nthread (par ctx) =? 0) eqn:Hn; [discriminate|].
    injection Hr as Hr.
    cbn [trace convergence_counter locint add_tot set_samples] in Heff.
    rewrite Hc in Heff.
    right. split; [cbn in Hcc; lia|].
    exists st1. split; [reflexivity|]. split; [exact Hs|].
    cbv zeta. destruct (r =? 0) eqn:Hr0.
    + right. split; [lia|]. cbv zeta in Heff. destruct Heff as [Ht Hcount].
      split; [exact Ht|].
      rewrite Hcount. split; intros Hb.
      * apply converged_C4_below in Hb. rewrite Hb. reflexivity.
      * destruct (converged build _) eqn:Hconv; [|reflexivity].
        apply converged_C4_below in Hconv. contradiction.
    + left. destruct Heff as [Ht Hcount].
      repeat split; [lia|exact Ht|exact Hcount].
Qed.

(** The first loop of the small world ([nthread = 1], differences of 0)
    raises the counter by one. *)
Lemma convergence_check_witness :
  convergence_counter (snd Toy.after_first_loop)
  = convergence_counter Toy.thread + 1.
Proof.
  destruct (convergence_check _ _ _ _ Toy.build Toy.ctx 0 Toy.shared
              (fst Toy.after_first_loop) Toy.thread
              (snd Toy.after_first_loop) toy_first_loop)
    as [(H10 & _)|(_ & st1 & _ & _ & [(Hrem & _)|(_ & _ & Hup & _)])].
  - vm_compute in H10. discriminate H10.
  - exfalso. apply Hrem. vm_compute. reflexivity.
  - apply Hup. split.
    + vm_compute. reflexivity.
    + intros Hjack. vm_compute in Hjack. discriminate Hjack.
Defined.

(** ** C4: the counter only climbs, and stops the thread at 10 *)

(** C4. Along any schedule the convergence counter of every thread never
    goes down; and a thread whose counter stands at 10 at the start of an
    outer loop skips that loop and all its later ones: its counter stays at
    10, it makes no draw, calls no kernel and makes no fold (its trace, cell
    counters, accumulator, generator and totals stay as they are), and each
    of its loops leaves the shared accumulator untouched. *)
Theorem convergence_counter_only_climbs :
  forall (GO : GridOps) (RNG : GslRng) (RD : RandomDrawsOps)
         (K : IntegralsOps) (build : Build) (ctx : Ctx)
         (sched : list (nat * Z)) (sh sh' : Shared) (ths ths' : list Thread)
         (t : nat) (st : Thread),
  run_schedule build ctx sched sh ths = Some (sh', ths') ->
  nth_error ths t = Some st ->
  exists st',
    nth_error ths' t = Some st'
    /\ convergence_counter st <= convergence_counter st'
    /\ (convergence_counter st = 10 ->
        work st' = work st
        /\ forall n sh0,
           exists st'', outer_iteration build ctx n sh0 st' = Some (sh0, st'')
                        /\ work st'' = work st').
Proof.
  intros GO RNG RD K build ctx sched sh sh' ths ths' t st Hrun Ht.
  set (R := fun a b : Thread =>
              convergence_counter a <= convergence_counter b
              /\ (convergence_counter a = 10 -> work b = work a)).
  assert (Hrefl : forall a, R a a).
  { intros a. split; [lia|reflexivity]. }
  assert (Htrans : forall a b c, R a b -> R b c -> R a c).
  { intros a b c [Hab Hab'] [Hbc Hbc']. split; [lia|].
    intros Ha. specialize (Hab' Ha).
    assert (Hb : convergence_counter b = 10).
    { unfold work in Hab'. injection Hab'. intros. lia. }
    rewrite (Hbc' Hb). exact Hab'. }
  assert (Hstep : forall n s a s' b,
            outer_iteration build ctx n s a = Some (s', b) -> R a b).
  { intros n s a s' b Ho.
    destruct (outer_iteration_step build ctx _ _ _ _ _ Ho)
      as [Hcc|s1 b1 a1 r Hcc _ _ _ Heff].
    - split; [cbn; lia|]. intros _. reflexivity.
    - split; [|intros; contradiction].
      destruct (r =? 0); cbv zeta in Heff; destruct Heff as [_ ->];
        [destruct (converged build _)|]; lia. }
  destruct (run_schedule_relation build ctx R Hrefl Htrans Hstep
              _ _ _ _ _ Hrun t st Ht) as (st' & Hn & Hle & Hidle).
  exists st'. split; [exact Hn|]. split; [exact Hle|].
  intros H10. specialize (Hidle H10). split; [exact Hidle|].
  assert (H10' : convergence_counter st' = 10).
  { unfold work in Hidle. injection Hidle. intros. lia. }
  intros n sh0. eexists. split.
  - unfold outer_iteration.
    cbn [convergence_counter reset_loc_used set_samples].
    rewrite H10'. cbn [Z.eqb Pos.eqb]. reflexivity.
  - reflexivity.
Qed.

Lemma convergence_counter_only_climbs_witness :
  exists st',
    nth_error (snd Toy.after_idle_run) 0 = Some st'
    /\ convergence_counter st' = 10
    /\ work st' = work Toy.converged_thread.
Proof.
  destruct (convergence_counter_only_climbs _ _ _ _ Toy.build Toy.ctx
              Toy.schedule Toy.shared (fst Toy.after_idle_run)
              [Toy.converged_thread] (snd Toy.after_idle_run) 0%nat
              Toy.converged_thread toy_idle_run eq_refl)
    as (st' & Hn & Hle & Hidle).
  exists st'. split; [exact Hn|].
  destruct (Hidle eq_refl) as [Hw _]. split; [|exact Hw].
  unfold work in Hw. injection Hw. intros ->. reflexivity.
Defined.

(** ** C2: the jackknife product weights *)

Lemma index_range_nil s n : n <= 0 -> index_range s n = [].
Proof.
  intros H. unfold index_range.
  replace (Z.to_nat n) with 0%nat by lia. reflexivity.
Qed.

Lemma index_range_cons s n :
  0 < n -> index_range s n = s :: index_range (s + 1) (n - 1).
Proof.
  intros H. unfold index_range.
  replace (Z.to_nat n) with (S (Z.to_nat (n - 1))) by lia.
  cbn [seq map]. f_equal; [lia|].
  rewrite <- seq_shift, map_map. apply map_ext. intros a. lia.
Qed.

Lemma In_index_range s n x : In x (index_range s n) -> s <= x < s + n.
Proof.
  unfold index_range. rewrite in_map_iff. intros (k & <- & Hk).
  apply in_seq in Hk. lia.
Qed.

Lemma update_nth_length {A : Type} n (f : A -> A) l :
  length (update_nth n f l) = length l.
Proof.
  revert n. induction l as [|a l IH]; intros [|n]; cbn; auto.
Qed.

Lemma nth_update_nth {A : Type} n m (f : A -> A) l d :
  nth m (update_nth n f l) d
  = if (Nat.eqb n m && Nat.ltb n (length l))%bool then f (nth m l d)
    else nth m l d.
Proof.
  revert n m. induction l as [|a l IH]; intros n m.
  - destruct n, m; cbn; rewrite ?andb_false_r; reflexivity.
  - destruct n as [|n], m as [|m]; cbn [update_nth nth length Nat.eqb andb];
      try reflexivity.
    rewrite IH. reflexivity.
Qed.

Lemma add_at_length a i v : length (add_at a i v) = length a.
Proof.
  unfold add_at. destruct (i <? 0); [reflexivity|apply update_nth_length].
Qed.

Lemma read_add_at a i v k :
  0 <= k -> 0 <= i < Z.of_nat (length a) ->
  read (add_at a i v) k = if i =? k then (read a k + v)%Q else read a k.
Proof.
  intros Hk Hi. unfold read, add_at.
  destruct (Z.ltb_spec k 0); [lia|]. destruct (Z.ltb_spec i 0); [lia|].
  rewrite nth_update_nth.
  destruct (Z.eqb_spec i k) as [->|Hne].
  - rewrite Nat.eqb_refl. cbn [andb].
    destruct (Nat.ltb_spec (Z.to_nat k) (length a)); [reflexivity|lia].
  - destruct (Nat.eqb_spec (Z.to_nat i) (Z.to_nat k)); [lia|reflexivity].
Qed.

(** Adding into entries chosen by [g], seen from one entry [k]. *)
Lemma fold_add_at {X : Type} (g : X -> Z) (v : X -> Float) xs :
  forall table k,
  0 <= k ->
  (forall x, In x xs -> 0 <= g x < Z.of_nat (length table)) ->
  length (fold_left (fun t x => add_at t (g x) (v x)) xs table) = length table
  /\ read (fold_left (fun t x => add_at t (g x) (v x)) xs table) k
     = fold_left (fun acc x => if g x =? k then (acc + v x)%Q else acc) xs
                 (read table k).
Proof.
  induction xs as [|x xs IH]; intros table k Hk Hg; cbn [fold_left].
  - split; reflexivity.
  - destruct (IH (add_at table (g x) (v x)) k Hk) as [Hl Hr].
    { intros y Hy. rewrite add_at_length. apply Hg. right. exact Hy. }
    rewrite Hl, Hr, add_at_length. split; [reflexivity|].
    rewrite read_add_at; [reflexivity|exact Hk|apply Hg; left; reflexivity].
Qed.

(** Of the indices [s .. s+m-1], at most one hits the entry [k]. *)
Lemma fold_select (off : Z) (v : Z -> Float) (k : Z) :
  forall (m : nat) (s : Z) (a0 : Float),
  fold_left (fun acc b => if off + b =? k then (acc + v b)%Q else acc)
            (index_range s (Z.of_nat m)) a0
  = if (off + s <=? k) && (k <? off + s + Z.of_nat m)
    then (a0 + v (k - off)%Z)%Q else a0.
Proof.
  induction m as [|m IH]; intros s a0.
  - rewrite index_range_nil by lia. cbn [fold_left].
    destruct (Z.leb_spec (off + s) k), (Z.ltb_spec k (off + s + Z.of_nat 0));
      cbn [andb]; try reflexivity; lia.
  - rewrite index_range_cons by lia. cbn [fold_left].
    replace (Z.of_nat (S m) - 1) with (Z.of_nat m) by lia. rewrite IH.
    destruct (Z.eqb_spec (off + s) k) as [He|He].
    + replace (k - off) with s by lia.
      destruct (Z.leb_spec (off + (s + 1)) k); [lia|].
      destruct (Z.leb_spec (off + s) k); [|lia].
      destruct (Z.ltb_spec k (off + s + Z.of_nat (S m))); [|lia].
      reflexivity.
    + destruct (Z.leb_spec (off + (s + 1)) k), (Z.leb_spec (off + s) k),
        (Z.ltb_spec k (off + (s + 1) + Z.of_nat m)),
        (Z.ltb_spec k (off + s + Z.of_nat (S m)));
        cbn [andb]; try reflexivity; lia.
Qed.

(** The loop over [bin_b] adds into the row that starts at [partial_bin2]. *)
Lemma fill_bin_b_entry nbins pb pb2 tw wb table k :
  0 <= nbins -> 0 <= pb2 -> pb2 + nbins <= Z.of_nat (length table) -> 0 <= k ->
  length (fill_bin_b nbins pb pb2 tw wb table) = length table
  /\ read (fill_bin_b nbins pb pb2 tw wb table) k
     = if (pb2 <=? k) && (k <? pb2 + nbins)
       then (read table k + tw * read wb (pb + (k - pb2))%Z)%Q
       else read table k.
Proof.
  intros Hn Hp Hlen Hk. unfold fill_bin_b.
  destruct (fold_add_at (fun b => pb2 + b)
              (fun b => (tw * read wb (pb + b)%Z)%Q)
              (index_range 0 nbins) table k Hk) as [Hl Hr].
  { intros x Hx. apply In_index_range in Hx. lia. }
  split; [exact Hl|]. rewrite Hr.
  replace nbins with (Z.of_nat (Z.to_nat nbins)) at 1 by lia.
  rewrite fold_select. rewrite Z2Nat.id by lia.
  replace (pb2 + 0) with pb2 by lia. reflexivity.
Qed.

Lemma entry_in_row nbins b_a b_b a :
  0 <= b_b < nbins ->
  (a * nbins <=? entry nbins b_a b_b)
  && (entry nbins b_a b_b <? a * nbins + nbins)
  = (a =? b_a).
Proof.
  intros Hb. unfold entry.
  destruct (Z.eqb_spec a b_a) as [->|Hne].
  - destruct (Z.leb_spec (b_a * nbins) (b_a * nbins + b_b)); [|lia].
    destruct (Z.ltb_spec (b_a * nbins + b_b) (b_a * nbins + nbins)); [|lia].
    reflexivity.
  - destruct (Z.leb_spec (a * nbins) (b_a * nbins + b_b));
      destruct (Z.ltb_spec (b_a * nbins + b_b) (a * nbins + nbins));
      cbn [andb]; try reflexivity.
    exfalso. apply Hne. nia.
Qed.

(** The loop over [bin_a] from [s] on, [partial_bin2] standing at
    [s*nbins]. *)
Lemma fill_bin_a_from nbins pb wa wb b_a b_b :
  0 <= b_b < nbins -> 0 <= b_a ->
  forall (m : nat) (s : Z) (table : list Float),
  0 <= s -> s + Z.of_nat m <= nbins ->
  Z.of_nat (length table) = nbins * nbins ->
  let r :=
    fold_left
      (fun (st : list Float * Z) bin_a =>
         let (table, partial_bin2) := st in
         (fill_bin_b nbins pb partial_bin2 (read wa (pb + bin_a)) wb table,
          partial_bin2 + nbins))
      (index_range s (Z.of_nat m)) (table, s * nbins) in
  length (fst r) = length table
  /\ read (fst r) (entry nbins b_a b_b)
     = if (s <=? b_a) && (b_a <? s + Z.of_nat m)
       then (read table (entry nbins b_a b_b)
             + read wa (pb + b_a) * read wb (pb + b_b))%Q
       else read table (entry nbins b_a b_b).
Proof.
  intros Hb Ha. induction m as [|m IH]; intros s table Hs Hm Hlen r; subst r.
  - rewrite index_range_nil by lia. cbn [fold_left fst]. split; [reflexivity|].
    destruct (Z.leb_spec s b_a), (Z.ltb_spec b_a (s + Z.of_nat 0));
      cbn [andb]; try reflexivity; lia.
  - rewrite index_range_cons by lia. cbn [fold_left].
    replace (Z.of_nat (S m) - 1) with (Z.of_nat m) by lia.
    replace (s * nbins + nbins) with ((s + 1) * nbins) by ring.
    assert (H1 : 0 <= nbins) by lia.
    assert (H2 : 0 <= s * nbins) by nia.
    assert (H3 : s * nbins + nbins <= Z.of_nat (length table))
      by (rewrite Hlen; nia).
    assert (H4 : 0 <= entry nbins b_a b_b) by (unfold entry; nia).
    destruct (fill_bin_b_entry nbins pb (s * nbins) (read wa (pb + s)) wb table
                (entry nbins b_a b_b) H1 H2 H3 H4) as [Hl Hr].
    assert (H5 : 0 <= s + 1) by lia.
    assert (H6 : s + 1 + Z.of_nat m <= nbins) by lia.
    assert (H7 : Z.of_nat
                   (length (fill_bin_b nbins pb (s * nbins) (read wa (pb + s))
                                       wb table))
                 = nbins * nbins) by (rewrite Hl; exact Hlen).
    destruct (IH (s + 1) _ H5 H6 H7) as [Hl' Hr'].
    rewrite Hl', Hr', Hl, Hr. split; [reflexivity|].
    rewrite (entry_in_row nbins b_a b_b s Hb).
    destruct (Z.eqb_spec s b_a) as [->|Hne].
    + replace (entry nbins b_a b_b - b_a * nbins) with b_b
        by (unfold entry; lia).
      destruct (Z.leb_spec (b_a + 1) b_a); [lia|].
      destruct (Z.leb_spec b_a b_a); [|lia].
      destruct (Z.ltb_spec b_a (b_a + Z.of_nat (S m))); [|lia].
      reflexivity.
    + destruct (Z.leb_spec (s + 1) b_a), (Z.leb_spec s b_a),
        (Z.ltb_spec b_a (s + 1 + Z.of_nat m)),
        (Z.ltb_spec b_a (s + Z.of_nat (S m)));
        cbn [andb]; try reflexivity; lia.
Qed.

Lemma fill_bin_a_entry nbins pb wa wb table b_a b_b :
  0 <= b_a < nbins -> 0 <= b_b < nbins ->
  Z.of_nat (length table) = nbins * nbins ->
  length (fill_bin_a nbins pb wa wb table) = length table
  /\ read (fill_bin_a nbins pb wa wb table) (entry nbins b_a b_b)
     = (read table (entry nbins b_a b_b)
        + read wa (pb + b_a) * read wb (pb + b_b))%Q.
Proof.
  intros Ha Hb Hlen. unfold fill_bin_a.
  pose proof (fill_bin_a_from nbins pb wa wb b_a b_b Hb (proj1 Ha)
                (Z.to_nat nbins) 0 table) as H.
  rewrite Z2Nat.id in H by lia. cbv zeta in H.
  replace (0 * nbins) with 0 in H by ring.
  destruct H as [Hl Hr]; try lia. split; [exact Hl|]. rewrite Hr.
  destruct (Z.leb_spec 0 b_a); [|lia].
  destruct (Z.ltb_spec b_a (0 + nbins)); [|lia]. reflexivity.
Qed.

(** The loop over the regions from [s] on, [partial_bin] standing at
    [s*nbins]: each entry grows by the products of the regions visited,
    in order. *)
Lemma fill_regions_from nbins wa wb b_a b_b :
  0 <= b_a < nbins -> 0 <= b_b < nbins ->
  forall (m : nat) (s : Z) (table : list Float),
  Z.of_nat (length table) = nbins * nbins ->
  let r :=
    fold_left
      (fun (st : list Float * Z) (_ : Z) =>
         let (table, partial_bin) := st in
         (fill_bin_a nbins partial_bin wa wb table, partial_bin + nbins))
      (index_range s (Z.of_nat m)) (table, s * nbins) in
  length (fst r) = length table
  /\ read (fst r) (entry nbins b_a b_b)
     = fold_left
         (fun acc reg =>
            (acc + read wa (reg * nbins + b_a) * read wb (reg * nbins + b_b))%Q)
         (index_range s (Z.of_nat m)) (read table (entry nbins b_a b_b)).
Proof.
  intros Ha Hb. induction m as [|m IH]; intros s table Hlen r; subst r.
  - rewrite index_range_nil by lia. cbn [fold_left fst]. split; reflexivity.
  - rewrite index_range_cons by lia. cbn [fold_left].
    replace (Z.of_nat (S m) - 1) with (Z.of_nat m) by lia.
    replace (s * nbins + nbins) with ((s + 1) * nbins) by ring.
    destruct (fill_bin_a_entry nbins (s * nbins) wa wb table b_a b_b Ha Hb Hlen)
      as [Hl Hr].
    destruct (IH (s + 1) (fill_bin_a nbins (s * nbins) wa wb table))
      as [Hl' Hr'].
    { rewrite Hl. exact Hlen. }
    rewrite Hl', Hr', Hl, Hr. split; reflexivity.
Qed.

(** What [fill_product_weights] leaves in the entry of row [b_a], column
    [b_b] of a block of [nbins*nbins] doubles: the sum over the filled
    regions of the products of the weights, added to what the block held
    there when it was allocated. *)
Lemma fill_product_weights_entry nbins JKa JKb fresh b_a b_b :
  0 <= b_a < nbins -> 0 <= b_b < nbins ->
  Z.of_nat (length fresh) = nbins * nbins ->
  read (fill_product_weights nbins JKa JKb fresh) (entry nbins b_a b_b)
  = region_sum nbins JKa JKb b_a b_b (read fresh (entry nbins b_a b_b)).
Proof.
  intros Ha Hb Hlen. unfold fill_product_weights, region_sum.
  destruct (Z_le_gt_dec (n_JK_filled JKa) 0) as [Hn|Hn].
  - rewrite !index_range_nil by lia. reflexivity.
  - pose proof (fill_regions_from nbins (weights JKa) (weights JKb) b_a b_b
                  Ha Hb (Z.to_nat (n_JK_filled JKa)) 0 fresh Hlen) as H.
    rewrite Z2Nat.id in H by lia. cbv zeta in H.
    replace (0 * nbins) with 0 in H by ring. exact (proj2 H).
Qed.

(** C2. When the pair (1,2) is not the pair (3,4), the table
    [product_weights12_34] is filled in a block [posix_memalign] hands
    back, which the driver never clears: an entry ends as what the block
    held there plus the sum over the filled regions of
    [w12[reg,b_a] * w34[reg,b_b]]. With one bin, one filled region, the
    weights 2 and 3 and a block that holds 5 the driver leaves 11 where the
    sum is 6. *)
Theorem fresh_product_weights_keep_old_content :
  let JK12 := mk_JK_weights [2 # 1] [] 1 in
  let JK34 := mk_JK_weights [3 # 1] [] 1 in
  let table := product_weights12_34 1 1 1 1 2 JK12 JK34 [5 # 1] in
  table = [11 # 1]%Q
  /\ region_sum 1 JK12 JK34 0 0 0%Q = (6 # 1)%Q
  /\ ~ (read table (entry 1 0 0) == region_sum 1 JK12 JK34 0 0 0%Q)%Q.
Proof.
  cbv zeta. split; [vm_compute; reflexivity|].
  split; [vm_compute; reflexivity|].
  vm_compute. intros H. discriminate H.
Qed.

(** The table of the driver, entry by entry: the stored table of [JK12]
    when the pair (1,2) is the pair (3,4) up to a swap; else the sum over
    the regions on top of the old content of the fresh block. *)
Lemma product_weights12_34_entry nbins I1 I2 I3 I4 JK12 JK34 fresh b_a b_b :
  0 <= b_a < nbins -> 0 <= b_b < nbins ->
  Z.of_nat (length fresh) = nbins * nbins ->
  let table := product_weights12_34 nbins I1 I2 I3 I4 JK12 JK34 fresh in
  ((I1 = I3 /\ I2 = I4) \/ (I1 = I4 /\ I2 = I3) ->
   table = product_weights JK12)
  /\ (~ (I1 = I3 /\ I2 = I4) -> ~ (I1 = I4 /\ I2 = I3) ->
      read table (entry nbins b_a b_b)
      = region_sum nbins JK12 JK34 b_a b_b (read fresh (entry nbins b_a b_b))).
Proof.
  intros Ha Hb Hlen table. subst table. unfold product_weights12_34.
  destruct (Z.eqb_spec I1 I3), (Z.eqb_spec I2 I4), (Z.eqb_spec I1 I4),
    (Z.eqb_spec I2 I3); cbn [andb orb]; split; intros;
    try reflexivity; try tauto;
    apply fill_product_weights_entry; assumption.
Qed.

(** ** C1: the reduction *)





(** ** More on the code *)

(** The table [product_weights12_34] at a small input whose fresh block is
    clear. *)
Lemma product_weights12_34_entry_witness :
  let JK12 := mk_JK_weights [2 # 1; 1 # 2]%Q [] 2 in
  let JK34 := mk_JK_weights [3 # 1; 4 # 1]%Q [] 2 in
  read (product_weights12_34 1 1 1 1 2 JK12 JK34 [0%Q]) (entry 1 0 0)
  = region_sum 1 JK12 JK34 0 0 (read [0%Q] (entry 1 0 0)).
Proof.
  cbv zeta.
  apply (product_weights12_34_entry 1 1 1 1 2
           (mk_JK_weights [2 # 1; 1 # 2]%Q [] 2)
           (mk_JK_weights [3 # 1; 4 # 1]%Q [] 2) [0%Q] 0 0);
    try lia; try reflexivity.
  all: intros [H1 H2]; discriminate.
Defined.

(** The seeds of the threads: [steps] is drawn from [1 .. UINT_MAX], so the
    product [steps*(thread+1)] does not wrap and two threads never get the
    same seed. *)
Lemma thread_seeds_distinct steps t t' :
  1 <= steps <= 4294967295 -> 0 <= t -> t < t' -> t' < INT_MAX ->
  thread_seed steps t = steps * (t + 1)
  /\ thread_seed steps t' = steps * (t' + 1)
  /\ thread_seed steps t <> thread_seed steps t'.
Proof.
  unfold thread_seed, INT_MAX. intros Hs Ht Hlt Hmax.
  rewrite !uint64_small by (change (2 ^ 64) with 18446744073709551616; nia).
  repeat split. nia.
Qed.

Lemma thread_seeds_distinct_witness :
  thread_seed 7 0 = 7 /\ thread_seed 7 1 = 14
  /\ thread_seed 7 0 <> thread_seed 7 1.
Proof.
  apply (thread_seeds_distinct 7 0 1); unfold INT_MAX; lia.
Defined.

(** [particle_list] returns the count of the cell (none when the count is
    negative), hands out the ids [start .. start+np-1] in order and leaves
    the rest of the id buffer as it was. *)
Lemma particle_list_ids id_1D part_list id_list grid :
  let cell := cell_at grid id_1D in
  let r := particle_list id_1D part_list id_list grid in
  fst (fst r) = Z.max 0 (Cell.np cell)
  /\ firstn (Z.to_nat (fst (fst r))) (snd r)
     = index_range (Cell.start cell) (Cell.np cell)
  /\ skipn (Z.to_nat (fst (fst r))) (snd r)
     = skipn (Z.to_nat (fst (fst r))) id_list
  /\ length (firstn (Z.to_nat (fst (fst r))) (snd (fst r)))
     = Z.to_nat (fst (fst r)).
Proof.
  intros cell r. subst r. unfold particle_list. fold cell. cbn [fst snd].
  set (ids := index_range (Cell.start cell) (Cell.np cell)).
  assert (Hlen : length ids = Z.to_nat (Cell.np cell)).
  { unfold ids, index_range. rewrite length_map, length_seq. reflexivity. }
  rewrite Nat2Z.id. unfold overwrite.
  repeat split.
  - rewrite Hlen. lia.
  - rewrite firstn_app, Nat.sub_diag, firstn_all. cbn [firstn].
    apply app_nil_r.
  - rewrite skipn_app, Nat.sub_diag, skipn_all. reflexivity.
  - rewrite firstn_app, length_map, Nat.sub_diag. cbn [firstn].
    rewrite app_nil_r, firstn_all2; rewrite length_map; lia.
Qed.

(** * Further properties of the code *)

(** ** The selection functions *)

Lemma which_index_sym Ia Ib : which_index Ia Ib = which_index Ib Ia.
Proof.
  unfold which_index.
  destruct (Z.eqb_spec Ia 1), (Z.eqb_spec Ib 1), (Z.eqb_spec Ia 2),
    (Z.eqb_spec Ib 2); cbn [andb]; reflexivity.
Qed.

Lemma which_index_bound Ia Ib : (which_index Ia Ib < 3)%nat.
Proof.
  unfold which_index.
  destruct ((Ia =? 1) && (Ib =? 1)); [lia|].
  destruct ((Ia =? 2) && (Ib =? 2)); lia.
Qed.

Lemma nth_error_in_bounds {A : Type} (l : list A) n :
  (n < length l)%nat -> exists x, nth_error l n = Some x /\ In x l.
Proof.
  intros H. destruct (nth_error l n) as [x|] eqn:E.
  - exists x. split; [reflexivity|]. eapply nth_error_In; exact E.
  - apply nth_error_None in E. lia.
Qed.

(** On an array of three entries [which_rd] (and [which_cf], [which_JK],
    [which_survey], which are the same code) always finds an entry, does
    not depend on the order of the two tracer indices, and sends every pair
    but (1,1) and (2,2), also one with an index that is neither 1 nor 2, to
    the third entry. On an array of two grids [which_grid] always finds a
    grid and sends every index but 1 to the second. *)
Lemma selection_in_bounds_symmetric {A : Type} (all : list A)
    (all_grid : list Grid.t) (Ia Ib : Z) :
  length all = 3%nat -> length all_grid = 2%nat ->
  (exists x, which_rd all Ia Ib = Some x /\ In x all)
  /\ which_rd all Ia Ib = which_rd all Ib Ia
  /\ which_cf all Ia Ib = which_rd all Ia Ib
  /\ which_JK all Ia Ib = which_rd all Ia Ib
  /\ which_survey all Ia Ib = which_rd all Ia Ib
  /\ (~ (Ia = 1 /\ Ib = 1) -> ~ (Ia = 2 /\ Ib = 2) ->
      which_rd all Ia Ib = nth_error all 2)
  /\ (exists g, which_grid all_grid Ia = Some g /\ In g all_grid)
  /\ (Ia <> 1 -> which_grid all_grid Ia = nth_error all_grid 1).
Proof.
  intros Hl Hg. unfold which_rd, which_cf, which_JK, which_survey.
  split; [apply nth_error_in_bounds; rewrite Hl; apply which_index_bound|].
  split; [rewrite which_index_sym; reflexivity|].
  do 3 (split; [reflexivity|]).
  split.
  { intros H1 H2. unfold which_index.
    destruct (Z.eqb_spec Ia 1), (Z.eqb_spec Ib 1), (Z.eqb_spec Ia 2),
      (Z.eqb_spec Ib 2); cbn [andb]; try reflexivity; tauto. }
  unfold which_grid. split.
  - destruct (Ia =? 1); apply nth_error_in_bounds; rewrite Hg; lia.
  - intros H. destruct (Z.eqb_spec Ia 1); [contradiction|reflexivity].
Qed.

Lemma selection_in_bounds_symmetric_witness :
  which_rd [10; 20; 30] 1 2 = which_rd [10; 20; 30] 2 1
  /\ which_rd [10; 20; 30] 3 3 = Some 30.
Proof.
  destruct (selection_in_bounds_symmetric [10; 20; 30]
              [Toy.grid; Toy.grid] 3 3 eq_refl eq_refl)
    as (_ & _ & _ & _ & _ & H & _).
  destruct (selection_in_bounds_symmetric [10; 20; 30]
              [Toy.grid; Toy.grid] 1 2 eq_refl eq_refl)
    as (_ & Hs & _).
  split; [exact Hs|]. apply H; intros [E _]; discriminate E.
Defined.

(** ** The two draws *)

(** On the same cell, grid and generator [draw_particle_without_class]
    returns what [draw_particle] returns, leaves the generator in the same
    state and, on a draw, reports the same [pid] and cell count; the
    particle is the same in the build without [PERIODIC], and in the
    periodic build each is [grid->p[pid]] moved by its own shift. *)
Lemma draw_functions_agree {GO : GridOps} {RNG : GslRng} (build : Build)
    (id_3D : integer3) (out : DrawOut) (out3 : DrawOut3) (shift : Float3)
    (shift3 : integer3) (grid : Grid.t) (locrng : gsl_rng) :
  let r := draw_particle build id_3D out shift grid locrng in
  let r3 := draw_particle_without_class build id_3D out3 shift3 grid locrng in
  fst (fst r3) = fst (fst r)
  /\ snd r3 = snd r
  /\ (fst (fst r) = 1 -> snd (fst r) = out /\ snd (fst r3) = out3)
  /\ (fst (fst r) <> 1 ->
      o3_pid (snd (fst r3)) = o_pid (snd (fst r))
      /\ o3_n_particles (snd (fst r3)) = o_n_particles (snd (fst r))
      /\ (PERIODIC build = false ->
          o3_particle (snd (fst r3)) = o_particle (snd (fst r)))
      /\ (PERIODIC build = true ->
          pos (o_particle (snd (fst r)))
          = Float3_add (pos (particle_at grid (o_pid (snd (fst r))))) shift
          /\ pos (o3_particle (snd (fst r3)))
             = Float3_add_integer3
                 (pos (particle_at grid (o_pid (snd (fst r))))) shift3)).
Proof.
  intros r r3. subst r r3. unfold draw_particle, draw_particle_without_class.
  destruct (test_cell grid id_3D <? 0).
  { cbn [fst snd]. split; [reflexivity|]. split; [reflexivity|].
    split; [intros _; split; reflexivity|]. intros H. congruence. }
  destruct (Cell.np (cell_at grid (test_cell grid id_3D)) =? 0).
  { cbn [fst snd]. split; [reflexivity|]. split; [reflexivity|].
    split; [intros _; split; reflexivity|]. intros H. congruence. }
  destruct (gsl_rng_uniform locrng) as [u rng].
  cbn [fst snd o_pid o3_pid o_n_particles o3_n_particles o_particle o3_particle].
  split; [reflexivity|]. split; [reflexivity|].
  split; [intros H; discriminate H|]. intros _.
  split; [reflexivity|]. split; [reflexivity|].
  split; intros H; rewrite H; [reflexivity|split; reflexivity].
Qed.

(** ** How the attempts nest *)

Lemma uint64_mul_r a b : uint64 (a * uint64 b) = uint64 (a * b).
Proof. unfold uint64. apply Z.mul_mod_idemp_r. discriminate. Qed.

Lemma total_scale {RNG : GslRng} {K : IntegralsOps}
    (g h : Thread -> Z) (c : Z) (ths : list Thread) :
  Forall (fun st => g st = h st * c) ths -> total g ths = total h ths * c.
Proof.
  induction 1 as [|st ths Hst _ IH]; cbn [total fold_right]; [lia|].
  fold (total g ths) (total h ths). lia.
Qed.

Section Nested.
Context {GO : GridOps} {RNG : GslRng} {RD : RandomDrawsOps} {K : IntegralsOps}.
Variable build : Build.
Variable ctx : Ctx.

Ltac count_events :=
  cbn [count is_draw_j is_draw_k is_draw_l is_second is_third is_fourth];
  repeat split; lia.

(** What an iteration over [n4] adds to the trace: one draw of [l]. *)
Lemma l_iteration_events sec_id cell_sep2 st :
  let tr := trace st in
  let tr' := trace (l_iteration build ctx sec_id cell_sep2 st) in
  count is_draw_l tr' = count is_draw_l tr + 1
  /\ count is_draw_k tr' = count is_draw_k tr
  /\ count is_second tr' = count is_second tr
  /\ count is_third tr' = count is_third tr.
Proof.
  cbv zeta.
  destruct (l_iteration_step build ctx sec_id cell_sep2 st)
    as [st' ? ? ? ? _ _ Ht _ _|st' ? ? ? _ _ _ _ Ht _ _]; rewrite Ht;
    count_events.
Qed.

Lemma l_loop_events sec_id cell_sep2 n st :
  let tr := trace st in
  let tr' := trace (for_loop n (l_iteration build ctx sec_id cell_sep2) st) in
  count is_draw_l tr' = count is_draw_l tr + Z.of_nat n
  /\ count is_draw_k tr' = count is_draw_k tr
  /\ count is_second tr' = count is_second tr
  /\ count is_third tr' = count is_third tr.
Proof.
  cbv zeta. revert st. induction n as [|n IH]; intros st; cbn [for_loop].
  - repeat split; lia.
  - destruct (IH (l_iteration build ctx sec_id cell_sep2 st)) as (A & B & C & D).
    destruct (l_iteration_events sec_id cell_sep2 st) as (A' & B' & C' & D').
    rewrite A, B, C, D, A', B', C', D'. repeat split; lia.
Qed.

(** An iteration over [n3] adds one draw of [k] and, for a call of [third],
    the [N4] draws of [l] that go with it. *)
Lemma k_iteration_events prim_id sec_id cell_sep2 st :
  let tr := trace st in
  let tr' := trace (k_iteration build ctx prim_id sec_id cell_sep2 st) in
  count is_draw_k tr' = count is_draw_k tr + 1
  /\ count is_second tr' = count is_second tr
  /\ count is_draw_l tr' - count is_third tr' * turns (N4 (par ctx))
     = count is_draw_l tr - count is_third tr * turns (N4 (par ctx)).
Proof.
  cbv zeta.
  destruct (k_iteration_step build ctx prim_id sec_id cell_sep2 st)
    as [st' ? ? ? ? _ _ Ht _ _ _ _|st3 ? ? ? _ _ _ _ _ Ht _ _ _ _].
  - rewrite Ht. count_events.
  - destruct (l_loop_events sec_id cell_sep2 (Z.to_nat (N4 (par ctx))) st3)
      as (A & B & C & D).
    rewrite A, B, C, D, Ht. unfold turns.
    cbn [count is_draw_j is_draw_k is_draw_l is_second is_third is_fourth].
    repeat split; lia.
Qed.

Lemma k_loop_events prim_id sec_id cell_sep2 n st :
  let tr := trace st in
  let tr' :=
    trace (for_loop n (k_iteration build ctx prim_id sec_id cell_sep2) st) in
  count is_draw_k tr' = count is_draw_k tr + Z.of_nat n
  /\ count is_second tr' = count is_second tr
  /\ count is_draw_l tr' - count is_third tr' * turns (N4 (par ctx))
     = count is_draw_l tr - count is_third tr * turns (N4 (par ctx)).
Proof.
  cbv zeta. revert st. induction n as [|n IH]; intros st; cbn [for_loop].
  - repeat split; lia.
  - destruct (IH (k_iteration build ctx prim_id sec_id cell_sep2 st))
      as (A & B & C).
    destruct (k_iteration_events prim_id sec_id cell_sep2 st) as (A' & B' & C').
    rewrite A, B, C, A', B', C'. repeat split; lia.
Qed.

Lemma j_iteration_nested prim_id st :
  attempts_nested ctx (trace st) ->
  attempts_nested ctx (trace (j_iteration build ctx prim_id st)).
Proof.
  unfold attempts_nested. intros [H3 H4].
  destruct (j_iteration_step build ctx prim_id st)
    as [st' ? ? ? _ Ht _|st2 delta ? ? _ _ _ _ _ _ Ht _].
  - rewrite Ht. count_events.
  - destruct (k_loop_events prim_id (integer3_add prim_id delta)
                (cell_sep (grid2 ctx) delta) (Z.to_nat (N3 (par ctx))) st2)
      as (A & B & C).
    rewrite Ht in A, B, C.
    cbn [count is_draw_j is_draw_k is_draw_l is_second is_third is_fourth]
      in A, B, C.
    unfold turns in *. split; nia.
Qed.

Lemma outer_iteration_nested n sh st sh' st' :
  attempts_nested ctx (trace st) ->
  outer_iteration build ctx n sh st = Some (sh', st') ->
  attempts_nested ctx (trace st').
Proof.
  apply (outer_iteration_view build ctx (fun _ tr => attempts_nested ctx tr)).
  - intros prim_id s. apply j_iteration_nested.
  - intros _ tr n0 f H. exact H.
  - intros _ tr n0 H. exact H.
Qed.

Lemma run_schedule_nested sched sh ths sh' ths' :
  Forall (fun st => cells st = mk_CellCounters 0 0 0 0 0 0 /\ trace st = [])
         ths ->
  run_schedule build ctx sched sh ths = Some (sh', ths') ->
  Forall (fun st => counters_ok (cells st) (trace st)
                    /\ attempts_nested ctx (trace st)) ths'.
Proof.
  intros Hinit.
  apply (run_schedule_invariant build ctx
           (fun st => counters_ok (cells st) (trace st)
                      /\ attempts_nested ctx (trace st))).
  - intros n s st s' st' [Hc Hn] Ho. split;
      [eapply outer_iteration_counters; eassumption
      |eapply outer_iteration_nested; eassumption].
  - eapply Forall_impl; [|exact Hinit]. cbv beta. intros st [Hc Ht].
    rewrite Hc, Ht. split.
    + unfold counters_ok. cbn. repeat split; lia.
    + split; reflexivity.
Qed.

End Nested.

(** Whatever the schedule, when it ends every thread has attempted
    [N3] cells [k] for each cell [j] it accepted and [N4] cells [l] for
    each cell [k] it accepted: [cell_attempt3 = used_cell2 * N3] and
    [cell_attempt4 = used_cell3 * N4] in the arithmetic of [uint64] (a bound
    that is negative counts as 0), and the same holds of the counters summed
    over the threads by the reduction. *)
Theorem attempts_follow_accepted_cells :
  forall (GO : GridOps) (RNG : GslRng) (RD : RandomDrawsOps)
         (K : IntegralsOps) (build : Build) (ctx : Ctx)
         (sched : list (nat * Z)) (sh sh' : Shared) (ths ths' : list Thread),
  Forall (fun st => cells st = mk_CellCounters 0 0 0 0 0 0 /\ trace st = [])
         ths ->
  run_schedule build ctx sched sh ths = Some (sh', ths') ->
  let reduced f := omp_reduction (fun st => f (cells st)) ths' in
  Forall
    (fun st =>
       cell_attempt3 (cells st)
       = uint64 (used_cell2 (cells st) * turns (N3 (par ctx)))
       /\ cell_attempt4 (cells st)
          = uint64 (used_cell3 (cells st) * turns (N4 (par ctx))))
    ths'
  /\ reduced cell_attempt3 = uint64 (reduced used_cell2 * turns (N3 (par ctx)))
  /\ reduced cell_attempt4 = uint64 (reduced used_cell3 * turns (N4 (par ctx))).
Proof.
  intros GO RNG RD K build ctx sched sh sh' ths ths' Hinit Hrun reduced.
  subst reduced. cbv beta.
  pose proof (run_schedule_nested build ctx sched sh ths sh' ths' Hinit Hrun)
    as H.
  split; [|split].
  - eapply Forall_impl; [|exact H]. cbv beta.
    intros st (((_ & U2 & _) & (A3 & U3 & _) & (A4 & _)) & [N3 N4]).
    rewrite A3, U2, A4, U3, !uint64_mul_l, N3, N4. split; reflexivity.
  - rewrite (omp_reduction_total (fun st => cell_attempt3 (cells st))
               (fun st => count is_draw_k (trace st)) ths'),
            (omp_reduction_total (fun st => used_cell2 (cells st))
               (fun st => count is_second (trace st)) ths').
    + rewrite uint64_mul_l. f_equal. apply total_scale.
      eapply Forall_impl; [|exact H]. cbv beta. intros st (_ & [N3 _]).
      exact N3.
    + eapply Forall_impl; [|exact H]. cbv beta.
      intros st (((_ & U2 & _) & _) & _). exact U2.
    + eapply Forall_impl; [|exact H]. cbv beta.
      intros st ((_ & (A3 & _) & _) & _). exact A3.
  - rewrite (omp_reduction_total (fun st => cell_attempt4 (cells st))
               (fun st => count is_draw_l (trace st)) ths'),
            (omp_reduction_total (fun st => used_cell3 (cells st))
               (fun st => count is_third (trace st)) ths').
    + rewrite uint64_mul_l. f_equal. apply total_scale.
      eapply Forall_impl; [|exact H]. cbv beta. intros st (_ & [_ N4]).
      exact N4.
    + eapply Forall_impl; [|exact H]. cbv beta.
      intros st ((_ & (_ & U3 & _) & _) & _). exact U3.
    + eapply Forall_impl; [|exact H]. cbv beta.
      intros st ((_ & _ & (A4 & _)) & _). exact A4.
Qed.

Lemma attempts_follow_accepted_cells_witness :
  let c := cells (hd Toy.thread (snd Toy.after_run)) in
  cell_attempt3 c = uint64 (used_cell2 c * 1)
  /\ cell_attempt4 c = uint64 (used_cell3 c * 1).
Proof.
  destruct (attempts_follow_accepted_cells _ _ _ _ Toy.build Toy.ctx
              Toy.schedule Toy.shared (fst Toy.after_run) [Toy.thread]
              (snd Toy.after_run) ltac:(repeat constructor) toy_run)
    as [H _].
  rewrite Forall_forall in H.
  apply (H (hd Toy.thread (snd Toy.after_run))).
  vm_compute. left. reflexivity.
Defined.

(** ** The convergence counter stays within 10 *)

Section Bound.
Context {GO : GridOps} {RNG : GslRng} {RD : RandomDrawsOps} {K : IntegralsOps}.
Variable build : Build.
Variable ctx : Ctx.

Lemma outer_iteration_bound n sh st sh' st' :
  0 <= convergence_counter st <= 10 ->
  outer_iteration build ctx n sh st = Some (sh', st') ->
  0 <= convergence_counter st' <= 10.
Proof.
  intros Hb Ho. apply outer_iteration_step in Ho.
  destruct Ho as [Hc|sh' st' st1 r Hc _ _ _ Heff].
  - cbn [convergence_counter set_printtime reset_loc_used set_samples]. exact Hb.
  - destruct (r =? 0); destruct Heff as [_ ->]; [|exact Hb].
    destruct (converged build _); lia.
Qed.

End Bound.

(** The private [convergence_counter] of a thread starts at 0 and never
    leaves the range 0 to 10, whatever the schedule and however often the
    Frobenius test succeeds: an outer loop that finds it at 10 is skipped
    before the test can raise it again. *)
Theorem convergence_counter_at_most_ten :
  forall (GO : GridOps) (RNG : GslRng) (RD : RandomDrawsOps)
         (K : IntegralsOps) (build : Build) (ctx : Ctx)
         (sched : list (nat * Z)) (sh sh' : Shared) (ths ths' : list Thread),
  Forall (fun st => convergence_counter st = 0) ths ->
  run_schedule build ctx sched sh ths = Some (sh', ths') ->
  Forall (fun st => 0 <= convergence_counter st <= 10) ths'.
Proof.
  intros GO RNG RD K build ctx sched sh sh' ths ths' Hinit.
  apply (run_schedule_invariant build ctx
           (fun st => 0 <= convergence_counter st <= 10)).
  - intros n s st s' st'. apply outer_iteration_bound.
  - eapply Forall_impl; [|exact Hinit]. cbv beta. intros st ->. lia.
Qed.

Lemma convergence_counter_at_most_ten_witness :
  0 <= convergence_counter (hd Toy.thread (snd Toy.after_run)) <= 10.
Proof.
  pose proof (convergence_counter_at_most_ten _ _ _ _ Toy.build Toy.ctx
                Toy.schedule Toy.shared (fst Toy.after_run) [Toy.thread]
                (snd Toy.after_run) ltac:(repeat constructor) toy_run) as H.
  rewrite Forall_forall in H.
  apply (H (hd Toy.thread (snd Toy.after_run))).
  vm_compute. left. reflexivity.
Defined.

(** ** The kernels work on one tuple *)

Section Tuples.
Context {GO : GridOps} {RNG : GslRng} {RD : RandomDrawsOps} {K : IntegralsOps}.
Variable build : Build.
Variable ctx : Ctx.

Lemma l_iteration_tuples sec_id cell_sep2 st :
  inv_tuple_l st -> inv_tuple_l (l_iteration build ctx sec_id cell_sep2 st).
Proof.
  intros (Hok & Hj & Hjk). unfold inv_tuple_l.
  destruct (l_iteration_step build ctx sec_id cell_sep2 st)
    as [st' delta ratio x out Hf _ Ht _ _
       |st' delta ratio out Hf _ _ _ Ht _ _];
    apply frame_l_fields in Hf; destruct Hf as (Fj & Fk & _);
    rewrite (pid_j_frame _ _ Fj), (pid_k_frame _ _ Fk), Ht;
    cbn [tuples_ok tuple_ok last_j last_jk]; auto.
Qed.

Lemma k_iteration_tuples prim_id sec_id cell_sep2 st :
  inv_tuple_k st ->
  inv_tuple_k (k_iteration build ctx prim_id sec_id cell_sep2 st).
Proof.
  intros (Hok & Hj). unfold inv_tuple_k.
  destruct (k_iteration_step build ctx prim_id sec_id cell_sep2 st)
    as [st' delta ratio x out Hf _ Ht _ _ _ _
       |st3 delta ratio out Hf Hk _ _ _ Ht _ _ _ _];
    apply frame_k_fields in Hf; destruct Hf as (Fj & _).
  - rewrite (pid_j_frame _ _ Fj), Ht. cbn [tuples_ok tuple_ok last_j]. auto.
  - assert (H : inv_tuple_l (for_loop (Z.to_nat (N4 (par ctx)))
                               (l_iteration build ctx sec_id cell_sep2) st3)).
    { apply (for_loop_invariant inv_tuple_l).
      - intros s. apply l_iteration_tuples.
      - unfold inv_tuple_l. rewrite Ht, (pid_j_frame _ _ Fj).
        unfold pid_k. rewrite Hk.
        cbn [tuples_ok tuple_ok last_j last_jk]. auto. }
    destruct H as (H & H' & _). split; assumption.
Qed.

Lemma j_iteration_tuples prim_id st :
  tuples_ok (trace st) -> tuples_ok (trace (j_iteration build ctx prim_id st)).
Proof.
  intros Hok.
  destruct (j_iteration_step build ctx prim_id st)
    as [st' delta ratio out _ Ht _|st2 delta ratio out _ Hj _ _ _ _ Ht _].
  - rewrite Ht. cbn [tuples_ok tuple_ok]. auto.
  - apply (for_loop_invariant inv_tuple_k).
    + intros s. apply k_iteration_tuples.
    + unfold inv_tuple_k, pid_j. rewrite Ht, Hj.
      cbn [tuples_ok tuple_ok last_j]. auto.
Qed.

Lemma outer_iteration_tuples n sh st sh' st' :
  tuples_ok (trace st) ->
  outer_iteration build ctx n sh st = Some (sh', st') ->
  tuples_ok (trace st').
Proof.
  apply (outer_iteration_view build ctx (fun _ tr => tuples_ok tr)).
  - intros prim_id s. apply j_iteration_tuples.
  - intros; cbn [tuples_ok tuple_ok]; auto.
  - intros; cbn [tuples_ok tuple_ok]; auto.
Qed.

End Tuples.

Lemma tuples_ok_at newer e older :
  tuples_ok (newer ++ e :: older) -> tuple_ok e older.
Proof.
  induction newer as [|a newer IH]; cbn [app tuples_ok].
  - intros [H _]. exact H.
  - intros [_ H]. apply IH, H.
Qed.

(** Along any schedule, every call of [third] is made with the [pid_j] of
    the latest call of [second] before it, and every call of [fourth] with
    the [pid_j] and [pid_k] of the latest call of [third] before it: the
    draws of the inner loops never change the particles of the outer
    ones. *)
Theorem kernels_share_tuple :
  forall (GO : GridOps) (RNG : GslRng) (RD : RandomDrawsOps)
         (K : IntegralsOps) (build : Build) (ctx : Ctx)
         (sched : list (nat * Z)) (sh sh' : Shared) (ths ths' : list Thread),
  Forall (fun st => trace st = []) ths ->
  run_schedule build ctx sched sh ths = Some (sh', ths') ->
  forall st', In st' ths' ->
  forall newer e older,
  trace st' = newer ++ e :: older ->
  tuple_ok e older.
Proof.
  intros GO RNG RD K build ctx sched sh sh' ths ths' Hinit Hrun st' Hst
         newer e older Htr.
  assert (H : Forall (fun st => tuples_ok (trace st)) ths').
  { eapply (run_schedule_invariant build ctx
              (fun st => tuples_ok (trace st)));
      [| |exact Hrun].
    - intros n s st s' st1. apply outer_iteration_tuples.
    - eapply Forall_impl; [|exact Hinit]. cbn. intros st ->. exact I. }
  rewrite Forall_forall in H. specialize (H st' Hst). rewrite Htr in H.
  eapply tuples_ok_at. exact H.
Qed.

Lemma kernels_share_tuple_witness :
  exists p older,
    trace (hd Toy.thread (snd Toy.after_run))
    = [EvSumInts 1; EvFrobenius 1 (mk_Frobenius 0 0 0 0 0 0)%Q]
      ++ EvFourth 0 1 2 p :: older
    /\ last_jk older = Some (0, 1).
Proof.
  eexists. eexists. split.
  - vm_compute. reflexivity.
  - eapply (kernels_share_tuple _ _ _ _ Toy.build Toy.ctx Toy.schedule
              Toy.shared (fst Toy.after_run) [Toy.thread] (snd Toy.after_run)
              toy_threads_start_empty toy_run
              (hd Toy.thread (snd Toy.after_run))
              ltac:(vm_compute; left; reflexivity)
              [EvSumInts 1; EvFrobenius 1 (mk_Frobenius 0 0 0 0 0 0)%Q]
              (EvFourth 0 1 2 _) _).
    vm_compute. reflexivity.
Defined.

(** ** The primary cells *)

Lemma for_each_invariant_in {S : Type} (P : S -> Prop)
    (body : Z -> S -> option S) (ns : list Z) :
  (forall n s s', In n ns -> P s -> body n s = Some s' -> P s') ->
  forall s s', P s -> for_each body ns s = Some s' -> P s'.
Proof.
  induction ns as [|n ns IH]; intros Hbody s s' Hs Hrun; cbn [for_each] in Hrun.
  - injection Hrun as <-. exact Hs.
  - destruct (body n s) as [s1|] eqn:Hstep; [|discriminate].
    apply (IH (fun m a b Hm => Hbody m a b (or_intror Hm)) s1 s');
      [|exact Hrun].
    apply (Hbody n s s1); [left; reflexivity|exact Hs|exact Hstep].
Qed.

Lemma particle_list_front id_1D part_list id_list grid :
  let r := particle_list id_1D part_list id_list grid in
  firstn (Z.to_nat (fst (fst r))) (snd r)
  = index_range (Cell.start (cell_at grid id_1D)) (Cell.np (cell_at grid id_1D)).
Proof.
  cbv zeta. unfold particle_list. cbn [fst snd]. rewrite Nat2Z.id.
  unfold overwrite. rewrite firstn_app, Nat.sub_diag, firstn_all.
  cbn [firstn]. apply app_nil_r.
Qed.

Section Cells.
Context {GO : GridOps} {RNG : GslRng} {RD : RandomDrawsOps} {K : IntegralsOps}.
Variable build : Build.
Variable ctx : Ctx.

(** The two ways the body of the loop over [n1] ends when it returns. *)
Lemma cell_iteration_cases n1 st st' :
  cell_iteration build ctx n1 st = Some st' ->
  let np := Cell.np (cell_at (grid1 ctx) (filled_at (grid1 ctx) n1)) in
  let st1 :=
    set_prim (particle_list (filled_at (grid1 ctx) n1) (prim_list st)
                            (prim_ids st) (grid1 ctx)) st in
  (np <= 0 /\ st' = st1 /\ pln st1 = 0)
  \/ (0 < np /\ pln st1 = np
      /\ int_fits (np * N2 (par ctx)) = true
      /\ int_fits (np * N2 (par ctx) * N3 (par ctx)) = true
      /\ int_fits (np * N2 (par ctx) * N3 (par ctx) * N4 (par ctx)) = true
      /\ st' = for_loop (Z.to_nat (N2 (par ctx)))
                 (j_iteration build ctx
                    (cell_id_from_1d (grid1 ctx) (filled_at (grid1 ctx) n1)))
                 (add_loc_used (np * N2 (par ctx))
                    (np * N2 (par ctx) * N3 (par ctx))
                    (np * N2 (par ctx) * N3 (par ctx) * N4 (par ctx)) st1)).
Proof.
  unfold cell_iteration. cbv zeta.
  set (st1 := set_prim _ st).
  assert (Hp : pln st1 = Z.max 0 (Cell.np (cell_at (grid1 ctx)
                                            (filled_at (grid1 ctx) n1)))).
  { unfold st1. cbn [pln set_prim]. apply particle_list_pln. }
  clearbody st1.
  destruct (Z.eqb_spec (pln st1) 0) as [H0|H0].
  - intros H; injection H as <-. left. repeat split; [lia|exact H0].
  - unfold int_mul.
    destruct (int_fits (pln st1 * N2 (par ctx))) eqn:F2; [|discriminate].
    destruct (int_fits (pln st1 * N2 (par ctx) * N3 (par ctx))) eqn:F3;
      [|discriminate].
    destruct (int_fits (pln st1 * N2 (par ctx) * N3 (par ctx) * N4 (par ctx)))
      eqn:F4; [|discriminate].
    intros H; injection H as <-. right.
    assert (Hnp : pln st1 = Cell.np (cell_at (grid1 ctx)
                                       (filled_at (grid1 ctx) n1))) by lia.
    rewrite <- Hnp. repeat split; try assumption; lia.
Qed.

(** A filled cell that holds no particle (a count of zero, or below) is
    skipped: the body of the loop over [n1] sets [pln] to 0 and leaves
    everything else, the two buffers of the primary list too, as it was. *)
Lemma empty_cell_is_skipped n1 st :
  Cell.np (cell_at (grid1 ctx) (filled_at (grid1 ctx) n1)) <= 0 ->
  cell_iteration build ctx n1 st
  = Some (set_prim (0, prim_list st, prim_ids st) st).
Proof.
  intros Hnp. unfold cell_iteration, particle_list.
  rewrite index_range_nil by exact Hnp. reflexivity.
Qed.

End Cells.

Lemma empty_cell_is_skipped_witness :
  cell_iteration Toy.build Sparse.ctx 0 Toy.thread
  = Some (set_prim (0, prim_list Toy.thread, prim_ids Toy.thread) Toy.thread).
Proof.
  apply (empty_cell_is_skipped Toy.build Sparse.ctx 0 Toy.thread).
  vm_compute. intros E. discriminate E.
Defined.

(** ** The primary list handed to [second] *)

Section Primary.
Context {GO : GridOps} {RNG : GslRng} {RD : RandomDrawsOps} {K : IntegralsOps}.
Variable build : Build.
Variable ctx : Ctx.

Lemma l_iteration_second sec_id cell_sep2 st :
  Forall (second_on_cell ctx) (trace st) ->
  Forall (second_on_cell ctx) (trace (l_iteration build ctx sec_id cell_sep2 st)).
Proof.
  intros H.
  destruct (l_iteration_step build ctx sec_id cell_sep2 st)
    as [st' ? ? ? ? _ _ Ht _ _|st' ? ? ? _ _ _ _ Ht _ _]; rewrite Ht;
    repeat (constructor; [exact I|]); exact H.
Qed.

Lemma k_iteration_second prim_id sec_id cell_sep2 st :
  Forall (second_on_cell ctx) (trace st) ->
  Forall (second_on_cell ctx)
         (trace (k_iteration build ctx prim_id sec_id cell_sep2 st)).
Proof.
  intros H.
  destruct (k_iteration_step build ctx prim_id sec_id cell_sep2 st)
    as [st' ? ? ? ? _ _ Ht _ _ _ _|st3 ? ? ? _ _ _ _ _ Ht _ _ _ _].
  - rewrite Ht. repeat (constructor; [exact I|]). exact H.
  - apply (for_loop_invariant (fun s => Forall (second_on_cell ctx) (trace s))).
    + intros s. apply l_iteration_second.
    + rewrite Ht. repeat (constructor; [exact I|]). exact H.
Qed.

Lemma j_iteration_second prim_id st :
  Forall (second_on_cell ctx) (trace st)
  /\ primary_cell_of ctx (prim_ids st) (pln st) ->
  Forall (second_on_cell ctx) (trace (j_iteration build ctx prim_id st))
  /\ primary_cell_of ctx (prim_ids (j_iteration build ctx prim_id st))
                     (pln (j_iteration build ctx prim_id st)).
Proof.
  intros [H Hp].
  pose proof (j_iteration_frame build ctx prim_id st) as Hf.
  apply frame_j_fields in Hf. destruct Hf as (_ & _ & _ & -> & ->).
  split; [|exact Hp].
  destruct (j_iteration_step build ctx prim_id st)
    as [st' ? ? ? _ Ht _|st2 ? ? ? _ _ _ _ _ _ Ht _].
  - rewrite Ht. repeat (constructor; [exact I|]). exact H.
  - apply (for_loop_invariant (fun s => Forall (second_on_cell ctx) (trace s))).
    + intros s. apply k_iteration_second.
    + rewrite Ht. constructor; [exact Hp|].
      repeat (constructor; [exact I|]). exact H.
Qed.

Lemma cell_iteration_second n1 st st' :
  0 <= n1 < Grid.nf (grid1 ctx) ->
  Forall (second_on_cell ctx) (trace st) ->
  cell_iteration build ctx n1 st = Some st' ->
  Forall (second_on_cell ctx) (trace st').
Proof.
  intros Hn H Hc. apply cell_iteration_cases in Hc. cbv zeta in Hc.
  destruct Hc as [(_ & -> & _)|(Hnp & Hpln & _ & _ & _ & ->)]; [exact H|].
  apply (for_loop_invariant
           (fun s => Forall (second_on_cell ctx) (trace s)
                     /\ primary_cell_of ctx (prim_ids s) (pln s))
           (j_iteration build ctx _) (j_iteration_second _)).
  split; [exact H|].
  match goal with
  | |- primary_cell_of _ (prim_ids (add_loc_used _ _ _ ?s))
                       (pln (add_loc_used _ _ _ ?s)) =>
      change (primary_cell_of ctx (prim_ids s) (pln s));
      assert (Hfront : firstn (Z.to_nat (pln s)) (prim_ids s)
                       = index_range
                           (Cell.start (cell_at (grid1 ctx)
                                          (filled_at (grid1 ctx) n1)))
                           (Cell.np (cell_at (grid1 ctx)
                                       (filled_at (grid1 ctx) n1))))
        by apply particle_list_front
  end.
  exists n1. rewrite Hfront, Hpln. repeat split; lia.
Qed.

Lemma outer_iteration_second n sh st sh' st' :
  Forall (second_on_cell ctx) (trace st) ->
  outer_iteration build ctx n sh st = Some (sh', st') ->
  Forall (second_on_cell ctx) (trace st').
Proof.
  unfold outer_iteration. intros H.
  destruct (convergence_counter (reset_loc_used st) =? 10).
  - intros E; injection E as <- <-. exact H.
  - destruct (for_each _ _ _) as [st1|] eqn:Hcells; [|discriminate].
    intros Hcrit.
    assert (H1 : Forall (second_on_cell ctx) (trace st1)).
    { refine (for_each_invariant_in
                (fun s => Forall (second_on_cell ctx) (trace s))
                (cell_iteration build ctx)
                (index_range 0 (Grid.nf (grid1 ctx))) _
                (reset_loc_used st) st1 H Hcells).
      intros n1 s s' Hin Hs Hstep. apply In_index_range in Hin.
      eapply cell_iteration_second; [|exact Hs|exact Hstep]. lia. }
    apply critical_section_effect in Hcrit.
    destruct Hcrit as (_ & _ & _ & _ & r & _ & Htr).
    destruct (r =? 0); destruct Htr as [-> _];
      repeat (constructor; [exact I|]); exact H1.
Qed.

End Primary.

(** Along any schedule, every call of [second] gets a primary list that is
    not empty and is what [particle_list] made of a filled cell [n1] of the
    first grid, [0 <= n1 < nf]: [pln] is the count of that cell and the
    first [pln] ids are [start, ..., start+pln-1]. An empty cell never
    reaches a kernel. *)
Theorem second_gets_a_filled_cell :
  forall (GO : GridOps) (RNG : GslRng) (RD : RandomDrawsOps)
         (K : IntegralsOps) (build : Build) (ctx : Ctx)
         (sched : list (nat * Z)) (sh sh' : Shared) (ths ths' : list Thread),
  Forall (fun st => trace st = []) ths ->
  run_schedule build ctx sched sh ths = Some (sh', ths') ->
  forall st', In st' ths' ->
  forall ids pln pid p extra,
  In (EvSecond ids pln pid p extra) (trace st') ->
  primary_cell_of ctx ids pln.
Proof.
  intros GO RNG RD K build ctx sched sh sh' ths ths' Hinit Hrun st' Hst
         ids pln pid p extra Hin.
  assert (H : Forall (fun st => Forall (second_on_cell ctx) (trace st)) ths').
  { eapply (run_schedule_invariant build ctx
              (fun st => Forall (second_on_cell ctx) (trace st)));
      [| |exact Hrun].
    - intros n s st s' st1. apply outer_iteration_second.
    - eapply Forall_impl; [|exact Hinit]. cbn. intros st ->. constructor. }
  rewrite Forall_forall in H. specialize (H st' Hst).
  rewrite Forall_forall in H. exact (H _ Hin).
Qed.

Lemma second_gets_a_filled_cell_witness :
  exists p extra, primary_cell_of Toy.ctx [0; 1; 2] 3
                  /\ In (EvSecond [0; 1; 2] 3 0 p extra)
                        (trace (hd Toy.thread (snd Toy.after_run))).
Proof.
  assert (Hin : exists p extra,
             In (EvSecond [0; 1; 2] 3 0 p extra)
                (trace (hd Toy.thread (snd Toy.after_run)))).
  { vm_compute. do 2 eexists.
    repeat (first [left; reflexivity | right]). }
  destruct Hin as (p & extra & Hin). exists p, extra. split; [|exact Hin].
  exact (second_gets_a_filled_cell _ _ _ _ Toy.build Toy.ctx Toy.schedule
           Toy.shared (fst Toy.after_run) [Toy.thread] (snd Toy.after_run)
           toy_threads_start_empty toy_run
           (hd Toy.thread (snd Toy.after_run))
           ltac:(vm_compute; left; reflexivity) _ _ _ _ _ Hin).
Defined.

(** ** What an outer loop adds to the sample counters *)

(** An outer loop of the compiled code that is not skipped and runs to its
    end counts, whatever the draws do, the sums over the filled cells of
    the first grid of the three [int] products [pln*N2], [pln*N2*N3],
    [pln*N2*N3*N4], each as the 32-bit multiplication leaves it, converted
    to [uint64], and adds them to the totals. Where no product overflows
    these are [P * N2] pairs, [P * N2 * N3] triples and [P * N2 * N3 * N4]
    quads, where [P] is the number of particles in the filled cells (the
    sum of the counts [np] of the cells [filled[0 .. nf-1]]); all in the
    arithmetic of [uint64]. *)
Theorem samples_of_an_outer_loop :
  forall (GO : GridOps) (RNG : GslRng) (RD : RandomDrawsOps)
         (K : IntegralsOps) (build : Build) (ctx : Ctx)
         (n : Z) (sh sh' : Shared) (st st' : Thread),
  outer_iteration_wrapping build ctx n sh st = Some (sh', st') ->
  convergence_counter st <> 10 ->
  let cells := index_range 0 (Grid.nf (grid1 ctx)) in
  let wpairs := sum_over_cells (wrapped_pairs ctx) (grid1 ctx) cells in
  let wtriples := sum_over_cells (wrapped_triples ctx) (grid1 ctx) cells in
  let wquads := sum_over_cells (wrapped_quads ctx) (grid1 ctx) cells in
  let pairs := particles_of (grid1 ctx) cells * N2 (par ctx) in
  (loc_used_pairs (samples st') = uint64 wpairs
   /\ loc_used_triples (samples st') = uint64 wtriples
   /\ loc_used_quads (samples st') = uint64 wquads
   /\ tot_pairs (samples st') = uint64 (tot_pairs (samples st) + wpairs)
   /\ tot_triples (samples st') = uint64 (tot_triples (samples st) + wtriples)
   /\ tot_quads (samples st') = uint64 (tot_quads (samples st) + wquads))
  /\ (products_fit ctx (grid1 ctx) cells ->
      loc_used_pairs (samples st') = uint64 pairs
      /\ loc_used_triples (samples st') = uint64 (pairs * N3 (par ctx))
      /\ loc_used_quads (samples st')
         = uint64 (pairs * N3 (par ctx) * N4 (par ctx))
      /\ tot_pairs (samples st') = uint64 (tot_pairs (samples st) + pairs)).
Proof.
  intros GO RNG RD K build ctx n sh sh' st st' Ho Hc
         cells wpairs wtriples wquads pairs.
  pose proof (outer_iteration_wrapping_samples build ctx n sh st sh' st' Ho Hc)
    as Hs.
  cbv zeta in Hs. fold cells in Hs. fold wpairs wtriples wquads in Hs.
  rewrite Hs.
  cbn [loc_used_pairs loc_used_triples loc_used_quads tot_pairs tot_triples
       tot_quads].
  split; [repeat split; reflexivity|].
  intros Hfit.
  destruct (sum_over_cells_fit ctx cells Hfit) as (E2 & E3 & E4).
  fold wpairs in E2. fold wtriples in E3. fold wquads in E4. fold pairs in E2, E3, E4.
  rewrite E2, E3, E4. repeat split; reflexivity.
Qed.

Lemma samples_of_an_outer_loop_witness :
  let s := samples (snd Toy.after_first_loop) in
  loc_used_pairs s = 3 /\ loc_used_triples s = 3 /\ loc_used_quads s = 3
  /\ tot_pairs s = 3.
Proof.
  destruct (samples_of_an_outer_loop _ _ _ _ Toy.build Toy.ctx 0 Toy.shared
              (fst Toy.after_first_loop) Toy.thread (snd Toy.after_first_loop)
              toy_first_loop_wrapping) as [_ H].
  { vm_compute. intros E. discriminate E. }
  exact (H toy_products_fit).
Defined.

(** ** When the loops run to their end *)

Section Returns.
Context {GO : GridOps} {RNG : GslRng} {RD : RandomDrawsOps} {K : IntegralsOps}.
Variable build : Build.
Variable ctx : Ctx.

Lemma cell_iteration_returns n1 st :
  products_fit ctx (grid1 ctx) [n1] ->
  exists st', cell_iteration build ctx n1 st = Some st'.
Proof.
  intros Hf. inversion Hf as [|? ? (F2 & F3 & F4) _]; subst.
  unfold cell_iteration.
  set (st1 := set_prim _ st).
  assert (Hp : pln st1 = Z.max 0 (Cell.np (cell_at (grid1 ctx)
                                            (filled_at (grid1 ctx) n1)))).
  { unfold st1. cbn [pln set_prim]. apply particle_list_pln. }
  clearbody st1. rewrite <- Hp in F2, F3, F4.
  destruct (pln st1 =? 0); [eexists; reflexivity|].
  unfold int_mul. rewrite F2, F3, F4. eexists; reflexivity.
Qed.

Lemma cells_loop_returns ns : forall st,
  products_fit ctx (grid1 ctx) ns ->
  exists st', for_each (cell_iteration build ctx) ns st = Some st'.
Proof.
  induction ns as [|n1 ns IH]; intros st Hf; cbn [for_each].
  - eexists; reflexivity.
  - inversion Hf as [|? ? H1 Hrest]; subst.
    destruct (cell_iteration_returns n1 st) as [s1 ->].
    { constructor; [exact H1|constructor]. }
    apply IH. exact Hrest.
Qed.

Lemma outer_iteration_returns n sh st :
  nthread (par ctx) <> 0 ->
  products_fit ctx (grid1 ctx) (index_range 0 (Grid.nf (grid1 ctx))) ->
  exists r, outer_iteration build ctx n sh st = Some r.
Proof.
  intros Hn Hf. unfold outer_iteration.
  destruct (convergence_counter (reset_loc_used st) =? 10);
    [eexists; reflexivity|].
  destruct (cells_loop_returns _ (reset_loc_used st) Hf) as [st1 ->].
  apply critical_section_returns. exact Hn.
Qed.

Lemma set_thread_length t (st : Thread) ths :
  length (set_thread t st ths) = length ths.
Proof.
  revert t. induction ths as [|a ths IH]; intros [|t]; cbn [set_thread length];
    auto.
Qed.

End Returns.

(** With [nthread] not zero and, for every filled cell of the first grid,
    the three products [pln*N2], [pln*N2*N3] and [pln*N2*N3*N4] within the
    range of [int], every outer loop runs to its end, and so does every
    schedule that names existing threads (a remainder by zero in
    [(n_loops+1) % nthread] and a signed overflow of these products are the
    two undefined operations the embedding tracks). *)
Theorem schedule_runs_to_its_end :
  forall (GO : GridOps) (RNG : GslRng) (RD : RandomDrawsOps)
         (K : IntegralsOps) (build : Build) (ctx : Ctx)
         (sched : list (nat * Z)) (sh : Shared) (ths : list Thread),
  nthread (par ctx) <> 0 ->
  products_fit ctx (grid1 ctx) (index_range 0 (Grid.nf (grid1 ctx))) ->
  Forall (fun tn => (fst tn < length ths)%nat) sched ->
  exists r, run_schedule build ctx sched sh ths = Some r.
Proof.
  intros GO RNG RD K build ctx sched.
  induction sched as [|[t n] sched IH]; intros sh ths Hn Hf Hs;
    cbn [run_schedule].
  - eexists; reflexivity.
  - inversion Hs as [|? ? Ht Hrest]; subst. cbn [fst] in Ht.
    destruct (nth_error ths t) as [st|] eqn:E;
      [|apply nth_error_None in E; lia].
    destruct (outer_iteration_returns build ctx n sh st Hn Hf)
      as [[sh1 st1] ->].
    apply IH; try assumption.
    rewrite set_thread_length. exact Hrest.
Qed.

Lemma schedule_runs_to_its_end_witness :
  exists r, run_schedule Toy.build Toy.ctx Toy.schedule Toy.shared [Toy.thread]
            = Some r.
Proof.
  apply (schedule_runs_to_its_end _ _ _ _ Toy.build Toy.ctx Toy.schedule
           Toy.shared [Toy.thread]).
  - vm_compute. intros E. discriminate E.
  - constructor; [|constructor]. vm_compute. repeat split; reflexivity.
  - repeat constructor.
Defined.

(** ** More on the jackknife tables *)

(** The table [product_weights12_23], entry by entry: the stored table of
    [JK12] when [I1 == I3]; else the sum over the filled regions of
    [w12[reg,b_a] * w23[reg,b_b]] on top of the old content of the fresh
    block. *)
Lemma product_weights12_23_entry nbins I1 I3 JK12 JK23 fresh b_a b_b :
  0 <= b_a < nbins -> 0 <= b_b < nbins ->
  Z.of_nat (length fresh) = nbins * nbins ->
  let table := product_weights12_23 nbins I1 I3 JK12 JK23 fresh in
  (I1 = I3 -> table = product_weights JK12)
  /\ (I1 <> I3 ->
      read table (entry nbins b_a b_b)
      = region_sum nbins JK12 JK23 b_a b_b (read fresh (entry nbins b_a b_b))).
Proof.
  intros Ha Hb Hlen table. subst table. unfold product_weights12_23.
  destruct (Z.eqb_spec I1 I3); split; intros; try reflexivity; try tauto.
  apply fill_product_weights_entry; assumption.
Qed.

Lemma product_weights12_23_entry_witness :
  let JK12 := mk_JK_weights [2 # 1; 1 # 2]%Q [] 2 in
  let JK23 := mk_JK_weights [3 # 1; 4 # 1]%Q [] 2 in
  read (product_weights12_23 1 1 2 JK12 JK23 [0%Q]) (entry 1 0 0)
  = region_sum 1 JK12 JK23 0 0 (read [0%Q] (entry 1 0 0)).
Proof.
  cbv zeta.
  apply (product_weights12_23_entry 1 1 2
           (mk_JK_weights [2 # 1; 1 # 2]%Q [] 2)
           (mk_JK_weights [3 # 1; 4 # 1]%Q [] 2) [0%Q] 0 0);
    try lia; try reflexivity.
Defined.

(** The loop over [bin_a] from [s] on leaves the doubles from
    [nbins*nbins] on alone. *)
Lemma fill_bin_a_outside nbins pb wa wb k :
  0 <= nbins -> nbins * nbins <= k ->
  forall (m : nat) (s : Z) (table : list Float),
  0 <= s -> s + Z.of_nat m <= nbins ->
  nbins * nbins <= Z.of_nat (length table) ->
  let r :=
    fold_left
      (fun (st : list Float * Z) bin_a =>
         let (table, partial_bin2) := st in
         (fill_bin_b nbins pb partial_bin2 (read wa (pb + bin_a)) wb table,
          partial_bin2 + nbins))
      (index_range s (Z.of_nat m)) (table, s * nbins) in
  length (fst r) = length table /\ read (fst r) k = read table k.
Proof.
  intros Hn Hk. induction m as [|m IH]; intros s table Hs Hm Hlen r; subst r.
  - rewrite index_range_nil by lia. cbn [fold_left fst]. split; reflexivity.
  - rewrite index_range_cons by lia. cbn [fold_left].
    replace (Z.of_nat (S m) - 1) with (Z.of_nat m) by lia.
    replace (s * nbins + nbins) with ((s + 1) * nbins) by ring.
    assert (H2 : 0 <= s * nbins) by nia.
    assert (H3 : s * nbins + nbins <= Z.of_nat (length table)) by nia.
    assert (H4 : 0 <= k) by nia.
    destruct (fill_bin_b_entry nbins pb (s * nbins) (read wa (pb + s)) wb table
                k Hn H2 H3 H4) as [Hl Hr].
    assert (H5 : 0 <= s + 1) by lia.
    assert (H6 : s + 1 + Z.of_nat m <= nbins) by lia.
    assert (H7 : nbins * nbins
                 <= Z.of_nat
                      (length (fill_bin_b nbins pb (s * nbins)
                                 (read wa (pb + s)) wb table)))
      by (rewrite Hl; exact Hlen).
    destruct (IH (s + 1) _ H5 H6 H7) as [Hl' Hr'].
    rewrite Hl', Hr', Hl, Hr. split; [reflexivity|].
    destruct (Z.leb_spec (s * nbins) k), (Z.ltb_spec k (s * nbins + nbins));
      cbn [andb]; try reflexivity. nia.
Qed.

Lemma fill_regions_outside nbins wa wb k :
  0 <= nbins -> nbins * nbins <= k ->
  forall (ns : list Z) (pb : Z) (table : list Float),
  nbins * nbins <= Z.of_nat (length table) ->
  let r :=
    fold_left
      (fun (st : list Float * Z) (_ : Z) =>
         let (table, partial_bin) := st in
         (fill_bin_a nbins partial_bin wa wb table, partial_bin + nbins))
      ns (table, pb) in
  length (fst r) = length table /\ read (fst r) k = read table k.
Proof.
  intros Hn Hk. induction ns as [|x ns IH]; intros pb table Hlen r; subst r;
    cbn [fold_left].
  - split; reflexivity.
  - pose proof (fill_bin_a_outside nbins pb wa wb k Hn Hk (Z.to_nat nbins) 0
                  table) as H.
    rewrite Z2Nat.id in H by lia. cbv zeta in H.
    replace (0 * nbins) with 0 in H by ring.
    destruct H as [Hl Hr]; try lia.
    fold (fill_bin_a nbins pb wa wb table) in Hl, Hr.
    destruct (IH (pb + nbins) (fill_bin_a nbins pb wa wb table)) as [Hl' Hr'].
    { rewrite Hl. exact Hlen. }
    rewrite Hl', Hr', Hl, Hr. split; reflexivity.
Qed.

Lemma fill_product_weights_in_block nbins JKa JKb fresh k :
  0 <= nbins -> nbins * nbins <= Z.of_nat (length fresh) ->
  nbins * nbins <= k ->
  read (fill_product_weights nbins JKa JKb fresh) k = read fresh k.
Proof.
  intros Hn Hlen Hk. unfold fill_product_weights.
  exact (proj2 (fill_regions_outside nbins (weights JKa) (weights JKb) k Hn Hk
                  (index_range 0 (n_JK_filled JKa)) 0 fresh Hlen)).
Qed.

(** The loops that fill [product_weights12_34] and [product_weights12_23]
    write only to the [nbins*nbins] doubles they allocated: in a block with
    room for more, every double from index [nbins*nbins] on is left as it
    was, however many regions are filled. *)
Theorem product_weights_stay_in_block :
  forall (nbins I1 I2 I3 I4 : Z) (JK12 JK23 JK34 : JK_weights)
         (fresh : list Float) (k : Z),
  0 <= nbins -> nbins * nbins <= Z.of_nat (length fresh) ->
  nbins * nbins <= k ->
  (~ (I1 = I3 /\ I2 = I4) -> ~ (I1 = I4 /\ I2 = I3) ->
   read (product_weights12_34 nbins I1 I2 I3 I4 JK12 JK34 fresh) k
   = read fresh k)
  /\ (I1 <> I3 ->
      read (product_weights12_23 nbins I1 I3 JK12 JK23 fresh) k = read fresh k).
Proof.
  intros nbins I1 I2 I3 I4 JK12 JK23 JK34 fresh k Hn Hlen Hk.
  unfold product_weights12_34, product_weights12_23. split.
  - intros H1 H2.
    destruct (Z.eqb_spec I1 I3), (Z.eqb_spec I2 I4), (Z.eqb_spec I1 I4),
      (Z.eqb_spec I2 I3); cbn [andb orb]; try tauto;
      apply fill_product_weights_in_block; assumption.
  - intros H. destruct (Z.eqb_spec I1 I3); [contradiction|].
    apply fill_product_weights_in_block; assumption.
Qed.

Lemma product_weights_stay_in_block_witness :
  let JK12 := mk_JK_weights [2 # 1; 1 # 2]%Q [] 2 in
  let JK34 := mk_JK_weights [3 # 1; 4 # 1]%Q [] 2 in
  read (product_weights12_34 1 1 1 1 2 JK12 JK34 [0; 7 # 1]%Q) 1 = (7 # 1)%Q.
Proof.
  cbv zeta.
  destruct (product_weights_stay_in_block 1 1 1 1 2
              (mk_JK_weights [2 # 1; 1 # 2]%Q [] 2)
              (mk_JK_weights [2 # 1; 1 # 2]%Q [] 2)
              (mk_JK_weights [3 # 1; 4 # 1]%Q [] 2) [0; 7 # 1]%Q 1
              ltac:(lia) ltac:(cbn [length]; lia) ltac:(lia)) as [H _].
  apply H; intros [E1 E2]; discriminate.
Defined.

(** ** The attempts at a cell [j] *)

Section Attempts.
Context {GO : GridOps} {RNG : GslRng} {RD : RandomDrawsOps} {K : IntegralsOps}.
Variable build : Build.
Variable ctx : Ctx.

Lemma j_iteration_attempt prim_id st :
  cell_attempt2 (cells (j_iteration build ctx prim_id st))
  = uint64 (cell_attempt2 (cells st) + 1).
Proof.
  destruct (j_iteration_step build ctx prim_id st)
    as [st' ? ? ? _ _ Hc|st2 ? ? ? _ _ _ _ _ _ _ Hc].
  - rewrite Hc. reflexivity.
  - match goal with
    | |- context [for_loop ?n (k_iteration _ _ ?a ?b ?c) st2] =>
        pose proof (k_loop_frame build ctx a b c n st2) as Hf
    end.
    apply frame_k_fields in Hf. destruct Hf as (_ & _ & -> & _).
    rewrite Hc. reflexivity.
Qed.

Lemma j_loop_attempt prim_id n : forall st a,
  cell_attempt2 (cells st) = uint64 a ->
  cell_attempt2 (cells (for_loop n (j_iteration build ctx prim_id) st))
  = uint64 (a + Z.of_nat n).
Proof.
  induction n as [|n IH]; intros st a Ha; cbn [for_loop].
  - rewrite Ha. f_equal. lia.
  - rewrite (IH _ (a + 1)).
    + f_equal. lia.
    + rewrite j_iteration_attempt, Ha, uint64_add_l. reflexivity.
Qed.

Lemma cell_iteration_attempt n1 st st' a :
  cell_iteration build ctx n1 st = Some st' ->
  cell_attempt2 (cells st) = uint64 a ->
  cell_attempt2 (cells st')
  = uint64 (a + cells_with_particles (grid1 ctx) [n1] * turns (N2 (par ctx))).
Proof.
  intros Hc Ha. apply cell_iteration_cases in Hc. cbv zeta in Hc.
  cbn [cells_with_particles fold_right].
  destruct Hc as [(Hnp & -> & _)|(Hnp & _ & _ & _ & _ & ->)].
  - destruct (Z.ltb_spec 0 (Cell.np (cell_at (grid1 ctx)
                                       (filled_at (grid1 ctx) n1)))); [lia|].
    cbn [cells set_prim]. rewrite Ha. f_equal. lia.
  - destruct (Z.ltb_spec 0 (Cell.np (cell_at (grid1 ctx)
                                       (filled_at (grid1 ctx) n1)))); [|lia].
    rewrite (j_loop_attempt _ _ _ a); [|exact Ha].
    unfold turns. f_equal. lia.
Qed.

Lemma cells_loop_attempt ns : forall st st' a,
  for_each (cell_iteration build ctx) ns st = Some st' ->
  cell_attempt2 (cells st) = uint64 a ->
  cell_attempt2 (cells st')
  = uint64 (a + cells_with_particles (grid1 ctx) ns * turns (N2 (par ctx))).
Proof.
  induction ns as [|n1 ns IH]; intros st st' a Hrun Ha; cbn [for_each] in Hrun.
  - injection Hrun as <-. cbn [cells_with_particles fold_right]. rewrite Ha.
    f_equal. lia.
  - destruct (cell_iteration build ctx n1 st) as [s1|] eqn:Hstep; [|discriminate].
    pose proof (cell_iteration_attempt n1 st s1 a Hstep Ha) as H1.
    rewrite (IH s1 st' _ Hrun H1).
    cbn [cells_with_particles fold_right].
    fold (cells_with_particles (grid1 ctx) ns). f_equal. lia.
Qed.

Lemma outer_iteration_attempt n sh st sh' st' a :
  outer_iteration build ctx n sh st = Some (sh', st') ->
  cell_attempt2 (cells st) = uint64 a ->
  cell_attempt2 (cells st')
  = if convergence_counter st =? 10 then uint64 a
    else uint64 (a + cells_with_particles (grid1 ctx)
                       (index_range 0 (Grid.nf (grid1 ctx)))
                     * turns (N2 (par ctx))).
Proof.
  unfold outer_iteration. intros Ho Ha.
  change (convergence_counter (reset_loc_used st)) with (convergence_counter st)
    in Ho.
  destruct (convergence_counter st =? 10).
  - injection Ho as <- <-. exact Ha.
  - destruct (for_each _ _ _) as [st1|] eqn:Hcells; [|discriminate].
    apply critical_section_effect in Ho. destruct Ho as (-> & _).
    change (cells (add_tot st1)) with (cells st1).
    apply (cells_loop_attempt _ _ _ a Hcells). exact Ha.
Qed.

End Attempts.

(** An outer loop that runs to its end attempts [N2] cells [j] for every
    filled cell of the first grid that holds particles, whatever the draws
    do: [cell_attempt2] grows by [N2] times the number of such cells (in the
    arithmetic of [uint64]; a negative [N2] counts as 0), and a loop skipped
    because the counter stands at 10 attempts none. *)
Theorem pair_attempts_of_an_outer_loop :
  forall (GO : GridOps) (RNG : GslRng) (RD : RandomDrawsOps)
         (K : IntegralsOps) (build : Build) (ctx : Ctx)
         (n : Z) (sh sh' : Shared) (st st' : Thread),
  outer_iteration build ctx n sh st = Some (sh', st') ->
  0 <= cell_attempt2 (cells st) < 2 ^ 64 ->
  cell_attempt2 (cells st')
  = if convergence_counter st =? 10 then cell_attempt2 (cells st)
    else uint64 (cell_attempt2 (cells st)
                 + cells_with_particles (grid1 ctx)
                     (index_range 0 (Grid.nf (grid1 ctx)))
                   * turns (N2 (par ctx))).
Proof.
  intros GO RNG RD K build ctx n sh sh' st st' Ho Hr.
  rewrite (outer_iteration_attempt build ctx n sh st sh' st'
             (cell_attempt2 (cells st)) Ho)
    by (symmetry; apply uint64_small; exact Hr).
  destruct (convergence_counter st =? 10); [|reflexivity].
  apply uint64_small. exact Hr.
Qed.

Lemma pair_attempts_of_an_outer_loop_witness :
  cell_attempt2 (cells (snd Toy.after_first_loop)) = 1.
Proof.
  apply (pair_attempts_of_an_outer_loop _ _ _ _ Toy.build Toy.ctx 0 Toy.shared
           (fst Toy.after_first_loop) Toy.thread (snd Toy.after_first_loop)
           toy_first_loop).
  vm_compute. split; [intros E; discriminate E|reflexivity].
Defined.

(** ** The times printed *)

(** The hours, minutes and seconds the driver prints for a time [t] add up
    to [t] again, [h*3600 + m*60 + s = t]; for a time that is not negative
    the minutes and the seconds lie in 0 to 59. *)
Lemma hms_round_trip (t : Z) :
  let '(h, m, s) := hms t in
  h * 3600 + m * 60 + s = t
  /\ (0 <= t -> 0 <= h /\ 0 <= m < 60 /\ 0 <= s < 60).
Proof.
  unfold hms.
  pose proof (Z.quot_rem' t 60) as H1.
  pose proof (Z.quot_rem' (Z.quot t 60) 60) as H2.
  assert (H3 : Z.quot (Z.quot t 60) 60 = Z.quot t 3600).
  { rewrite Z.quot_quot by lia. reflexivity. }
  split; [lia|]. intros Ht.
  pose proof (Z.rem_bound_pos t 60 Ht ltac:(lia)).
  assert (0 <= Z.quot t 60) by (apply Z.quot_pos; lia).
  pose proof (Z.rem_bound_pos (Z.quot t 60) 60 ltac:(lia) ltac:(lia)).
  assert (0 <= Z.quot t 3600) by (apply Z.quot_pos; lia).
  lia.
Qed.

(** On a loop with [(n_loops+1) % nthread == 0], for [nthread > 0],
    [0 <= n_loops < max_loops] and a runtime that is not negative, the
    estimate of the time left never divides by zero: [(n_loops+1)/nthread]
    is at least 1 and at most [max_loops/nthread]; the estimate is the time
    per finished round times the rounds left, is never negative, and is 0
    on the last loop. Only the final product can overflow. *)
Lemma remaining_time_defined current_runtime n_loops max_loops nthread :
  0 <= n_loops < max_loops -> max_loops <= INT_MAX -> 0 < nthread ->
  Z.rem (n_loops + 1) nthread = 0 ->
  0 <= current_runtime ->
  let done := Z.quot (n_loops + 1) nthread in
  let left := Z.quot max_loops nthread - done in
  1 <= done /\ 0 <= left
  /\ remaining_time current_runtime n_loops max_loops nthread
     = int_mul (Z.quot current_runtime done) left
  /\ (forall t, remaining_time current_runtime n_loops max_loops nthread
                = Some t -> 0 <= t)
  /\ (n_loops + 1 = max_loops ->
      remaining_time current_runtime n_loops max_loops nthread = Some 0).
Proof.
  intros Hn Hmax Hth Hrem Hrun done left.
  assert (Hdone : n_loops + 1 = nthread * done).
  { pose proof (Z.quot_rem' (n_loops + 1) nthread). subst done. lia. }
  assert (H1 : 1 <= done) by nia.
  assert (Hruns : done <= Z.quot max_loops nthread).
  { subst done. apply Z.quot_le_mono; lia. }
  assert (H2 : 0 <= left) by (subst left; lia).
  assert (Hq : 0 <= Z.quot current_runtime done) by (apply Z.quot_pos; lia).
  assert (E : remaining_time current_runtime n_loops max_loops nthread
              = int_mul (Z.quot current_runtime done) left).
  { unfold remaining_time, int_div, INT_MIN.
    destruct (Z.eqb_spec nthread 0); [lia|].
    destruct (Z.eqb_spec nthread (-1)); [lia|]. rewrite !andb_false_r.
    fold done.
    destruct (Z.eqb_spec done 0); [lia|].
    destruct (Z.eqb_spec done (-1)); [lia|]. rewrite !andb_false_r.
    reflexivity. }
  split; [exact H1|]. split; [exact H2|]. split; [exact E|]. split.
  - intros t. rewrite E. unfold int_mul.
    destruct (int_fits _); [|discriminate]. intros H; injection H as <-. nia.
  - intros Hlast. rewrite E.
    assert (H : left = 0).
    { subst left. rewrite <- Hlast. fold done. lia. }
    rewrite H. unfold int_mul. rewrite Z.mul_0_r. reflexivity.
Qed.

Lemma remaining_time_defined_witness :
  remaining_time 100 3 8 2 = Some 100.
Proof.
  destruct (remaining_time_defined 100 3 8 2 ltac:(lia)
              ltac:(unfold INT_MAX; lia) ltac:(lia) eq_refl ltac:(lia))
    as (_ & _ & E & _).
  rewrite E. reflexivity.
Defined.
